(** * filesort: an external merge sort over newline-delimited text

    A shallow embedding of [src/filesort/filesort.go].  Go strings are byte
    sequences, modelled as [string] (lists of 8-bit [ascii]); Go's [<] on
    strings is byte-wise lexicographic order, which is [String.ltb].  Go's
    [int] is modelled as [Z]: every integer the program computes is bounded by
    a slice length plus a limit, so no wrap-around is reachable.  A Go value
    [err error] is an [option error], [None] standing for [nil].

    The operating system is modelled as a [world]: a finite map from file names
    to contents, a counter for temporary names, and two ghost fields that
    record how many input files are open.  I/O failures are injected through a
    [faults] record. *)

From Stdlib Require Import ZArith Lia Ascii.
From stdpp Require Import base option list gmap strings sorting pretty fin_maps.

(** ** Integers *)

Definition min (a b : Z) : Z := if (a <? b)%Z then a else b.

Definition max (a b : Z) : Z := if (a >? b)%Z then a else b.

(** [len] is Go's [len] on slices. *)
Definition len {A} (s : list A) : Z := Z.of_nat (length s).

(** ** Outcomes of a call: normal return, panic, or the recursion budget of the
    model exhausted. *)

Inductive outcome (A : Type) : Type :=
| Done (a : A)
| Panic (msg : string)
| OutOfFuel.
Arguments Done {A} a.
Arguments Panic {A} msg.
Arguments OutOfFuel {A}.

(** ** Errors *)

Inductive error : Type :=
| EOF          (* io.EOF *)
| ErrRead
| ErrWrite
| ErrFlush
| ErrCreate
| ErrOpen.

Global Instance error_eq_dec : EqDecision error.
Proof. solve_decision. Defined.

Definition is_EOF (e : error) : bool :=
  match e with EOF => true | _ => false end.

(** ** Byte streams

    [newline] is the byte 0x0A.  A [Reader] is a [bufio.Reader] over a finite
    stream: the bytes not yet consumed and the error the stream reports once
    they are consumed ([EOF] for a stream that simply ends). *)

Definition newline : ascii := Ascii.ascii_of_nat 10.

Definition NL : string := String newline EmptyString.

Record Reader : Type := mkReader { pending : string; at_end : error }.

(** [cut_line s] splits [s] after its first newline. *)
Fixpoint cut_line (s : string) : option (string * string) :=
  match s with
  | EmptyString => None
  | String c s' =>
      if Ascii.eqb c newline then Some (String c EmptyString, s')
      else match cut_line s' with
           | Some (l, rest) => Some (String c l, rest)
           | None => None
           end
  end.

(** [bufio.Reader.ReadString('\n')]: the bytes up to and including the next
    newline; when the stream ends first, the bytes read so far together with
    the stream's error. *)
Definition ReadString (r : Reader) : string * option error * Reader :=
  match cut_line (pending r) with
  | Some (l, rest) => (l, None, mkReader rest (at_end r))
  | None => (pending r, Some (at_end r), mkReader EmptyString (at_end r))
  end.

(** The last byte of a string, [line[len(line)-1]]. *)
Fixpoint last_byte (s : string) : option ascii :=
  match s with
  | EmptyString => None
  | String c EmptyString => Some c
  | String _ s' => last_byte s'
  end.

(** ** strSliceSplit *)

(** [s[i:j]] *)
Definition slice {A} (s : list A) (i j : Z) : list A :=
  take (Z.to_nat (j - i)) (drop (Z.to_nat i) s).

Fixpoint strSliceSplit_loop (fuel : nat) (s : list string) (limit i : Z)
    (result : list (list string)) : outcome (list (list string)) :=
  if (i <? len s)%Z then
    match fuel with
    | O => OutOfFuel
    | S fuel' =>
        let j := min (len s) (i + limit) in
        strSliceSplit_loop fuel' s limit (i + limit)%Z (result ++ [slice s i j])
    end
  else Done result.

(** The loop index grows by [limit >= 1] per iteration, so [length s]
    iterations are enough (lemma [strSliceSplit_chunks]). *)
Definition strSliceSplit (s : list string) (limit : Z)
    : outcome (list (list string)) :=
  if (limit <? 1)%Z then Panic "Non-positive limit"
  else strSliceSplit_loop (length s) s limit 0 [].

(** ** Sources and the source set *)

Record source : Type := mkSource { top : string; r : Reader }.

(** [source.pop]: the receiver is updated in place; the model returns it. *)
Definition pop (s : source) : source * option error :=
  let '(line, err, r') := ReadString (r s) in
  (mkSource line r', err).

(** [sourceSet] is [map[*source]bool].  A pointer is the index of the reader
    the source was made for, and the map sends a pointer to the state of the
    source it points to; the [bool] is always [true] and is left out. *)
Abbreviation sourceSet := (gmap nat source).

Fixpoint newSourceSet_loop (rs : list Reader) (p : nat) (ss : sourceSet)
    : sourceSet * option error :=
  match rs with
  | [] => (ss, None)
  | rd :: rs' =>
      let '(s, err) := pop (mkSource EmptyString rd) in
      match err with
      | Some e =>
          if is_EOF e then newSourceSet_loop rs' (S p) ss
          else (∅, Some e)
      | None => newSourceSet_loop rs' (S p) (<[p := s]> ss)
      end
  end.

Definition newSourceSet (rs : list Reader) : sourceSet * option error :=
  newSourceSet_loop rs 0 ∅.

(** Go leaves the order in which [range] visits a map unspecified.  An
    [iteration_order] is what one [range] statement does to the entries of the
    map; [fair_order] says that it visits each entry once. *)
Definition iteration_order : Type :=
  list (nat * source) → list (nat * source).

Definition fair_order (o : iteration_order) : Prop :=
  ∀ l, o l ≡ₚ l.

(** The body of the [range] loop of [popMin], over the entries after the first
    one. *)
Fixpoint scan_min (min : nat * source) (l : list (nat * source))
    : nat * source :=
  match l with
  | [] => min
  | s :: l' =>
      scan_min (if String.ltb (top (snd s)) (top (snd min)) then s else min) l'
  end.

(** [sourceSet.popMin].  On an empty set [min] stays [nil] and [min.top]
    panics. *)
Definition popMin (o : iteration_order) (ss : sourceSet)
    : outcome (string * option error * sourceSet) :=
  match o (map_to_list ss) with
  | [] => Panic "nil pointer dereference"
  | s0 :: l =>
      let m := scan_min s0 l in
      let result := top (snd m) in
      let '(s', err) := pop (snd m) in
      match err with
      | Some e =>
          if is_EOF e then Done (result, None, delete (fst m) ss)
          else Done (result, Some e, <[fst m := s']> ss)
      | None => Done (result, None, <[fst m := s']> ss)
      end
  end.

(** ** Writers *)

Class stringWriter (W : Type) : Type :=
  WriteString : string → W → W * option error.

(** [bytes.Buffer]: never fails. *)
Definition Buffer : Type := string.

Global Instance Buffer_stringWriter : stringWriter Buffer :=
  λ s b, (b +:+ s, None).

(** [bufio.Writer] over a file.  [wbuf] holds every byte accepted so far;
    [Flush] (below) stores them in the file.  [wcap] is the number of bytes the
    writer accepts before a write fails ([None]: no failure), and the first
    error is sticky as in [bufio]. *)
Record Writer : Type := mkWriter {
  wfile : string;
  wbuf : string;
  wcap : option nat;
  werr : option error
}.

Definition over_cap (cap : option nat) (n : nat) : bool :=
  match cap with
  | Some c => c <? n
  | None => false
  end.

Global Instance Writer_stringWriter : stringWriter Writer :=
  λ s w,
    match werr w with
    | Some e => (w, Some e)
    | None =>
        if over_cap (wcap w) (String.length (wbuf w) + String.length s)
        then (mkWriter (wfile w) (wbuf w) (wcap w) (Some ErrWrite), Some ErrWrite)
        else (mkWriter (wfile w) (wbuf w +:+ s) (wcap w) None, None)
    end.

(** The loop of [writeChunk]: the lines are written in order and the loop
    returns at the first failed write. *)
Fixpoint write_lines {W} `{!stringWriter W} (lines : list string) (buf : W)
    : W * option error :=
  match lines with
  | [] => (buf, None)
  | line :: rest =>
      match WriteString line buf with
      | (buf', Some e) => (buf', Some e)
      | (buf', None) => write_lines rest buf'
      end
  end.

(** ** mergeSimple *)

Definition reader_size (rd : Reader) : nat := S (String.length (pending rd)).

Section MergeSimple.
Context {W : Type} `{!stringWriter W}.

(** [orders k] is the order of the [range] statement in iteration [k]. *)
Variable orders : nat → iteration_order.

(** The [for] loop of [mergeSimple]; [err] is the loop variable of the
    source. *)
Fixpoint mergeSimple_loop (fuel : nat) (k : nat) (sources : sourceSet)
    (w : W) (err : option error) : outcome (W * option error) :=
  if bool_decide (0 < size sources) && bool_decide (err = None) then
    match fuel with
    | O => OutOfFuel
    | S fuel' =>
        match popMin (orders k) sources with
        | Done (min, Some e, _) => Done (w, Some e)
        | Done (min, None, sources') =>
            let '(w', err') := WriteString min w in
            mergeSimple_loop fuel' (S k) sources' w' err'
        | Panic msg => Panic msg
        | OutOfFuel => OutOfFuel
        end
    end
  else Done (w, err).

(** Every iteration that does not return consumes a line of some source, so
    the loop runs at most once per unread byte, plus once per source. *)
Definition merge_budget (rs : list Reader) : nat :=
  S (sum_list_with reader_size rs).

Definition mergeSimple (rs : list Reader) (w : W)
    : outcome (W * option error) :=
  let '(sources, err) := newSourceSet rs in
  match err with
  | Some e => Done (w, Some e)
  | None => mergeSimple_loop (merge_budget rs) 0 sources w None
  end.
End MergeSimple.

(** ** readLines *)

(** The [for] loop of [readLines]; [n] is [limit - len(lines)], the number of
    iterations the loop condition still allows. *)
Fixpoint readLines_loop (n : nat) (r : Reader) (lines : list string)
    : list string * option error * Reader :=
  match n with
  | O => (lines, None, r)
  | S n' =>
      let '(line, err, r') := ReadString r in
      match err with
      | Some e =>
          if negb (is_EOF e) then (lines, err, r')
          else if bool_decide (String.length line = 0) then (lines, err, r')
          else if bool_decide (last_byte line ≠ Some newline)
               then (lines ++ [line +:+ NL], err, r')
               else (lines ++ [line], err, r')
      | None => readLines_loop n' r' (lines ++ [line])
      end
  end.

(** The largest capacity [make([]string, 0, limit)] accepts.  The runtime
    ([makeslice]) panics when the capacity is negative or when the bytes asked
    for, the capacity times the 16 bytes of a string header, pass the largest
    allocation, which is [2^48] bytes on the 64-bit platforms with a 48-bit
    heap address space (linux/amd64 and the like); [int] has 64 bits there.
    Memory is taken to suffice for what passes this check. *)
Definition max_cap : Z := 2 ^ 44.

Definition readLines (r : Reader) (limit : Z)
    : outcome (list string * option error * Reader) :=
  if (limit <? 0)%Z || (max_cap <? limit)%Z
  then Panic "makeslice: cap out of range"
  else Done (readLines_loop (Z.to_nat limit) r []).

(** [sort.Strings]: the library sort, ascending in Go's string order.  The
    order is total and antisymmetric, so the sorted list is unique and any
    correct sort computes it. *)
Definition sort_Strings (lines : list string) : list string :=
  merge_sort String.le lines.

(** ** The file system *)

(** Injected failures.  [create_fails n]: the [n]-th creation of a temporary
    file fails.  [open_fails name]: opening [name] fails although it exists.
    [read_limit name = Some k]: reading [name] fails after [k] bytes.
    [write_limit name = Some k]: a buffered writer over [name] fails once more
    than [k] bytes are written.  [flush_fails name]: flushing to [name]
    fails. *)
Record faults : Type := mkFaults {
  create_fails : nat → bool;
  open_fails : string → bool;
  read_limit : string → option nat;
  write_limit : string → option nat;
  flush_fails : string → bool;
  rename_fails : string → bool
}.

Definition no_faults : faults :=
  mkFaults (λ _, false) (λ _, false) (λ _, None) (λ _, None) (λ _, false)
    (λ _, false).

(** [fs]: the files and their contents.  [next]: the number of temporary files
    requested so far, from which the next temporary name is made.  [nopen],
    [peak] and [merges] are ghost state: the number of files now open for
    reading, the largest value [nopen] has had, and the argument of every call
    of [mergeSimpleFiles] so far. *)
Record world : Type := mkWorld {
  fs : gmap string string;
  next : nat;
  nopen : nat;
  peak : nat;
  merges : list (list string)
}.

Definition set_fs (f : gmap string string → gmap string string) (w : world)
    : world :=
  mkWorld (f (fs w)) (next w) (nopen w) (peak w) (merges w).

(** [ioutil.TempFile] names the file by the prefix followed by a number that
    makes the name new. *)
Definition tempname (prefix : string) (n : nat) : string :=
  prefix +:+ pretty n.

Definition chunk_prefix : string := "filesort_chunk_".

Definition merge_prefix : string := "filesort_merge_".

(** Computations in the world that may panic or run out of budget. *)
Definition M (A : Type) : Type := world → world * outcome A.

Definition ret {A} (a : A) : M A := λ w, (w, Done a).

Definition bind {A B} (c : M A) (k : A → M B) : M B :=
  λ w,
    match c w with
    | (w', Done a) => k a w'
    | (w', Panic msg) => (w', Panic msg)
    | (w', OutOfFuel) => (w', OutOfFuel)
    end.

(** A system call: always returns. *)
Definition call {A} (c : world → world * A) : M A :=
  λ w, let '(w', a) := c w in (w', Done a).

Definition lift {A} (o : outcome A) : M A := λ w, (w, o).

Notation "'let*' x := c 'in' k" := (bind c (λ x, k))
  (at level 10, x name, c at level 100, k at level 200, only parsing).
Notation "'let*' ' p := c 'in' k" := (bind c (λ x, match x with p => k end))
  (at level 10, p pattern, c at level 100, k at level 200, only parsing).

Section FileSort.
Variable F : faults.

(** [sched m k]: the order of the [range] statement in iteration [k] of the
    merge whose output is the [m]-th temporary file. *)
Variable sched : nat → nat → iteration_order.

Definition TempFile (prefix : string) (w : world)
    : world * (string * option error) :=
  let n := next w in
  if create_fails F n
  then (mkWorld (fs w) (S n) (nopen w) (peak w) (merges w),
        (EmptyString, Some ErrCreate))
  else (mkWorld (<[tempname prefix n := EmptyString]> (fs w)) (S n)
          (nopen w) (peak w) (merges w),
        (tempname prefix n, None)).

(** The stream a successful [os.Open] of a file with content [c] gives. *)
Definition file_reader (name c : string) : Reader :=
  match read_limit F name with
  | Some k =>
      if k <? String.length c then mkReader (String.substring 0 k c) ErrRead
      else mkReader c EOF
  | None => mkReader c EOF
  end.

Definition Open (name : string) (w : world)
    : world * (Reader * option error) :=
  match fs w !! name with
  | Some c =>
      if open_fails F name then (w, (mkReader EmptyString EOF, Some ErrOpen))
      else (mkWorld (fs w) (next w) (S (nopen w))
              (Nat.max (peak w) (S (nopen w))) (merges w),
            (file_reader name c, None))
  | None => (w, (mkReader EmptyString EOF, Some ErrOpen))
  end.

(** [f.Close()] on a file opened by [Open]. *)
Definition Close (w : world) : world :=
  mkWorld (fs w) (next w) (pred (nopen w)) (peak w) (merges w).

Definition NewWriter (name : string) : Writer :=
  mkWriter name EmptyString (write_limit F name) None.

(** [bufio.Writer.Flush].  A failed write leaves the file as it was: the
    model does not track the bytes of a partial write. *)
Definition Flush (out : Writer) (w : world) : world * option error :=
  match werr out with
  | Some e => (w, Some e)
  | None =>
      if flush_fails F (wfile out) then (w, Some ErrFlush)
      else (set_fs (insert (wfile out) (wbuf out)) w, None)
  end.

(** [deleteFile]: [os.Remove], whose error is only printed. *)
Definition deleteFile (filename : string) (w : world) : world :=
  set_fs (delete filename) w.

Fixpoint deleteFiles (filenames : list string) (w : world) : world :=
  match filenames with
  | [] => w
  | filename :: rest => deleteFiles rest (deleteFile filename w)
  end.

(** ** mergeSimpleFiles *)

(** The loop that opens the inputs: stops at the first failure, and every
    file it opened has a deferred [Close]. *)
Fixpoint open_all (names : list string) (files : list Reader) (w : world)
    : world * (list Reader * option error) :=
  match names with
  | [] => (w, (files, None))
  | name :: rest =>
      match Open name w with
      | (w', (_, Some e)) => (w', (files, Some e))
      | (w', (f, None)) => open_all rest (files ++ [f]) w'
      end
  end.

Definition close_all (files : list Reader) (w : world) : world :=
  Nat.iter (length files) Close w.

Definition note_merge (names : list string) (w : world) : world :=
  mkWorld (fs w) (next w) (nopen w) (peak w) (merges w ++ [names]).

(** The deferred calls run when the function returns, last registered
    first: [deleteFile(outf.Name())] when the merge failed, the [Close] of
    every opened input, [outf.Close()], and [deleteFiles(names)]. *)
Definition mergeSimpleFiles (names : list string) : M (string * option error) :=
  λ w,
    let w := note_merge names w in
    match TempFile merge_prefix w with
    | (w1, (_, Some e)) => (deleteFiles names w1, Done (EmptyString, Some e))
    | (w1, (outf, None)) =>
        let out := NewWriter outf in
        let '(w2, (files, err)) := open_all names [] w1 in
        let merged :=
          match err with
          | None => mergeSimple (sched (next w)) files out
          | Some e => Done (out, Some e)
          end in
        match merged with
        | Done (out', err) =>
            let '(w3, err) :=
              match err with
              | None => Flush out' w2
              | Some e => (w2, Some e)
              end in
            let w4 :=
              match err with
              | Some _ => deleteFile outf w3
              | None => w3
              end in
            (deleteFiles names (close_all files w4), Done (outf, err))
        | Panic msg => (deleteFiles names (close_all files w2), Panic msg)
        | OutOfFuel => (w2, OutOfFuel)
        end
    end.

(** ** merge *)

(** The loop of [merge] over the groups. *)
Fixpoint merge_groups (mergef : list string → M (string * option error))
    (name_groups : list (list string)) (reduced_names : list string)
    : M (list string * option error) :=
  match name_groups with
  | [] => ret (reduced_names, None)
  | group :: rest =>
      let* '(name, err) := mergef group in
      let reduced_names :=
        if bool_decide (name ≠ EmptyString) then reduced_names ++ [name]
        else reduced_names in
      match err with
      | Some e => ret (reduced_names, Some e)
      | None => merge_groups mergef rest reduced_names
      end
  end.

(** [fuel] bounds the depth of the recursion. *)
Fixpoint merge (fuel : nat) (names : list string) (limit : Z)
    : M (string * option error) :=
  match fuel with
  | O => lift OutOfFuel
  | S fuel' =>
      match names with
      | [] => lift (Panic "Empty names")
      | [name] => ret (name, None)
      | _ =>
          if (len names <=? limit)%Z then mergeSimpleFiles names
          else
            let* name_groups := lift (strSliceSplit names limit) in
            let* '(reduced_names, err) :=
               merge_groups (λ group, merge fuel' group limit) name_groups [] in
            match err with
            | Some e => ret (EmptyString, Some e)
            | None => merge fuel' reduced_names limit
            end
      end
  end.

(** ** writeChunk and split *)

Definition writeChunk (lines : list string) (w : world)
    : world * (string * option error) :=
  match TempFile chunk_prefix w with
  | (w1, (_, Some e)) => (w1, (EmptyString, Some e))
  | (w1, (name, None)) =>
      match write_lines lines (NewWriter name) with
      | (_, Some e) => (w1, (name, Some e))
      | (buf, None) => let '(w2, err) := Flush buf w1 in (w2, (name, err))
      end
  end.

(** What [split] returns once its loop is left. *)
Definition split_return (chunk_names : list string) (err : option error)
    : list string * option error :=
  (chunk_names, match err with Some EOF => None | _ => err end).

Fixpoint split_loop (fuel : nat) (limit : Z) (in_ : Reader)
    (chunk_names : list string) (err : option error)
    : M (list string * option error) :=
  match err with
  | Some _ => ret (split_return chunk_names err)
  | None =>
      match fuel with
      | O => lift OutOfFuel
      | S fuel' =>
          let* '(lines, err, in') := lift (readLines in_ limit) in
          if bool_decide (err ≠ None) && bool_decide (err ≠ Some EOF)
          then ret (split_return chunk_names err)
          else if bool_decide (len lines = 0%Z)
                  && bool_decide (len chunk_names > 0)%Z
          then ret (split_return chunk_names err)
          else
            let lines := sort_Strings lines in
            let* '(name, err) := call (writeChunk lines) in
            let chunk_names :=
              if bool_decide (name ≠ EmptyString) then chunk_names ++ [name]
              else chunk_names in
            split_loop fuel' limit in' chunk_names err
      end
  end.

(** Every iteration but the last two consumes a line, so the loop runs at
    most once per unread byte, plus twice (lemma [split_chunks]). *)
Definition split (r : Reader) (limit : Z) : M (list string * option error) :=
  split_loop (String.length (pending r) + 2) limit r [] None.

(** ** Top level *)

Definition sortLines (fuel : nat) (r : Reader) (limit : Z)
    : M (string * option error) :=
  let* '(names, err) := split r limit in
  match err with
  | Some e => λ w, (deleteFiles names w, Done (EmptyString, Some e))
  | None => merge fuel names (min 100 (max 10 limit))
  end.

(** [os.Rename]. *)
Definition Rename (oldname newname : string) (w : world)
    : world * option error :=
  match fs w !! oldname with
  | Some c =>
      if rename_fails F oldname then (w, Some ErrWrite)
      else (set_fs (λ m, <[newname := c]> (delete oldname m)) w, None)
  | None => (w, Some ErrOpen)
  end.

Definition sortLinesFile (fuel : nat) (r : Reader) (limit : Z)
    (outfile : string) : M (option error) :=
  let* '(name, err) := sortLines fuel r limit in
  match err with
  | Some e => ret (Some e)
  | None => call (Rename name outfile)
  end.

(** [bufio.Reader.WriteTo]: copies the stream to the destination until the
    stream ends, in as many writes as the buffers of the library make of it.
    [pieces c] is the sequence of writes made of the bytes [c]; a failed
    write ends the copy, the later pieces unwritten, and otherwise a read
    error other than [EOF] is returned. *)
Definition WriteTo {W} `{!stringWriter W} (pieces : string → list string)
    (in_ : Reader) (w : W) : W * option error :=
  match write_lines (pieces (pending in_)) w with
  | (w', Some e) => (w', Some e)
  | (w', None) => (w', if is_EOF (at_end in_) then None else Some (at_end in_))
  end.

(** The destination [w] is returned with the error.  The deferred calls are
    [f.Close()] and then [deleteFile(name)]. *)
Definition sortLinesWrite {W} `{!stringWriter W}
    (pieces : string → list string) (fuel : nat) (r : Reader)
    (limit : Z) (w : W) : M (W * option error) :=
  let* '(name, err) := sortLines fuel r limit in
  match err with
  | Some e => ret (w, Some e)
  | None =>
      λ w0,
        match Open name w0 with
        | (w1, (_, Some e)) => (deleteFile name w1, Done (w, Some e))
        | (w1, (f, None)) =>
            (deleteFile name (Close w1), Done (WriteTo pieces f w))
        end
  end.
End FileSort.

(** ** Vocabulary of the specification *)

(** A finite stream that ends with [EOF]. *)
Definition rd (s : string) : Reader := mkReader s EOF.

(** A line: [s] followed by a newline. *)
Definition line (s : string) : string := s +:+ NL.

(** The bytes of a sequence of lines. *)
Fixpoint join (ls : list string) : string :=
  match ls with
  | [] => EmptyString
  | l :: ls' => l +:+ join ls'
  end.

(** The writes a copy is made of are the bytes of the stream, in order. *)
Definition whole_stream (pieces : string → list string) : Prop :=
  ∀ c, join (pieces c) = c.

(** Two ways to cut a stream: one write for all of it, or one write per
    byte. *)
Definition one_piece : string → list string := λ c, [c].

Fixpoint bytewise (c : string) : list string :=
  match c with
  | EmptyString => []
  | String a c' => String a EmptyString :: bytewise c'
  end.

(** [parse s] cuts [s] after every newline: the terminated lines, each with
    its terminator, and the bytes after the last newline. *)
Fixpoint parse (s : string) : list string * string :=
  match s with
  | EmptyString => ([], EmptyString)
  | String c s' =>
      let '(ls, t) := parse s' in
      if Ascii.eqb c newline then (NL :: ls, t)
      else match ls with
           | [] => ([], String c t)
           | l :: ls' => (String c l :: ls', t)
           end
  end.

Definition full_lines (s : string) : list string := fst (parse s).

Definition tail_of (s : string) : string := snd (parse s).

(** The lines of an input: its terminated lines, and its unterminated last
    line, when it has one, with a terminator. *)
Definition lines_of (s : string) : list string :=
  full_lines s ++
  (if bool_decide (tail_of s = EmptyString) then [] else [tail_of s +:+ NL]).

(** The bytes left in [s] once [n] lines have been read from it. *)
Definition rest_after (n : nat) (s : string) : string :=
  if decide (n ≤ length (full_lines s))
  then join (drop n (full_lines s)) +:+ tail_of s
  else EmptyString.

Fixpoint has_newline (s : string) : bool :=
  match s with
  | EmptyString => false
  | String c s' => Ascii.eqb c newline || has_newline s'
  end.

(** A line with exactly one terminator, at its end. *)
Definition is_line (l : string) : Prop :=
  ∃ body, l = body +:+ NL ∧ has_newline body = false.

(** The sources of a set, the lines a source still has to give (its top line
    and the terminated lines still unread), and a bound on the number of
    iterations a set can still take. *)
Definition entries (ss : sourceSet) : list source := (map_to_list ss).*2.

Definition src_lines (s : source) : list string :=
  top s :: full_lines (pending (r s)).

Definition all_lines (ss : sourceSet) : list string :=
  entries ss ≫= src_lines.

Definition src_size (s : source) : nat := S (String.length (pending (r s))).

Definition set_size (ss : sourceSet) : nat :=
  sum_list_with src_size (entries ss).

(** A source over a stream that ends with [EOF] and whose lines ascend. *)
Definition sorted_source (s : source) : Prop :=
  at_end (r s) = EOF ∧ Sorted String.le (src_lines s).

Definition sorted_set (ss : sourceSet) : Prop :=
  ∀ p s, ss !! p = Some s → sorted_source s.

(** A stream that ends with [EOF] and whose terminated lines ascend. *)
Definition sorted_reader (rd : Reader) : Prop :=
  at_end rd = EOF ∧ Sorted String.le (full_lines (pending rd)).

(** [chunks n l]: [l] cut into consecutive groups of [n] elements, the last
    one possibly shorter. *)
Fixpoint chunks_go {A} (fuel n : nat) (l : list A) : list (list A) :=
  match fuel with
  | O => []
  | S fuel' =>
      match l with
      | [] => []
      | _ => take n l :: chunks_go fuel' n (drop n l)
      end
  end.

Definition chunks {A} (n : nat) (l : list A) : list (list A) :=
  chunks_go (length l) n l.

(** The world after a temporary file [name] has been created and filled with
    [content]. *)
Definition add_file (name content : string) (w : world) : world :=
  mkWorld (<[name := content]> (fs w)) (S (next w)) (nopen w) (peak w)
    (merges w).

(** What [split] does with the groups of lines it reads: each is sorted and
    stored in a new chunk file. *)
Fixpoint write_chunks (groups : list (list string)) (w : world)
    : world * list string :=
  match groups with
  | [] => (w, [])
  | g :: rest =>
      let name := tempname chunk_prefix (next w) in
      let '(w', names) :=
        write_chunks rest (add_file name (join (sort_Strings g)) w) in
      (w', name :: names)
  end.

(** The groups of lines [split] makes of the lines [L] of its input. *)
Definition split_groups (n : nat) (L : list string) : list (list string) :=
  match L with
  | [] => [[]]
  | _ => chunks n L
  end.

(** A sorted file: every line is terminated and the lines ascend. *)
Definition good_file (c : string) : Prop :=
  tail_of c = EmptyString ∧ Sorted String.le (full_lines c).

(** The lines of the files [cs], all together and in ascending order. *)
Definition merged_content (cs : list string) : string :=
  join (sort_Strings (cs ≫= full_lines)).

(** [names] hold the contents [cs]. *)
Definition holds (w : world) (names cs : list string) : Prop :=
  Forall2 (λ n c, fs w !! n = Some c) names cs.

(** The effect of a merge of [names] into [out] on the files: [out] holds
    [content], the other inputs are gone, no other file has changed, and [out]
    is one of the inputs or a temporary file made meanwhile. *)
Definition merged (names : list string) (out content : string) (w w' : world)
    : Prop :=
  fs w' !! out = Some content ∧
  (∀ k, k ∈ names → k ≠ out → fs w' !! k = None) ∧
  (∀ k, k ∉ names → k ≠ out → fs w' !! k = fs w !! k) ∧
  (out ∈ names ∨ ∃ j, out = tempname merge_prefix j ∧ next w ≤ j < next w') ∧
  next w ≤ next w'.

(** From [w] to [w'] every direct merge took at most [limit] names, and the
    number of files open at once has not passed the larger of its old peak and
    [limit] more than were open in [w]. *)
Definition within (limit : Z) (w w' : world) : Prop :=
  (∃ new, merges w' = merges w ++ new ∧ Forall (λ g, (len g ≤ limit)%Z) new) ∧
  peak w ≤ peak w' ∧
  (Z.of_nat (peak w') ≤ Z.max (Z.of_nat (peak w)) (Z.of_nat (nopen w) + limit))%Z.

(** A computation that stays [within] the limit and, when it returns, has
    closed what it opened. *)
Definition safe (limit : Z) {A} (c : M A) : Prop :=
  ∀ w, within limit w (c w).1 ∧
       (∀ a, (c w).2 = Done a → nopen (c w).1 = nopen w).

(** What a call of [merge] on a non-empty list with a fan-in of at least two
    can come to: it never panics, it runs out of budget only when the budget
    is below the number of names, and the name it returns without error is
    its only input or a merge file. *)
Definition merge_ends (fuel : nat) (names : list string)
    (o : outcome (string * option error)) : Prop :=
  match o with
  | Done (name, err) =>
      err = None → names = [name] ∨ ∃ j, name = tempname merge_prefix j
  | Panic _ => False
  | OutOfFuel => fuel < length names
  end.

(** No file carries a temporary name that is still to be handed out. *)
Definition wf (w : world) : Prop :=
  ∀ k, next w ≤ k →
    fs w !! tempname chunk_prefix k = None ∧
    fs w !! tempname merge_prefix k = None.

(** What [merge] does with sorted inputs when nothing fails: it returns a
    file that holds all their lines in ascending order. *)
Definition merge_ok (sched : nat → nat → iteration_order) (limit : Z)
    (fuel : nat) : Prop :=
  ∀ names cs w,
    names ≠ [] → NoDup names → Forall (λ n, n ≠ EmptyString) names →
    wf w → holds w names cs → Forall good_file cs → length names ≤ fuel →
    ∃ w' out,
      merge no_faults sched fuel names limit w = (w', Done (out, None)) ∧
      merged names out (merged_content cs) w w' ∧ wf w'.

Definition world0 : world := mkWorld ∅ 0 0 0 [].

(** The order in which [map_to_list] lists the entries, and its reverse. *)
Definition id_sched : nat → nat → iteration_order := λ _ _ l, l.

Definition rev_sched : nat → nat → iteration_order := λ _ _ l, reverse l.

Definition fair_orders (orders : nat → iteration_order) : Prop :=
  ∀ k, fair_order (orders k).

Definition fair_sched (sched : nat → nat → iteration_order) : Prop :=
  ∀ m k, fair_order (sched m k).

(** * Strings, lines and parsing *)

Section Strings.
Implicit Types (s t l body : string) (ls : list string) (c : ascii).

Lemma append_nil_l s : EmptyString +:+ s = s.
Proof. reflexivity. Qed.

Lemma append_cons c s t : String c s +:+ t = String c (s +:+ t).
Proof. reflexivity. Qed.

Lemma append_nil_r s : s +:+ EmptyString = s.
Proof. induction s as [|c s IH]; [done|]. by rewrite append_cons, IH. Qed.

Lemma append_assoc s t u : (s +:+ t) +:+ u = s +:+ (t +:+ u).
Proof.
  induction s as [|c s IH]; [done|]. by rewrite !append_cons, IH.
Qed.

Lemma length_append s t :
  String.length (s +:+ t) = String.length s + String.length t.
Proof.
  induction s as [|c s IH]; [done|]. rewrite append_cons. simpl. by rewrite IH.
Qed.

Lemma append_eq_nil s t : s +:+ t = EmptyString → s = EmptyString ∧ t = EmptyString.
Proof. destruct s; [done|]. rewrite append_cons. done. Qed.

Lemma join_app ls1 ls2 : join (ls1 ++ ls2) = join ls1 +:+ join ls2.
Proof.
  induction ls1 as [|l ls1 IH]; simpl; [done|]. by rewrite IH, append_assoc.
Qed.

Lemma join_singleton l : join [l] = l.
Proof. simpl. apply append_nil_r. Qed.

Lemma newline_eqb c : Ascii.eqb c newline = true ↔ c = newline.
Proof. apply Ascii.eqb_eq. Qed.

Lemma has_newline_append s t :
  has_newline (s +:+ t) = has_newline s || has_newline t.
Proof.
  induction s as [|c s IH]; [done|].
  rewrite append_cons. simpl. by rewrite IH, orb_assoc.
Qed.

Lemma is_line_NL : is_line NL.
Proof. by exists EmptyString. Qed.

Lemma is_line_cons c l : c ≠ newline → is_line l → is_line (String c l).
Proof.
  intros Hc (body & -> & Hb). exists (String c body). split; [done|].
  simpl. rewrite Hb, orb_false_r. by apply Ascii.eqb_neq.
Qed.

Lemma is_line_terminate t : has_newline t = false → is_line (t +:+ NL).
Proof. intros. by exists t. Qed.


Lemma is_line_length l : is_line l → 0 < String.length l.
Proof. intros (body & -> & _). rewrite length_append. simpl. lia. Qed.

Lemma last_byte_cons c s :
  s ≠ EmptyString → last_byte (String c s) = last_byte s.
Proof. by destruct s. Qed.

Lemma last_byte_append_NL s : last_byte (s +:+ NL) = Some newline.
Proof.
  induction s as [|c s IH]; [done|].
  rewrite append_cons, last_byte_cons; [done|].
  intros [_ ?]%append_eq_nil. done.
Qed.

Lemma is_line_last_byte l : is_line l → last_byte l = Some newline.
Proof. intros (body & -> & _). apply last_byte_append_NL. Qed.

Lemma no_newline_last_byte s :
  has_newline s = false → last_byte s ≠ Some newline.
Proof.
  induction s as [|c s IH]; [done|]. simpl.
  intros [Hc Hs]%orb_false_elim. destruct s as [|c' s'].
  - intros [= ->]. by rewrite Ascii.eqb_refl in Hc.
  - by apply IH.
Qed.

(** ** [cut_line] against [parse] *)

Lemma cut_line_Some s l rest :
  cut_line s = Some (l, rest) →
  s = l +:+ rest ∧ is_line l ∧
  parse s = (l :: full_lines rest, tail_of rest).
Proof.
  revert l rest. induction s as [|c s IH]; intros l rest; simpl; [done|].
  destruct (Ascii.eqb c newline) eqn:Hc.
  - intros [= <- <-]. apply Ascii.eqb_eq in Hc as ->.
    split_and!; [done|apply is_line_NL|].
    unfold full_lines, tail_of. by destruct (parse s).
  - destruct (cut_line s) as [[l' rest']|] eqn:Hcut; [|done].
    intros [= <- <-]. destruct (IH _ _ eq_refl) as (Hs & Hl & Hp).
    split_and!.
    + by rewrite append_cons, <-Hs.
    + apply is_line_cons; [|done]. by apply Ascii.eqb_neq.
    + by rewrite Hp.
Qed.

Lemma cut_line_None s :
  cut_line s = None → has_newline s = false ∧ parse s = ([], s).
Proof.
  induction s as [|c s IH]; simpl; [done|].
  destruct (Ascii.eqb c newline) eqn:Hc; [done|].
  destruct (cut_line s) as [[l' rest']|] eqn:Hcut; [done|].
  intros _. destruct (IH eq_refl) as [Hn Hp]. by rewrite Hn, Hp.
Qed.

Lemma cut_line_length s l rest :
  cut_line s = Some (l, rest) → String.length rest < String.length s.
Proof.
  intros (-> & Hl%is_line_length & _)%cut_line_Some.
  rewrite length_append. lia.
Qed.

(** ** Round trips between bytes and lines *)

Lemma parse_line l s :
  is_line l → parse (l +:+ s) = (l :: full_lines s, tail_of s).
Proof.
  intros (body & -> & Hb). rewrite append_assoc.
  induction body as [|c body IH].
  - rewrite append_nil_l. unfold NL, full_lines, tail_of.
    rewrite append_cons, append_nil_l. simpl. by destruct (parse s).
  - simpl in Hb. apply orb_false_elim in Hb as [Hc Hb].
    rewrite append_cons. simpl. by rewrite (IH Hb), Hc.
Qed.

Lemma parse_no_newline t : has_newline t = false → parse t = ([], t).
Proof.
  induction t as [|c t IH]; simpl; [done|].
  intros [Hc Ht]%orb_false_elim. by rewrite (IH Ht), Hc.
Qed.

Lemma parse_join ls t :
  Forall is_line ls → has_newline t = false → parse (join ls +:+ t) = (ls, t).
Proof.
  intros Hls Ht. induction Hls as [|l ls Hl _ IH]; simpl.
  - by apply parse_no_newline.
  - rewrite append_assoc, parse_line by done.
    unfold full_lines, tail_of. by rewrite IH.
Qed.

Lemma parse_spec s :
  s = join (full_lines s) +:+ tail_of s ∧
  Forall is_line (full_lines s) ∧ has_newline (tail_of s) = false.
Proof.
  unfold full_lines, tail_of. induction s as [|c s IH]; simpl; [done|].
  destruct (parse s) as [ls t]; simpl in *. destruct IH as (Hs & Hls & Ht).
  destruct (Ascii.eqb c newline) eqn:Hc.
  - apply Ascii.eqb_eq in Hc as ->. simpl. split_and!; [|by constructor; [apply is_line_NL|]|done].
    by rewrite append_assoc, <-Hs.
  - destruct ls as [|l ls]; simpl in *.
    + rewrite Hc, Ht. by rewrite Hs at 1.
    + apply Forall_cons in Hls as [Hl Hls]. split_and!; [|constructor; [|done]|done].
      * by rewrite !append_cons, <-Hs.
      * apply is_line_cons; [|done]. by apply Ascii.eqb_neq.
Qed.

Lemma full_lines_join ls : Forall is_line ls → full_lines (join ls) = ls.
Proof.
  intros Hls. unfold full_lines.
  by rewrite <-(append_nil_r (join ls)), parse_join.
Qed.

Lemma tail_of_join ls : Forall is_line ls → tail_of (join ls) = EmptyString.
Proof.
  intros Hls. unfold tail_of.
  by rewrite <-(append_nil_r (join ls)), parse_join.
Qed.

Lemma lines_of_join ls : Forall is_line ls → lines_of (join ls) = ls.
Proof.
  intros Hls. unfold lines_of.
  rewrite full_lines_join, tail_of_join by done. simpl. apply app_nil_r.
Qed.

Lemma lines_of_is_line s : Forall is_line (lines_of s).
Proof.
  destruct (parse_spec s) as (_ & Hls & Ht). unfold lines_of.
  apply Forall_app. split; [done|]. case_bool_decide; [done|].
  repeat constructor. by apply is_line_terminate.
Qed.

Lemma join_lines_of s :
  join (lines_of s) =
  s +:+ (if bool_decide (tail_of s = EmptyString) then EmptyString else NL).
Proof.
  destruct (parse_spec s) as (Hs & _ & _). unfold lines_of.
  rewrite join_app. case_bool_decide as Ht; simpl.
  - rewrite !append_nil_r. rewrite Hs at 2. by rewrite Ht, append_nil_r.
  - rewrite append_nil_r, <-append_assoc. by rewrite <-Hs.
Qed.


Lemma length_lines_of s : length (lines_of s) ≤ String.length s.
Proof.
  assert (∀ ls, Forall is_line ls → length ls ≤ String.length (join ls)) as Hlen.
  { induction 1 as [|l ls Hl%is_line_length _ IH]; simpl; [done|].
    rewrite length_append. lia. }
  destruct (parse_spec s) as (Hs & Hls & Ht). unfold lines_of.
  rewrite length_app. specialize (Hlen _ Hls).
  assert (String.length s
          = String.length (join (full_lines s)) + String.length (tail_of s))
    as -> by (by rewrite <-length_append, <-Hs).
  case_bool_decide as Ht'; simpl; [lia|].
  destruct (tail_of s); [done|]. simpl. lia.
Qed.
End Strings.

(** * Reading lines *)

Section Reading.
Implicit Types (s t l : string) (ls acc : list string) (e : error).

Lemma cut_line_line l s : is_line l → cut_line (l +:+ s) = Some (l, s).
Proof.
  intros (body & -> & Hb). rewrite append_assoc.
  induction body as [|c body IH].
  - done.
  - simpl in Hb. apply orb_false_elim in Hb as [Hc Hb].
    rewrite !append_cons. simpl. by rewrite Hc, (IH Hb).
Qed.

Lemma cut_line_no_newline t : has_newline t = false → cut_line t = None.
Proof.
  induction t as [|c t IH]; simpl; [done|].
  intros [Hc Ht]%orb_false_elim. by rewrite Hc, (IH Ht).
Qed.

Lemma ReadString_line l s e :
  is_line l → ReadString (mkReader (l +:+ s) e) = (l, None, mkReader s e).
Proof. intros Hl. unfold ReadString. simpl. by rewrite cut_line_line. Qed.

Lemma ReadString_tail t e :
  has_newline t = false →
  ReadString (mkReader t e) = (t, Some e, mkReader EmptyString e).
Proof. intros Ht. unfold ReadString. simpl. by rewrite cut_line_no_newline. Qed.

(** What the loop of [readLines] does to a stream made of the lines [ls]
    followed by the unterminated bytes [t]. *)
Lemma readLines_loop_spec n ls t e acc :
  Forall is_line ls → has_newline t = false →
  readLines_loop n (mkReader (join ls +:+ t) e) acc =
    if decide (n ≤ length ls)
    then (acc ++ take n ls, None, mkReader (join (drop n ls) +:+ t) e)
    else if is_EOF e
         then (acc ++ ls ++
                 (if bool_decide (t = EmptyString) then [] else [t +:+ NL]),
               Some e, mkReader EmptyString e)
         else (acc ++ ls, Some e, mkReader EmptyString e).
Proof.
  intros Hls Ht. revert n acc.
  induction Hls as [|l ls Hl Hls IH]; intros n acc.
  - destruct n as [|n]; simpl.
    { by rewrite app_nil_r. }
    rewrite append_nil_l, ReadString_tail by done.
    destruct (is_EOF e) eqn:He; simpl; [|by rewrite app_nil_r].
    destruct t as [|c t]; simpl; [by rewrite app_nil_r|].
    pose proof (no_newline_last_byte _ Ht) as Hlast. simpl in Hlast.
    by rewrite bool_decide_true.
  - destruct n as [|n]; simpl.
    { by rewrite app_nil_r. }
    rewrite append_assoc, ReadString_line by done.
    rewrite IH. destruct (decide (n ≤ length ls)).
    + rewrite decide_True by lia. by rewrite <-app_assoc.
    + rewrite decide_False by lia.
      destruct (is_EOF e); by rewrite <-app_assoc.
Qed.

(** The bytes left after [n] lines have been read. *)
Lemma readLines_rd n s :
  readLines_loop n (rd s) [] =
    (take n (lines_of s),
     if decide (n ≤ length (full_lines s)) then None else Some EOF,
     rd (rest_after n s)).
Proof.
  destruct (parse_spec s) as (Hs & Hls & Ht). unfold rd.
  rewrite Hs at 1. rewrite readLines_loop_spec by done.
  unfold rest_after, lines_of. simpl.
  destruct (decide (n ≤ length (full_lines s))); simpl.
  - by rewrite take_app_le.
  - rewrite take_ge; [done|]. rewrite length_app.
    case_bool_decide; simpl; lia.
Qed.

Lemma lines_of_rest_after n s :
  lines_of (rest_after n s) = drop n (lines_of s).
Proof.
  destruct (parse_spec s) as (Hs & Hls & Ht). unfold rest_after.
  destruct (decide (n ≤ length (full_lines s))).
  - pose proof (parse_join (drop n (full_lines s)) (tail_of s)
                  (Forall_drop _ n _ Hls) Ht) as Hp.
    unfold lines_of, full_lines, tail_of in *. rewrite Hp. simpl.
    by rewrite drop_app_le.
  - rewrite drop_ge; [done|]. unfold lines_of. rewrite length_app.
    case_bool_decide; simpl; lia.
Qed.

Lemma readLines_in_range r limit :
  (0 ≤ limit ≤ max_cap)%Z →
  readLines r limit = Done (readLines_loop (Z.to_nat limit) r []).
Proof.
  intros Hlimit. unfold readLines.
  destruct (Z.ltb_spec limit 0); [lia|].
  by destruct (Z.ltb_spec max_cap limit); [lia|].
Qed.

Lemma readLines_out_of_range r limit :
  (limit < 0 ∨ max_cap < limit)%Z →
  readLines r limit = Panic "makeslice: cap out of range".
Proof.
  intros Hlimit. unfold readLines.
  destruct (Z.ltb_spec limit 0); [done|].
  by destruct (Z.ltb_spec max_cap limit); [|lia].
Qed.

Lemma readLines_lines r limit lines err r' :
  readLines r limit = Done (lines, err, r') → (len lines ≤ limit ∧ 0 ≤ limit)%Z.
Proof.
  unfold readLines. destruct (Z.ltb_spec limit 0); [done|].
  destruct (max_cap <? limit)%Z; [done|]. intros [= Hr].
  split; [|done].
  assert (∀ n r acc, length (readLines_loop n r acc).1.1 ≤ n + length acc).
  { clear. induction n as [|n IH]; intros r acc; simpl; [done|].
    destruct (ReadString r) as [[line err] r'].
    destruct err as [e|]; simpl.
    - destruct (is_EOF e); simpl; [|lia].
      repeat case_bool_decide; simpl; rewrite ?length_app; simpl; lia.
    - etrans; [apply IH|]. rewrite length_app. simpl. lia. }
  specialize (H0 (Z.to_nat limit) r []). rewrite Hr in H0. simpl in H0.
  unfold len. lia.
Qed.
End Reading.

(** * Chunking *)

Section Chunks.
Context {A : Type}.
Implicit Types (l : list A) (n fuel : nat).

Lemma chunks_go_enough n fuel1 fuel2 l :
  1 ≤ n → length l ≤ fuel1 → length l ≤ fuel2 →
  chunks_go fuel1 n l = chunks_go fuel2 n l.
Proof.
  intros Hn. revert fuel2 l.
  induction fuel1 as [|fuel1 IH]; intros fuel2 l H1 H2.
  - destruct l; [|simpl in *; lia]. by destruct fuel2.
  - destruct l as [|x l]; [by destruct fuel2|].
    destruct fuel2 as [|fuel2]; [simpl in *; lia|].
    simpl. f_equal. apply IH; rewrite length_drop; simpl in *; lia.
Qed.

Lemma chunks_nil n : chunks n (@nil A) = [].
Proof. done. Qed.

Lemma chunks_cons n l :
  1 ≤ n → l ≠ [] → chunks n l = take n l :: chunks n (drop n l).
Proof.
  intros Hn Hl. unfold chunks. destruct l as [|x l]; [done|].
  simpl length. cbn [chunks_go]. f_equal.
  apply chunks_go_enough; [done|..]; rewrite ?length_drop; simpl; lia.
Qed.

Lemma chunks_ind n (P : list A → list (list A) → Prop) :
  1 ≤ n →
  P [] [] →
  (∀ l, l ≠ [] → P (drop n l) (chunks n (drop n l)) →
        P l (take n l :: chunks n (drop n l))) →
  ∀ l, P l (chunks n l).
Proof.
  intros Hn Hnil Hcons l.
  assert (∀ m l, length l ≤ m → P l (chunks n l)) as Hall; [|by eapply Hall].
  clear l. induction m as [|m IH]; intros l Hm.
  - destruct l; [done|simpl in Hm; lia].
  - destruct (decide (l = [])) as [->|Hl]; [done|].
    rewrite chunks_cons by done. apply Hcons; [done|]. apply IH.
    rewrite length_drop. lia.
Qed.

Lemma concat_chunks n l : 1 ≤ n → concat (chunks n l) = l.
Proof.
  intros Hn. apply (chunks_ind n (λ l gs, concat gs = l)); [done..|].
  intros l' _ IH. simpl. rewrite IH. apply take_drop.
Qed.

Lemma chunks_bounds n l :
  1 ≤ n → Forall (λ g, 1 ≤ length g ≤ n) (chunks n l).
Proof.
  intros Hn. apply (chunks_ind n (λ l gs, Forall (λ g, 1 ≤ length g ≤ n) gs));
    [done|done|].
  intros l' Hl IH. constructor; [|done].
  rewrite length_take. destruct l'; [done|]. simpl. lia.
Qed.

Lemma length_chunks n l : 1 ≤ n → length (chunks n l) ≤ length l.
Proof.
  intros Hn. apply (chunks_ind n (λ l gs, length gs ≤ length l)); [done..|].
  intros l' Hl IH. simpl. rewrite length_drop in IH.
  destruct l'; [done|]. simpl in *. lia.
Qed.

Lemma length_chunks_lt n l :
  2 ≤ n → n < length l → length (chunks n l) < length l.
Proof.
  intros Hn Hl. rewrite chunks_cons; [|lia|intros ->; simpl in Hl; lia].
  simpl. pose proof (length_chunks n (drop n l)) as Hle.
  rewrite length_drop in Hle. lia.
Qed.

Lemma chunks_nonempty n l : 1 ≤ n → l ≠ [] → chunks n l ≠ [].
Proof. intros. by rewrite chunks_cons. Qed.
End Chunks.

(** * strSliceSplit *)

Lemma min_spec (a b : Z) : min a b = Z.min a b.
Proof. unfold min. destruct (Z.ltb_spec a b); lia. Qed.

Lemma max_spec (a b : Z) : max a b = Z.max a b.
Proof. unfold max. rewrite Z.gtb_ltb. destruct (Z.ltb_spec b a); lia. Qed.

Lemma strSliceSplit_loop_chunks fuel (s : list string) (limit : Z) k result :
  (1 ≤ limit)%Z → length s - k ≤ fuel →
  strSliceSplit_loop fuel s limit (Z.of_nat k) result =
    Done (result ++ chunks (Z.to_nat limit) (drop k s)).
Proof.
  intros Hlimit. revert k result.
  induction fuel as [|fuel IH]; intros k result Hfuel.
  - simpl. unfold len. destruct (Z.ltb_spec (Z.of_nat k) (Z.of_nat (length s))); [lia|].
    rewrite drop_ge by lia. by rewrite app_nil_r.
  - simpl. unfold len. destruct (Z.ltb_spec (Z.of_nat k) (Z.of_nat (length s))).
    + replace (Z.of_nat k + limit)%Z with (Z.of_nat (k + Z.to_nat limit)) by lia.
      rewrite IH by lia. f_equal. rewrite <-app_assoc. f_equal. simpl.
      rewrite (chunks_cons _ (drop k s)); [|lia|].
      2:{ intros Hd%(f_equal length). rewrite length_drop in Hd. simpl in Hd. lia. }
      rewrite drop_drop. f_equal. unfold slice. rewrite min_spec.
      rewrite Nat2Z.id.
      destruct (decide (length s ≤ k + Z.to_nat limit)).
      * rewrite Z.min_l by lia. rewrite !take_ge; [done|..]; rewrite length_drop; lia.
      * rewrite Z.min_r by lia. f_equal. lia.
    + rewrite drop_ge by lia. by rewrite app_nil_r.
Qed.

Lemma strSliceSplit_chunks (s : list string) (limit : Z) :
  (1 ≤ limit)%Z → strSliceSplit s limit = Done (chunks (Z.to_nat limit) s).
Proof.
  intros Hlimit. unfold strSliceSplit.
  destruct (Z.ltb_spec limit 1); [lia|].
  by rewrite (strSliceSplit_loop_chunks _ _ _ 0) by lia.
Qed.

(** * The order on lines and the library sort *)

Section Order.
Implicit Types (a b : string) (l : list string).

Lemma ltb_le a b : String.ltb a b = true → String.le a b.
Proof.
  unfold String.le, String.ltb, String.leb.
  by destruct (String.compare a b).
Qed.

Lemma ltb_ge a b : String.ltb a b = false → String.le b a.
Proof.
  unfold String.le, String.ltb, String.leb.
  rewrite (String.compare_antisym a b).
  by destruct (String.compare b a).
Qed.

Lemma sort_Strings_Sorted l : Sorted String.le (sort_Strings l).
Proof. apply Sorted_merge_sort, _. Qed.

Lemma sort_Strings_Permutation l : sort_Strings l ≡ₚ l.
Proof. apply merge_sort_Permutation. Qed.

(** The sorted arrangement of a list is unique. *)
Lemma sort_Strings_unique l l' :
  Sorted String.le l → l ≡ₚ l' → sort_Strings l' = l.
Proof.
  intros Hs Hp. apply (Sorted_unique String.le).
  - apply sort_Strings_Sorted.
  - done.
  - by rewrite sort_Strings_Permutation.
Qed.

Lemma sort_Strings_sorted l : Sorted String.le l → sort_Strings l = l.
Proof. intros. by apply sort_Strings_unique. Qed.

Lemma sort_Strings_perm l l' : l ≡ₚ l' → sort_Strings l = sort_Strings l'.
Proof.
  intros Hp. symmetry. apply sort_Strings_unique.
  - apply sort_Strings_Sorted.
  - by rewrite sort_Strings_Permutation.
Qed.

Lemma sort_Strings_nil : sort_Strings [] = [].
Proof. done. Qed.

Lemma sort_Strings_is_line l : Forall is_line l → Forall is_line (sort_Strings l).
Proof. intros. by rewrite sort_Strings_Permutation. Qed.

Lemma Sorted_le_cons a l :
  Sorted String.le l → Forall (String.le a) l → Sorted String.le (a :: l).
Proof.
  intros Hs Ha. constructor; [done|].
  destruct Hs; constructor. by apply Forall_cons in Ha as [? _].
Qed.

Lemma Sorted_le_head a l x :
  Sorted String.le (a :: l) → x ∈ a :: l → String.le a x.
Proof.
  intros Hs%(Sorted_StronglySorted _) [->|Hx]%elem_of_cons; [done|].
  apply StronglySorted_inv in Hs as [_ Hall].
  by eapply Forall_forall in Hall.
Qed.
End Order.

(** * The source set *)

Section SourceSet.
Implicit Types (ss : sourceSet) (m s : source) (p q : nat).

Lemma entries_empty : entries ∅ = [].
Proof. unfold entries. by rewrite map_to_list_empty. Qed.

Lemma entries_delete ss p m :
  ss !! p = Some m → entries ss ≡ₚ m :: entries (delete p ss).
Proof.
  intros Hp. unfold entries.
  by rewrite <-(map_to_list_delete ss p m Hp).
Qed.

Lemma entries_insert ss p m' :
  entries (<[p := m']> ss) ≡ₚ m' :: entries (delete p ss).
Proof.
  unfold entries. rewrite <-insert_delete_eq.
  by rewrite map_to_list_insert by apply lookup_delete_eq.
Qed.

Lemma entries_insert_fresh ss p m' :
  ss !! p = None → entries (<[p := m']> ss) ≡ₚ m' :: entries ss.
Proof. intros. unfold entries. by rewrite map_to_list_insert. Qed.

Lemma elem_of_entries ss s : s ∈ entries ss ↔ ∃ p, ss !! p = Some s.
Proof.
  unfold entries. rewrite list_elem_of_fmap. split.
  - intros ([p s'] & -> & Hin%elem_of_map_to_list). by exists p.
  - intros [p Hp]. exists (p, s). by rewrite elem_of_map_to_list.
Qed.

Lemma entries_nil ss : entries ss = [] ↔ ss = ∅.
Proof.
  unfold entries. rewrite <-map_to_list_empty_iff.
  destruct (map_to_list ss); naive_solver.
Qed.

Lemma all_lines_empty : all_lines ∅ = [].
Proof. unfold all_lines. by rewrite entries_empty. Qed.

Lemma all_lines_delete ss p m :
  ss !! p = Some m → all_lines ss ≡ₚ src_lines m ++ all_lines (delete p ss).
Proof. intros Hp. unfold all_lines. by rewrite (entries_delete _ _ _ Hp). Qed.

Lemma all_lines_insert ss p m' :
  all_lines (<[p := m']> ss) ≡ₚ src_lines m' ++ all_lines (delete p ss).
Proof. unfold all_lines. by rewrite entries_insert. Qed.

Lemma elem_of_all_lines ss x :
  x ∈ all_lines ss ↔ ∃ p s, ss !! p = Some s ∧ x ∈ src_lines s.
Proof.
  unfold all_lines. rewrite list_elem_of_bind. split.
  - intros (s & Hx & [p Hp]%elem_of_entries). eauto.
  - intros (p & s & Hp & Hx). exists s. split; [done|].
    apply elem_of_entries. eauto.
Qed.

Lemma set_size_delete ss p m :
  ss !! p = Some m → set_size ss = src_size m + set_size (delete p ss).
Proof. intros Hp. unfold set_size. by rewrite (entries_delete _ _ _ Hp). Qed.

Lemma set_size_insert ss p m' :
  set_size (<[p := m']> ss) = src_size m' + set_size (delete p ss).
Proof. unfold set_size. by rewrite entries_insert. Qed.

Lemma set_size_empty : set_size ∅ = 0.
Proof. unfold set_size. by rewrite entries_empty. Qed.

(** ** The scan of [popMin] *)

Lemma scan_min_spec (m0 : nat * source) (l : list (nat * source)) :
  scan_min m0 l ∈ m0 :: l ∧
  ∀ x, x ∈ m0 :: l → String.le (top (scan_min m0 l).2) (top x.2).
Proof.
  revert m0. induction l as [|s l IH]; intros m0; simpl.
  - split; [apply list_elem_of_here|].
    by intros x ->%list_elem_of_singleton.
  - destruct (String.ltb (top s.2) (top m0.2)) eqn:Hlt.
    + destruct (IH s) as [Hin Hmin]. split; [by apply list_elem_of_further|].
      intros x [->|Hx]%elem_of_cons; [|by apply Hmin].
      etrans; [apply Hmin, list_elem_of_here|]. by apply ltb_le.
    + destruct (IH m0) as [Hin Hmin]. split.
      { apply elem_of_cons in Hin as [->|Hin]; [apply list_elem_of_here|].
        by do 2 apply list_elem_of_further. }
      intros x [->|[->|Hx]%elem_of_cons]%elem_of_cons.
      * apply Hmin, list_elem_of_here.
      * etrans; [apply Hmin, list_elem_of_here|]. by apply ltb_ge.
      * by apply Hmin, list_elem_of_further.
Qed.

(** One call of [popMin] on a non-empty set, whatever the order of the
    [range] statement: a source [m] with a least top line is taken, its top
    line is the result, and only [m] is advanced. *)
Lemma popMin_step (o : iteration_order) ss :
  fair_order o → ss ≠ ∅ →
  ∃ p m,
    ss !! p = Some m ∧
    (∀ q s, ss !! q = Some s → String.le (top m) (top s)) ∧
    popMin o ss =
      Done (match pop m with
            | (m', None) => (top m, None, <[p := m']> ss)
            | (m', Some e) =>
                if is_EOF e then (top m, None, delete p ss)
                else (top m, Some e, <[p := m']> ss)
            end).
Proof.
  intros Ho Hne. unfold popMin.
  destruct (o (map_to_list ss)) as [|s0 l] eqn:Hl.
  { exfalso. apply Hne, map_to_list_empty_iff, Permutation_nil_r.
    by rewrite <-(Ho (map_to_list ss)), Hl. }
  destruct (scan_min_spec s0 l) as [Hin Hmin].
  set (m := scan_min s0 l) in *. exists m.1, m.2. split_and!.
  - apply elem_of_map_to_list. rewrite <-surjective_pairing.
    by rewrite <-(Ho (map_to_list ss)), Hl.
  - intros q s Hq. apply (Hmin (q, s)).
    rewrite <-Hl, (Ho (map_to_list ss)). by apply elem_of_map_to_list.
  - destruct (pop m.2) as [m' [e|]]; [|done]. by destruct (is_EOF e).
Qed.

(** ** Advancing a source *)

Lemma pop_Some s l rest :
  cut_line (pending (r s)) = Some (l, rest) →
  pop s = (mkSource l (mkReader rest (at_end (r s))), None).
Proof. intros Hc. unfold pop, ReadString. by rewrite Hc. Qed.

Lemma pop_None s :
  cut_line (pending (r s)) = None →
  pop s = (mkSource (pending (r s)) (mkReader EmptyString (at_end (r s))),
           Some (at_end (r s))).
Proof. intros Hc. unfold pop, ReadString. by rewrite Hc. Qed.

Lemma full_lines_cut (x : string) l rest :
  cut_line x = Some (l, rest) → full_lines x = l :: full_lines rest.
Proof. intros (_ & _ & Hp)%cut_line_Some. unfold full_lines at 1. by rewrite Hp. Qed.

Lemma full_lines_cut_None (x : string) : cut_line x = None → full_lines x = [].
Proof. intros [_ Hp]%cut_line_None. unfold full_lines. by rewrite Hp. Qed.

Lemma length_full_lines (x : string) : length (full_lines x) ≤ String.length x.
Proof.
  pose proof (length_lines_of x) as Hl. unfold lines_of in Hl.
  rewrite length_app in Hl. lia.
Qed.
End SourceSet.

(** * mergeSimple *)

Section MergeSimple.
Context {W : Type} `{!stringWriter W}.
Implicit Types (ss : sourceSet) (m s : source) (p q : nat) (w : W).

Lemma set_size_pos ss : ss ≠ ∅ → 0 < set_size ss.
Proof.
  intros Hne. destruct (entries ss) as [|s l] eqn:He.
  - by apply entries_nil in He.
  - unfold set_size. rewrite He. simpl. unfold src_size. lia.
Qed.

Lemma size_pos_nonempty ss : 0 < size ss ↔ ss ≠ ∅.
Proof. rewrite <-map_size_non_empty_iff. lia. Qed.

(** A step of the merge never panics and, unless the read fails, leaves a
    smaller set. *)
Lemma popMin_total (o : iteration_order) ss :
  fair_order o → ss ≠ ∅ →
  ∃ x err ss',
    popMin o ss = Done (x, err, ss') ∧
    (err = None → set_size ss' < set_size ss).
Proof.
  intros Ho Hne. destruct (popMin_step o ss Ho Hne) as (p & m & Hp & _ & ->).
  rewrite (set_size_delete _ _ _ Hp).
  destruct (cut_line (pending (r m))) as [[l rest]|] eqn:Hc.
  - rewrite (pop_Some _ _ _ Hc). eexists _, _, _. split; [done|]. intros _.
    rewrite set_size_insert. unfold src_size. simpl.
    apply cut_line_length in Hc. lia.
  - rewrite (pop_None _ Hc). destruct (is_EOF (at_end (r m))).
    + eexists _, _, _. split; [done|]. intros _. unfold src_size. lia.
    + eexists _, _, _. split; [done|]. done.
Qed.

(** A step of the merge over sorted sources: the line taken is a least one
    of all the lines still to come, and the other lines stay. *)
Lemma popMin_sorted (o : iteration_order) ss :
  fair_order o → ss ≠ ∅ → sorted_set ss →
  ∃ x ss',
    popMin o ss = Done (x, None, ss') ∧
    sorted_set ss' ∧
    all_lines ss ≡ₚ x :: all_lines ss' ∧
    Forall (String.le x) (all_lines ss) ∧
    set_size ss' < set_size ss.
Proof.
  intros Ho Hne Hsorted.
  destruct (popMin_step o ss Ho Hne) as (p & m & Hp & Hmin & ->).
  destruct (Hsorted _ _ Hp) as [Hend Hm].
  assert (Forall (String.le (top m)) (all_lines ss)) as Hle.
  { apply Forall_forall. intros x (q & s & Hq & Hx)%elem_of_all_lines.
    etrans; [by eapply Hmin|].
    destruct (Hsorted _ _ Hq) as [_ Hs]. by eapply Sorted_le_head. }
  rewrite (set_size_delete _ _ _ Hp).
  destruct (cut_line (pending (r m))) as [[l rest]|] eqn:Hc.
  - rewrite (pop_Some _ _ _ Hc). eexists _, _. split_and!; [done|..|done|].
    + intros q s. rewrite lookup_insert. case_decide as Hq; [|by apply Hsorted].
      intros [= <-]. split; [done|]. unfold src_lines in *. simpl.
      rewrite (full_lines_cut _ _ _ Hc) in Hm. by apply Sorted_inv in Hm as [? _].
    + rewrite (all_lines_delete _ _ _ Hp), all_lines_insert.
      unfold src_lines. simpl. by rewrite (full_lines_cut _ _ _ Hc).
    + rewrite set_size_insert. unfold src_size. simpl.
      apply cut_line_length in Hc. lia.
  - rewrite (pop_None _ Hc), Hend. simpl. eexists _, _.
    split_and!; [done|..|done|].
    + intros q s [_ Hq]%lookup_delete_Some. by eapply Hsorted.
    + rewrite (all_lines_delete _ _ _ Hp). unfold src_lines.
      by rewrite (full_lines_cut_None _ Hc).
    + unfold src_size. lia.
Qed.

Section Loop.
Variable orders : nat → iteration_order.
Hypothesis orders_fair : fair_orders orders.

(** The loop ends: with enough budget it returns. *)
Lemma mergeSimple_loop_total fuel k ss w err :
  set_size ss ≤ fuel →
  ∃ w' err', mergeSimple_loop orders fuel k ss w err = Done (w', err').
Proof.
  revert k ss w err. induction fuel as [|fuel IH]; intros k ss w err Hfuel.
  - simpl. case_bool_decide as Hsize; simpl; [|by eauto].
    apply size_pos_nonempty, set_size_pos in Hsize. lia.
  - simpl. case_bool_decide as Hsize; simpl; [|by eauto].
    case_bool_decide as Herr; simpl; [|by eauto].
    apply size_pos_nonempty in Hsize.
    destruct (popMin_total (orders k) ss (orders_fair k) Hsize)
      as (x & err1 & ss' & -> & Hlt).
    destruct err1 as [e|]; [by eauto|].
    destruct (WriteString x w) as [w' err']. apply IH.
    specialize (Hlt eq_refl). lia.
Qed.

(** Over sorted sources the loop writes all their lines in ascending
    order, up to the first failed write. *)
Lemma mergeSimple_loop_sorted fuel k ss w :
  sorted_set ss → set_size ss ≤ fuel →
  mergeSimple_loop orders fuel k ss w None =
    Done (write_lines (sort_Strings (all_lines ss)) w).
Proof.
  revert k ss w. induction fuel as [|fuel IH]; intros k ss w Hsorted Hfuel.
  - simpl. case_bool_decide as Hsize; simpl.
    { apply size_pos_nonempty, set_size_pos in Hsize. lia. }
    assert (ss = ∅) as -> by (apply map_size_empty_iff; lia).
    by rewrite all_lines_empty.
  - simpl. case_bool_decide as Hsize; simpl.
    2:{ assert (ss = ∅) as -> by (apply map_size_empty_iff; lia).
        by rewrite all_lines_empty. }
    apply size_pos_nonempty in Hsize.
    destruct (popMin_sorted (orders k) ss (orders_fair k) Hsize Hsorted)
      as (x & ss' & -> & Hsorted' & Hperm & Hle & Hlt).
    assert (sort_Strings (all_lines ss) = x :: sort_Strings (all_lines ss'))
      as ->.
    { apply sort_Strings_unique; [|by rewrite Hperm, sort_Strings_Permutation].
      apply Sorted_le_cons; [apply sort_Strings_Sorted|].
      rewrite sort_Strings_Permutation. rewrite Hperm in Hle.
      by apply Forall_cons in Hle as [_ ?]. }
    simpl. destruct (WriteString x w) as [w' [e|]].
    + destruct fuel; simpl; by rewrite andb_false_r.
    + apply IH; [done|lia].
Qed.
End Loop.

(** ** newSourceSet *)

Lemma newSourceSet_loop_size rs p ss0 ss :
  (∀ q, p ≤ q → ss0 !! q = None) →
  newSourceSet_loop rs p ss0 = (ss, None) →
  set_size ss ≤ set_size ss0 + sum_list_with reader_size rs.
Proof.
  revert p ss0. induction rs as [|rd rs IH]; intros p ss0 Hfresh; simpl.
  { intros [= ->]. lia. }
  destruct (cut_line (pending rd)) as [[l rest]|] eqn:Hc.
  - rewrite (pop_Some (mkSource EmptyString rd) _ _ Hc). intros Hloop.
    apply IH in Hloop.
    + rewrite set_size_insert, delete_id in Hloop by (apply Hfresh; lia).
      unfold src_size, reader_size in *. simpl in Hloop.
      apply cut_line_length in Hc. lia.
    + intros q Hq. rewrite lookup_insert_ne by lia. apply Hfresh. lia.
  - rewrite (pop_None (mkSource EmptyString rd) Hc). simpl.
    destruct (is_EOF (at_end rd)); [|done]. intros Hloop.
    apply IH in Hloop; [lia|]. intros q Hq. apply Hfresh. lia.
Qed.

Lemma newSourceSet_loop_sorted rs p ss0 :
  (∀ q, p ≤ q → ss0 !! q = None) →
  sorted_set ss0 → Forall sorted_reader rs →
  ∃ ss, newSourceSet_loop rs p ss0 = (ss, None) ∧ sorted_set ss ∧
        all_lines ss ≡ₚ all_lines ss0 ++ (rs ≫= full_lines ∘ pending).
Proof.
  intros Hfresh Hss0 Hrs. revert p ss0 Hfresh Hss0.
  induction Hrs as [|rd rs [Hend Hrd] _ IH]; intros p ss0 Hfresh Hss0; simpl.
  { exists ss0. by rewrite app_nil_r. }
  destruct (cut_line (pending rd)) as [[l rest]|] eqn:Hc.
  - rewrite (pop_Some (mkSource EmptyString rd) _ _ Hc). simpl.
    edestruct (IH (S p)) as (ss & -> & Hsorted & Hperm); [| |exists ss].
    + intros q Hq. rewrite lookup_insert_ne by lia. apply Hfresh. lia.
    + intros q s. rewrite lookup_insert. case_decide; [|by apply Hss0].
      intros [= <-]. split; [done|].
      by rewrite (full_lines_cut _ _ _ Hc) in Hrd.
    + split_and!; [done..|]. rewrite Hperm, all_lines_insert.
      rewrite delete_id by (apply Hfresh; lia).
      rewrite (full_lines_cut _ _ _ Hc).
      change (src_lines _) with (l :: full_lines rest).
      rewrite (assoc (++)).
      apply Permutation_app; [apply Permutation_app_comm|done].
  - rewrite (pop_None (mkSource EmptyString rd) Hc). simpl. rewrite Hend. simpl.
    edestruct (IH (S p) ss0) as (ss & -> & Hsorted & Hperm); [..|exists ss].
    + intros q Hq. apply Hfresh. lia.
    + done.
    + split_and!; [done..|]. by rewrite Hperm, (full_lines_cut_None _ Hc).
Qed.

Lemma merge_budget_size (rs : list Reader) :
  sum_list_with reader_size rs < merge_budget rs.
Proof.
  unfold merge_budget. lia.
Qed.

(** [mergeSimple] returns, whatever the readers hold. *)
Lemma mergeSimple_total orders rs w :
  fair_orders orders → ∃ w' err, mergeSimple orders rs w = Done (w', err).
Proof.
  intros Ho. unfold mergeSimple.
  destruct (newSourceSet rs) as [ss [e|]] eqn:Hss; [by eauto|].
  apply mergeSimple_loop_total; [done|].
  apply newSourceSet_loop_size in Hss; [|done].
  rewrite set_size_empty in Hss. pose proof (merge_budget_size rs). lia.
Qed.

(** Over sorted streams [mergeSimple] writes all their lines in ascending
    order, whatever the order in which the map is visited. *)
Lemma mergeSimple_sorted orders rs w :
  fair_orders orders → Forall sorted_reader rs →
  mergeSimple orders rs w =
    Done (write_lines (sort_Strings (rs ≫= full_lines ∘ pending)) w).
Proof.
  intros Ho Hrs. unfold mergeSimple, newSourceSet.
  destruct (newSourceSet_loop_sorted rs 0 ∅) as (ss & Hss & Hsorted & Hperm);
    [done|done|done|].
  rewrite Hss. rewrite all_lines_empty in Hperm. simpl in Hperm.
  rewrite mergeSimple_loop_sorted; [|done..|].
  - by rewrite (sort_Strings_perm _ _ Hperm).
  - apply newSourceSet_loop_size in Hss; [|done].
    rewrite set_size_empty in Hss. pose proof (merge_budget_size rs). lia.
Qed.
End MergeSimple.

(** * Temporary names *)

Lemma tempname_chunk_nonempty k : tempname chunk_prefix k ≠ EmptyString.
Proof. done. Qed.

Lemma tempname_merge_nonempty k : tempname merge_prefix k ≠ EmptyString.
Proof. done. Qed.

Lemma tempname_inj prefix k1 k2 :
  tempname prefix k1 = tempname prefix k2 → k1 = k2.
Proof. unfold tempname. intros Heq%(inj _). by apply (inj pretty). Qed.

Lemma tempname_chunk_merge k1 k2 :
  tempname chunk_prefix k1 ≠ tempname merge_prefix k2.
Proof. done. Qed.

(** * Writing *)

Lemma write_lines_app {W} `{!stringWriter W} (l1 l2 : list string) (w : W) :
  write_lines (l1 ++ l2) w =
    match write_lines l1 w with
    | (w', Some e) => (w', Some e)
    | (w', None) => write_lines l2 w'
    end.
Proof.
  revert w. induction l1 as [|l l1 IH]; intros w; simpl; [done|].
  destruct (WriteString l w) as [w' [e|]]; [done|]. apply IH.
Qed.

Lemma write_lines_Buffer (ls : list string) (b : Buffer) :
  write_lines ls b = (b +:+ join ls, None).
Proof.
  revert b. induction ls as [|l ls IH]; intros b; simpl.
  - by rewrite append_nil_r.
  - unfold WriteString, Buffer_stringWriter. by rewrite IH, append_assoc.
Qed.

Lemma write_lines_Writer (ls : list string) name b :
  write_lines ls (mkWriter name b None None) =
    (mkWriter name (b +:+ join ls) None None, None).
Proof.
  revert b. induction ls as [|l ls IH]; intros b; simpl.
  - by rewrite append_nil_r.
  - unfold WriteString, Writer_stringWriter. simpl. by rewrite IH, append_assoc.
Qed.

Lemma write_lines_wfile (ls : list string) (buf : Writer) :
  wfile (write_lines ls buf).1 = wfile buf.
Proof.
  revert buf. induction ls as [|l ls IH]; intros buf; simpl; [done|].
  destruct (WriteString l buf) as [buf' [e|]] eqn:Hw.
  - unfold WriteString, Writer_stringWriter in Hw.
    destruct (werr buf); [by simplify_eq|]. by case_match; simplify_eq.
  - rewrite IH. unfold WriteString, Writer_stringWriter in Hw.
    destruct (werr buf); [by simplify_eq|]. by case_match; simplify_eq.
Qed.

(** * writeChunk and split *)

Section Split.
Implicit Types (w : world) (cn names : list string) (err : option error).

Lemma writeChunk_no_faults lines w :
  writeChunk no_faults lines w =
    (add_file (tempname chunk_prefix (next w)) (join lines) w,
     (tempname chunk_prefix (next w), None)).
Proof.
  unfold writeChunk, TempFile, NewWriter. simpl.
  rewrite write_lines_Writer. unfold Flush, set_fs, add_file. simpl.
  by rewrite insert_insert_eq.
Qed.

(** [writeChunk] returns a name unless the file could not be created, and
    never reports [EOF]. *)
Lemma writeChunk_result F lines w w' name err :
  writeChunk F lines w = (w', (name, err)) →
  err ≠ Some EOF ∧ (name = EmptyString → err ≠ None).
Proof.
  unfold writeChunk, TempFile.
  destruct (create_fails F (next w)); [by intros [= <- <- <-]|].
  destruct (write_lines lines _) as [buf [e|]] eqn:Hw.
  - intros [= <- <- <-]. split; [|done]. intros [= ->].
    assert (∀ ls (b : Writer), werr b ≠ Some EOF →
              (write_lines ls b).2 ≠ Some EOF) as Hno.
    { clear. induction ls as [|l ls IH]; intros b Hb; simpl; [done|].
      unfold WriteString at 1, Writer_stringWriter.
      destruct (werr b) as [e|] eqn:He; [simpl; congruence|].
      destruct (over_cap _ _); simpl; [done|]. by apply IH. }
    eapply (Hno lines (NewWriter F _)); [done|]. by rewrite Hw.
  - unfold Flush. destruct (werr buf) as [e|] eqn:He.
    + intros [= <- <- <-]. split; [|done]. intros [= ->].
      assert (∀ ls (b : Writer), werr b ≠ Some EOF →
                werr (write_lines ls b).1 ≠ Some EOF) as Hno.
      { clear. induction ls as [|l ls IH]; intros b Hb; simpl; [done|].
        unfold WriteString at 1, Writer_stringWriter.
        destruct (werr b) as [e|] eqn:He; [simpl; congruence|].
        destruct (over_cap _ _); simpl; [done|]. by apply IH. }
      eapply (Hno lines (NewWriter F _)); [done|]. by rewrite Hw.
    + destruct (flush_fails F (wfile buf)); intros [= <- <- <-]; done.
Qed.

(** Whenever [split] returns without error it returns some chunk. *)
Lemma split_loop_nonempty F fuel limit in_ cn err w w' names :
  cn ≠ [] ∨ err ≠ Some EOF →
  split_loop F fuel limit in_ cn err w = (w', Done (names, None)) →
  names ≠ [].
Proof.
  revert in_ cn err w. induction fuel as [|fuel IH]; intros in_ cn err w Hinv.
  - simpl. destruct err as [e|]; [|done]. unfold ret, split_return.
    intros [= <- <- He]. destruct Hinv as [?|Hne]; [done|].
    destruct e; done.
  - simpl. destruct err as [e|].
    { unfold ret, split_return. intros [= <- <- He].
      destruct Hinv as [?|Hne]; [done|]. destruct e; done. }
    unfold bind at 1, lift at 1.
    destruct (readLines in_ limit) as [[[lines err1] in']| |]; [|done..].
    case_match.
    { unfold ret, split_return. intros [= <- <- He].
      apply andb_prop in H as [H1%bool_decide_eq_true H2%bool_decide_eq_true].
      destruct err1 as [[]|]; done. }
    case_match.
    { unfold ret, split_return. intros [= <- <- He].
      apply andb_prop in H0 as [_ H2%bool_decide_eq_true].
      intros ->. unfold len in H2. simpl in H2. lia. }
    unfold bind, call.
    destruct (writeChunk F (sort_Strings lines) w) as [w1 [name err2]] eqn:Hwc.
    apply writeChunk_result in Hwc as [Hno Hname].
    intros Hloop. eapply IH; [|exact Hloop].
    case_bool_decide as Hn; [left|right; done]. by destruct cn.
Qed.

Lemma no_read_error (P : Prop) `{!Decision P} :
  let e := if decide P then None else Some EOF in
  bool_decide (e ≠ None) && bool_decide (e ≠ Some EOF) = false.
Proof.
  simpl. case_decide.
  - rewrite (bool_decide_false (None ≠ None)); naive_solver.
  - rewrite (bool_decide_false (Some EOF ≠ Some EOF)) by naive_solver.
    apply andb_false_r.
Qed.

Lemma write_chunks_app groups1 groups2 w :
  write_chunks (groups1 ++ groups2) w =
    let '(w1, names1) := write_chunks groups1 w in
    let '(w2, names2) := write_chunks groups2 w1 in
    (w2, names1 ++ names2).
Proof.
  revert w. induction groups1 as [|g groups1 IH]; intros w; simpl.
  - by destruct (write_chunks groups2 w).
  - rewrite IH. destruct (write_chunks groups1 _) as [w1 names1].
    by destruct (write_chunks groups2 w1).
Qed.

(** The loop of [split] on a stream without faults: the lines still unread
    are cut into groups of [limit] lines, and each group is sorted and
    stored.  An input without lines gives one empty chunk when no chunk
    exists yet, and nothing otherwise. *)
Lemma split_loop_spec fuel (limit : Z) (s : string) cn w :
  (1 ≤ limit ≤ max_cap)%Z →
  length (lines_of s) + (if cn is [] then 2 else 1) ≤ fuel →
  split_loop no_faults fuel limit (rd s) cn None w =
    let groups :=
      if cn is [] then split_groups (Z.to_nat limit) (lines_of s)
      else chunks (Z.to_nat limit) (lines_of s) in
    let '(w', names) := write_chunks groups w in
    (w', Done (cn ++ names, None)).
Proof.
  intros Hlimit. revert s cn w.
  induction fuel as [|fuel IH]; intros s cn w Hfuel.
  { destruct cn; lia. }
  cbn [split_loop]. unfold bind at 1, lift at 1.
  rewrite readLines_in_range by lia.
  rewrite readLines_rd. set (n := Z.to_nat limit).
  assert (1 ≤ n) as Hn by lia.
  rewrite no_read_error.
  destruct (lines_of s) as [|l L] eqn:HL.
  - (* no line is left *)
    rewrite take_nil. simpl. destruct cn as [|c cn]; simpl.
    + unfold bind, call. rewrite writeChunk_no_faults.
      rewrite bool_decide_true by done. rewrite IH.
      2:{ rewrite lines_of_rest_after, HL, drop_nil. simpl. lia. }
      by rewrite lines_of_rest_after, HL, drop_nil.
    + unfold ret, split_return. rewrite app_nil_r. by case_decide.
  - (* a group of lines is read and stored *)
    assert (take n (l :: L) ≠ []) as Htake by (destruct n; [lia|done]).
    rewrite andb_false_intro1.
    2:{ apply bool_decide_eq_false. unfold len.
        destruct (take n (l :: L)); [done|]. simpl. lia. }
    unfold bind, call. rewrite writeChunk_no_faults.
    rewrite bool_decide_true by done.
    assert (length (lines_of (rest_after n s)) < length (l :: L)) as Hlen.
    { rewrite lines_of_rest_after, HL, length_drop. simpl. lia. }
    rewrite IH.
    2:{ destruct cn; simpl in *; lia. }
    rewrite lines_of_rest_after, HL.
    assert ((if cn is [] then split_groups n (l :: L) else chunks n (l :: L))
            = take n (l :: L) :: chunks n (drop n (l :: L))) as ->.
    { unfold split_groups. rewrite chunks_cons by done. by destruct cn. }
    destruct (cn ++ [tempname chunk_prefix (next w)]) as [|c0 cn0] eqn:Hcn;
      [by destruct cn|].
    rewrite <-Hcn. cbn [write_chunks].
    destruct (write_chunks _ _) as [w' names].
    by rewrite <-app_assoc.
Qed.
End Split.

(** * Files *)

Section Files.
Variable F : faults.
Implicit Types (w : world) (names : list string) (files : list Reader).

Lemma deleteFiles_fs names w k :
  fs (deleteFiles names w) !! k =
    if decide (k ∈ names) then None else fs w !! k.
Proof.
  revert w. induction names as [|n names IH]; intros w; cbn [deleteFiles].
  - case_decide as Hin; [by apply elem_of_nil in Hin|done].
  - rewrite IH. unfold deleteFile, set_fs. simpl.
    destruct (decide (k ∈ names)) as [Hin|Hin].
    + by rewrite decide_True by (by right).
    + destruct (decide (k = n)) as [->|Hne].
      * rewrite lookup_delete_eq. by rewrite decide_True by left.
      * rewrite lookup_delete_ne by done.
        rewrite decide_False; [done|]. by intros [?|?]%elem_of_cons.
Qed.

Lemma deleteFiles_ghost names w :
  next (deleteFiles names w) = next w ∧
  nopen (deleteFiles names w) = nopen w ∧
  peak (deleteFiles names w) = peak w ∧
  merges (deleteFiles names w) = merges w.
Proof.
  revert w. induction names as [|n names IH]; intros w; simpl; [done|].
  destruct (IH (deleteFile n w)) as (-> & -> & -> & ->). done.
Qed.

Lemma close_all_spec files w :
  fs (close_all files w) = fs w ∧
  next (close_all files w) = next w ∧
  nopen (close_all files w) = nopen w - length files ∧
  peak (close_all files w) = peak w ∧
  merges (close_all files w) = merges w.
Proof.
  unfold close_all. induction (length files) as [|n IH]; simpl.
  - split_and!; [done..|lia|done|done].
  - destruct IH as (-> & -> & -> & -> & ->). split_and!; [done..|lia|done|done].
Qed.

(** The loop that opens the inputs changes no file, and raises the number
    of open files by the number of files it opened. *)
Lemma open_all_spec names files w w' files' err :
  open_all F names files w = (w', (files', err)) →
  fs w' = fs w ∧ next w' = next w ∧ merges w' = merges w ∧
  ∃ opened,
    files' = files ++ opened ∧ length opened ≤ length names ∧
    nopen w' = nopen w + length opened ∧
    peak w ≤ peak w' ∧ peak w' ≤ Nat.max (peak w) (nopen w + length opened).
Proof.
  revert files w. induction names as [|n names IH]; intros files w; simpl.
  { intros [= <- <- <-]. split_and!; [done..|]. exists [].
    rewrite app_nil_r. simpl. split_and!; [done|done|lia|lia|lia]. }
  unfold Open. destruct (fs w !! n) as [c|] eqn:Hn.
  2:{ intros [= <- <- <-]. split_and!; [done..|]. exists [].
      rewrite app_nil_r. simpl. split_and!; [done|lia|lia|lia|lia]. }
  destruct (open_fails F n).
  { intros [= <- <- <-]. split_and!; [done..|]. exists [].
    rewrite app_nil_r. simpl. split_and!; [done|lia|lia|lia|lia]. }
  intros (Hfs & Hnext & Hmerges & opened & -> & Hlen & Hnopen & Hp1 & Hp2)%IH.
  simpl in *. split_and!; [done..|].
  exists (file_reader F n c :: opened). rewrite <-app_assoc. simpl.
  split_and!; [done|lia|lia|lia|lia].
Qed.

Lemma file_reader_no_faults name c : file_reader no_faults name c = rd c.
Proof. done. Qed.
End Files.

Lemma open_all_no_faults names cs files w :
  Forall2 (λ n c, fs w !! n = Some c) names cs →
  ∃ w', open_all no_faults names files w = (w', (files ++ (rd <$> cs), None)) ∧
        fs w' = fs w ∧ next w' = next w ∧ merges w' = merges w ∧
        nopen w' = nopen w + length names.
Proof.
  intros Hall. revert cs files w Hall.
  induction names as [|n names IH]; intros cs files w Hall.
  - apply Forall2_nil_inv_l in Hall as ->. exists w. simpl.
    rewrite app_nil_r. split_and!; [done..|lia].
  - apply Forall2_cons_inv_l in Hall as (c & cs' & Hc & Hall & ->).
    simpl. unfold Open. rewrite Hc. simpl.
    edestruct (IH cs' (files ++ [file_reader no_faults n c]))
      as (w' & -> & Hfs & Hnext & Hm & Hn).
    { simpl. exact Hall. }
    exists w'. simpl in *. rewrite <-app_assoc. split_and!; [done..|lia].
Qed.

(** * mergeSimpleFiles *)

(** A property of the writer that every write keeps holds of the writer
    [mergeSimple] returns. *)
Lemma mergeSimple_loop_writer {W} `{!stringWriter W} (P : W → Prop)
    orders fuel k ss (w w' : W) err err' :
  (∀ s w, P w → P (WriteString s w).1) → P w →
  mergeSimple_loop orders fuel k ss w err = Done (w', err') → P w'.
Proof.
  intros HP. revert k ss w err. induction fuel as [|fuel IH]; intros k ss w err Hw.
  - simpl. case_match; [done|]. by intros [= <- <-].
  - simpl. case_match; [|by intros [= <- <-]].
    destruct (popMin (orders k) ss) as [[[x [e|]] ss']| |]; [|..|done|done].
    + by intros [= <- <-].
    + pose proof (HP x w Hw) as Hw'.
      destruct (WriteString x w) as [w1 err1]. by apply IH.
Qed.

Lemma mergeSimple_writer {W} `{!stringWriter W} (P : W → Prop)
    orders rs (w w' : W) err' :
  (∀ s w, P w → P (WriteString s w).1) → P w →
  mergeSimple orders rs w = Done (w', err') → P w'.
Proof.
  intros HP Hw. unfold mergeSimple.
  destruct (newSourceSet rs) as [ss [e|]]; [by intros [= <- <-]|].
  by apply mergeSimple_loop_writer.
Qed.

Lemma WriteString_wfile (s : string) (buf : Writer) :
  wfile (WriteString s buf).1 = wfile buf.
Proof.
  unfold WriteString, Writer_stringWriter.
  destruct (werr buf); [done|]. by destruct (over_cap _ _).
Qed.

Section MergeFiles.
Variable F : faults.
Variable sched : nat → nat → iteration_order.
Hypothesis sched_fair : fair_sched sched.
Implicit Types (w : world) (names : list string).

(** Whatever fails, [mergeSimpleFiles] returns, its inputs are gone, no
    other file has changed, and the output file exists exactly when no error
    is returned. *)
Lemma mergeSimpleFiles_general names w :
  ∃ w' out err,
    mergeSimpleFiles F sched names w = (w', Done (out, err)) ∧
    (∀ n, n ∈ names → fs w' !! n = None) ∧
    (∀ k, k ∉ names → k ≠ tempname merge_prefix (next w) →
          fs w' !! k = fs w !! k) ∧
    (if create_fails F (next w)
     then out = EmptyString ∧ err = Some ErrCreate
     else out = tempname merge_prefix (next w) ∧
          (err ≠ None → fs w' !! out = None) ∧
          (err = None → out ∉ names → is_Some (fs w' !! out))) ∧
    next w' = S (next w) ∧ nopen w' = nopen w ∧
    peak w ≤ peak w' ∧ peak w' ≤ Nat.max (peak w) (nopen w + length names) ∧
    merges w' = merges w ++ [names].
Proof.
  unfold mergeSimpleFiles, TempFile. simpl.
  destruct (create_fails F (next w)) eqn:Hcreate.
  { eexists _, _, _. split; [reflexivity|].
    destruct (deleteFiles_ghost names
      (mkWorld (fs w) (S (next w)) (nopen w) (peak w) (merges w ++ [names])))
      as (-> & -> & -> & ->). simpl.
    split_and!; try done; try lia.
    - intros n Hn. rewrite deleteFiles_fs. by rewrite decide_True.
    - intros k Hk _. rewrite deleteFiles_fs. by rewrite decide_False. }
  set (out := tempname merge_prefix (next w)).
  set (w1 := mkWorld _ _ _ _ _).
  destruct (open_all F names [] w1) as [w2 [files oerr]] eqn:Hopen.
  apply open_all_spec in Hopen
    as (Hfs2 & Hnext2 & Hmerges2 & opened & Hfiles & Hlen & Hnopen2 & Hp1 & Hp2).
  simpl in Hfiles, Hnopen2, Hp1, Hp2. subst files.
  assert (∃ out' merr,
    match oerr with
    | Some e => Done (NewWriter F out, Some e)
    | None => mergeSimple (sched (next w)) opened (NewWriter F out)
    end = Done (out', merr) ∧ wfile out' = out) as (out' & merr & -> & Hwfile).
  { destruct oerr as [e|]; [by eauto|].
    destruct (mergeSimple_total (sched (next w)) opened (NewWriter F out))
      as (out' & merr & Hm); [intros k; apply sched_fair|].
    exists out', merr. split; [done|].
    apply (mergeSimple_writer (λ b, wfile b = out)) in Hm; [done| |done].
    intros s b <-. apply WriteString_wfile. }
  set (flushed := match merr with
                  | Some e => (w2, Some e)
                  | None => Flush F out' w2
                  end).
  assert (∃ w3 err, flushed = (w3, err) ∧
            next w3 = next w2 ∧ nopen w3 = nopen w2 ∧ peak w3 = peak w2 ∧
            merges w3 = merges w2 ∧
            match err with
            | Some _ => fs w3 = fs w2
            | None => fs w3 = <[out := wbuf out']> (fs w2)
            end) as (w3 & err & -> & Hnext3 & Hnopen3 & Hpeak3 & Hmerges3 & Hfs3).
  { unfold flushed, Flush. destruct merr as [e|]; [by eauto 10|].
    destruct (werr out') as [e|]; [by eauto 10|]. rewrite Hwfile.
    destruct (flush_fails F out); [by eauto 10|].
    eexists _, _. by split_and!. }
  set (w4 := match err with Some _ => deleteFile out w3 | None => w3 end).
  destruct (close_all_spec opened w4) as (Hfs5 & Hnext5 & Hnopen5 & Hpeak5 & Hmerges5).
  destruct (deleteFiles_ghost names (close_all opened w4))
    as (Hnext6 & Hnopen6 & Hpeak6 & Hmerges6).
  assert (next w4 = next w3 ∧ nopen w4 = nopen w3 ∧ peak w4 = peak w3 ∧
          merges w4 = merges w3) as (Hnext4 & Hnopen4 & Hpeak4 & Hmerges4)
    by (unfold w4; by destruct err).
  eexists _, _, _. split; [done|].
  rewrite Hnext6, Hnopen6, Hpeak6, Hmerges6, Hnext5, Hnopen5, Hpeak5, Hmerges5,
    Hnext4, Hnopen4, Hpeak4, Hmerges4, Hnext3, Hnopen3, Hpeak3, Hmerges3,
    Hnext2, Hnopen2, Hmerges2.
  simpl in *. split_and!; try done; try lia.
  - intros n Hn. rewrite deleteFiles_fs. by rewrite decide_True.
  - intros k Hk Hne. rewrite deleteFiles_fs, decide_False, Hfs5 by done.
    unfold w4. destruct err as [e|]; simpl.
    + rewrite lookup_delete_ne, Hfs3, Hfs2 by done. simpl.
      by rewrite lookup_insert_ne.
    + rewrite Hfs3, Hfs2. simpl. by rewrite !lookup_insert_ne.
  - intros Herr. rewrite deleteFiles_fs. case_decide; [done|].
      rewrite Hfs5. unfold w4. destruct err as [e|]; [|done]. simpl.
    apply lookup_delete_eq.
  - intros -> Hout. rewrite deleteFiles_fs, decide_False, Hfs5 by done.
    unfold w4. rewrite Hfs3. rewrite lookup_insert_eq. by eexists.
Qed.

Lemma bind_rd (cs : list string) :
  (rd <$> cs) ≫= full_lines ∘ pending = cs ≫= full_lines.
Proof.
  induction cs as [|c cs IH]; [done|]. by rewrite fmap_cons, !bind_cons, IH.
Qed.

Lemma good_file_reader c : good_file c → sorted_reader (rd c).
Proof. by intros [_ ?]. Qed.

Lemma holds_fresh w names cs k :
  wf w → holds w names cs → next w ≤ k → tempname merge_prefix k ∉ names.
Proof.
  intros Hwf Hall Hk Hin.
  apply (list_elem_of_lookup_1 names) in Hin as [i Hi].
  destruct (Forall2_lookup_l _ _ _ _ _ Hall Hi) as (c & _ & Hc).
  destruct (Hwf k Hk) as [_ Hm]. congruence.
Qed.
End MergeFiles.

(** Without faults the direct merge of sorted files gives a file with all
    their lines in ascending order. *)
Lemma mergeSimpleFiles_sorted sched names cs w :
  fair_sched sched → wf w → holds w names cs → Forall good_file cs →
  ∃ w',
    mergeSimpleFiles no_faults sched names w =
      (w', Done (tempname merge_prefix (next w), None)) ∧
    merged names (tempname merge_prefix (next w)) (merged_content cs) w w' ∧
    next w' = S (next w).
Proof.
  intros Hfair Hwf Hall Hgood. unfold mergeSimpleFiles, TempFile. simpl.
  set (out := tempname merge_prefix (next w)).
  assert (out ∉ names) as Hout by (by eapply holds_fresh).
  set (w1 := mkWorld _ _ _ _ _).
  destruct (open_all_no_faults names cs [] w1) as (w2 & -> & Hfs2 & Hnext2 & _).
  { eapply Forall2_impl; [exact Hall|]. intros n c Hn. simpl.
    rewrite lookup_insert_ne; [done|].
    intros Heq. destruct (Hwf (next w)) as [_ Hm]; [done|].
    rewrite <-Heq in Hn. unfold out in Hn. congruence. }
  simpl. rewrite mergeSimple_sorted.
  2:{ intros k. apply Hfair. }
  2:{ apply Forall_fmap. eapply Forall_impl; [exact Hgood|].
      intros c Hc. by apply good_file_reader. }
  rewrite bind_rd. unfold NewWriter. simpl. rewrite write_lines_Writer.
  unfold Flush. simpl.
  eexists. split; [reflexivity|].
  destruct (deleteFiles_ghost names
    (close_all (rd <$> cs)
       (set_fs (insert out (EmptyString +:+ merged_content cs)) w2)))
    as (Hnext6 & _).
  destruct (close_all_spec (rd <$> cs)
    (set_fs (insert out (EmptyString +:+ merged_content cs)) w2))
    as (Hfs5 & Hnext5 & _).
  unfold merged_content in *.
  rewrite Hnext6, Hnext5. simpl. rewrite Hnext2. simpl.
  split; [|done]. unfold merged. split_and!.
  - rewrite deleteFiles_fs, decide_False, Hfs5 by done. simpl.
    by rewrite lookup_insert_eq.
  - intros k Hk _. by rewrite deleteFiles_fs, decide_True.
  - intros k Hk Hne. rewrite deleteFiles_fs, decide_False, Hfs5 by done. simpl.
    rewrite lookup_insert_ne, Hfs2 by done. simpl. by rewrite lookup_insert_ne.
  - right. exists (next w). split; [done|].
    rewrite ?Hnext6, ?Hnext5; simpl; rewrite ?Hnext2; simpl; lia.
  - rewrite ?Hnext6, ?Hnext5; simpl; rewrite ?Hnext2; simpl; lia.
Qed.

(** * merge: the bound on open files *)

Section Within.
Variable limit : Z.
Implicit Types (w : world).

Lemma within_refl w : within limit w w.
Proof.
  split_and!; [|done|lia]. exists []. by rewrite app_nil_r.
Qed.

Lemma within_trans w1 w2 w3 :
  within limit w1 w2 → nopen w2 = nopen w1 → within limit w2 w3 →
  within limit w1 w3.
Proof.
  intros ((new1 & Hm1 & Hn1) & Hp1 & Hq1) Hnopen ((new2 & Hm2 & Hn2) & Hp2 & Hq2).
  split_and!; [|lia|lia].
  exists (new1 ++ new2). rewrite Hm2, Hm1, <-app_assoc. split; [done|].
  by apply Forall_app.
Qed.

Lemma safe_ret {A} (a : A) : safe limit (ret a).
Proof. intros w. split; [apply within_refl|done]. Qed.

Lemma safe_lift {A} (o : outcome A) : safe limit (lift o).
Proof. intros w. split; [apply within_refl|done]. Qed.

Lemma safe_bind {A B} (c : M A) (k : A → M B) :
  safe limit c → (∀ a, safe limit (k a)) → safe limit (bind c k).
Proof.
  intros Hc Hk w. unfold bind. destruct (Hc w) as [Hw Hn].
  destruct (c w) as [w1 [a| |]]; simpl in *; [|done..].
  destruct (Hk a w1) as [Hw' Hn']. specialize (Hn a eq_refl). split.
  - by eapply within_trans.
  - intros b Hb. rewrite (Hn' b Hb). done.
Qed.

Lemma safe_merge_groups mergef groups acc :
  (∀ g, safe limit (mergef g)) → safe limit (merge_groups mergef groups acc).
Proof.
  intros Hf. revert acc. induction groups as [|g groups IH]; intros acc; simpl.
  - apply safe_ret.
  - apply safe_bind; [done|]. intros [name [e|]]; [apply safe_ret|apply IH].
Qed.
End Within.

Section Merge.
Variable F : faults.
Variable sched : nat → nat → iteration_order.
Hypothesis sched_fair : fair_sched sched.
Implicit Types (w : world) (names : list string).

Lemma safe_mergeSimpleFiles names limit :
  (len names ≤ limit)%Z → safe limit (mergeSimpleFiles F sched names).
Proof.
  intros Hlen w.
  destruct (mergeSimpleFiles_general F sched sched_fair names w)
    as (w' & out & err & -> & _ & _ & _ & Hnext & Hnopen & Hp1 & Hp2 & Hm).
  simpl. split; [|done]. unfold len in Hlen. split_and!; [|done|lia].
  exists [names]. split; [done|]. by repeat constructor.
Qed.

(** Every direct merge that [merge] starts takes at most [limit] names, so
    never more than [limit] inputs are open at once. *)
Lemma safe_merge fuel names limit : safe limit (merge F sched fuel names limit).
Proof.
  revert names. induction fuel as [|fuel IH]; intros names; simpl.
  { apply safe_lift. }
  destruct names as [|n1 [|n2 names]]; [apply safe_lift|apply safe_ret|].
  destruct (Z.leb_spec (len (n1 :: n2 :: names)) limit).
  { by apply safe_mergeSimpleFiles. }
  apply safe_bind; [apply safe_lift|]. intros groups.
  apply safe_bind; [by apply safe_merge_groups|].
  intros [reduced [e|]]; [apply safe_ret|apply IH].
Qed.

(** * merge: termination *)

Lemma merge_groups_ends fuel (n : nat) limit groups acc w :
  (∀ names w, names ≠ [] →
      merge_ends fuel names (merge F sched fuel names limit w).2) →
  Forall (λ g, 1 ≤ length g ≤ n) groups →
  match (merge_groups (λ g, merge F sched fuel g limit) groups acc w).2 with
  | Done (reduced, err) =>
      ∃ more, reduced = acc ++ more ∧ length more ≤ length groups ∧
        (err = None → ∀ g gs, groups = g :: gs → 2 ≤ length g →
           ∃ j rest, more = tempname merge_prefix j :: rest)
  | Panic _ => False
  | OutOfFuel => fuel < n
  end.
Proof.
  intros IHm Hgroups. revert acc w.
  induction Hgroups as [|g groups Hg _ IH]; intros acc w; simpl.
  { exists []. rewrite app_nil_r. split_and!; [done..|]. by intros _ g gs. }
  unfold bind.
  assert (g ≠ []) as Hne by (intros ->; simpl in Hg; lia).
  pose proof (IHm g w Hne) as Hend.
  destruct (merge F sched fuel g limit w) as [w1 [[name err]| |]];
    simpl in *; [|done|lia].
  set (acc' := if bool_decide (name ≠ EmptyString) then acc ++ [name] else acc).
  assert (∃ this, acc' = acc ++ this ∧ length this ≤ 1 ∧
            (err = None → 2 ≤ length g →
               ∃ j, this = [tempname merge_prefix j])) as
    (this & Hacc & Hlen & Hthis).
  { unfold acc'. case_bool_decide as Hname.
    - exists [name]. split_and!; [done..|]. intros Herr Hlg.
      destruct (Hend Herr) as [->|[j ->]]; [simpl in Hlg; lia|by eauto].
    - exists []. rewrite app_nil_r. split_and!; [done|simpl; lia|].
      intros Herr Hlg. destruct (Hend Herr) as [->|[j ->]];
        [simpl in Hlg; lia|]. by apply tempname_merge_nonempty in Hname. }
  destruct err as [e|]; simpl.
  { exists this. split_and!; [done|lia|done]. }
  specialize (IH acc' w1).
  destruct (merge_groups _ groups acc' w1) as [w2 [[reduced err]| |]];
    simpl in *; [|done..].
  destruct IH as (more & -> & Hmore & _).
  exists (this ++ more). rewrite Hacc, <-app_assoc. split_and!; [done| |].
  - rewrite length_app. lia.
  - intros _ g' gs' [= <- <-] Hlg. destruct (Hthis eq_refl Hlg) as [j ->].
    by eauto.
Qed.

Lemma merge_outcome fuel names limit w :
  (2 ≤ limit)%Z → names ≠ [] →
  merge_ends fuel names (merge F sched fuel names limit w).2.
Proof.
  intros Hlimit. revert names w.
  induction fuel as [|fuel IH]; intros names w Hne; simpl.
  { destruct names; [done|simpl; lia]. }
  destruct names as [|n1 [|n2 names]]; [done|by left|].
  set (all := n1 :: n2 :: names) in *.
  destruct (Z.leb_spec (len all) limit) as [Hle|Hgt].
  { destruct (mergeSimpleFiles_general F sched sched_fair all w)
      as (w' & out & err & -> & _ & _ & Hout & _).
    simpl. intros ->. right. destruct (create_fails F (next w)).
    - by destruct Hout.
    - destruct Hout as [-> _]. by eauto. }
  unfold bind, lift. rewrite strSliceSplit_chunks by lia.
  set (n := Z.to_nat limit). unfold len in Hgt.
  assert (2 ≤ n ∧ n < length all) as [Hn Hlen] by lia.
  pose proof (merge_groups_ends fuel n limit (chunks n all) [] w IH
                (chunks_bounds n all ltac:(lia))) as Hgroups.
  pose proof (length_chunks_lt n all Hn Hlen) as Hshort.
  assert (∃ g gs, chunks n all = g :: gs ∧ 2 ≤ length g) as (g & gs & Hch & Hg).
  { rewrite chunks_cons by (done || lia). eexists _, _. split; [done|].
    rewrite length_take. lia. }
  destruct (merge_groups _ (chunks n all) [] w) as [w1 [[reduced err]| |]];
    cbn [snd fst merge_ends] in *; [|done|lia].
  destruct Hgroups as (more & -> & Hmore & Hhead).
  destruct err as [e|]; cbn [snd fst merge_ends ret]; [done|].
  destruct (Hhead eq_refl _ _ Hch Hg) as (j & rest & ->).
  specialize (IH (tempname merge_prefix j :: rest) w1 ltac:(done)).
  rewrite app_nil_l.
  destruct (merge F sched fuel _ limit w1) as [w2 [[name err]| |]];
    cbn [snd fst merge_ends] in *; [|done|].
  - intros Herr. right. destruct (IH Herr) as [[= <- _]|?]; by eauto.
  - cbn [length] in *. lia.
Qed.
End Merge.

(** * merge: the content of the result *)

Section Content.
Implicit Types (w : world) (names cs : list string) (c : string).

Lemma elem_of_concat {A} (x : A) (ls : list (list A)) :
  x ∈ concat ls ↔ ∃ l, x ∈ l ∧ l ∈ ls.
Proof.
  induction ls as [|l ls IH]; simpl.
  - split; [by intros ?%elem_of_nil|]. by intros (l & _ & ?%elem_of_nil).
  - rewrite elem_of_app, IH. split.
    + intros [Hx|(l' & Hx & Hl')].
      * exists l. split; [done|]. apply list_elem_of_here.
      * exists l'. split; [done|]. by apply list_elem_of_further.
    + intros (l' & Hx & [->|Hl']%elem_of_cons); [by left|]. right. by eauto.
Qed.

Lemma holds_lookup w names cs k :
  holds w names cs → k ∈ names → is_Some (fs w !! k).
Proof.
  intros Hall [i Hi]%list_elem_of_lookup_1.
  destruct (Forall2_lookup_l _ _ _ _ _ Hall Hi) as (c & _ & Hc). by eexists.
Qed.

(** A file that exists does not carry a temporary name still to come. *)
Lemma present_not_temp w k j :
  wf w → is_Some (fs w !! k) → next w ≤ j → k ≠ tempname merge_prefix j.
Proof.
  intros Hwf [c Hc] Hj ->. destruct (Hwf j Hj) as [_ Hm]. congruence.
Qed.

Lemma merged_wf names cs out content w w' :
  wf w → holds w names cs → merged names out content w w' → wf w'.
Proof.
  intros Hwf Hall (Hout & Hdel & Hframe & Hclass & Hnext) k Hk.
  assert (∀ prefix, prefix = chunk_prefix ∨ prefix = merge_prefix →
            fs w !! tempname prefix k = None) as Hold.
  { destruct (Hwf k) as [Hc Hm]; [lia|]. by intros prefix [->| ->]. }
  assert (∀ prefix, prefix = chunk_prefix ∨ prefix = merge_prefix →
            fs w' !! tempname prefix k = None) as Hnew.
  { intros prefix Hprefix. specialize (Hold prefix Hprefix).
    destruct (decide (tempname prefix k = out)) as [Heq|Hne].
    - exfalso. destruct Hclass as [Hin|(j & -> & Hj)].
      + destruct (holds_lookup _ _ _ _ Hall Hin) as [c Hc]. congruence.
      + destruct Hprefix as [->| ->].
        * by apply tempname_chunk_merge in Heq.
        * apply tempname_inj in Heq. lia.
    - destruct (decide (tempname prefix k ∈ names)); [by apply Hdel|].
      by rewrite Hframe. }
  split; apply Hnew; auto.
Qed.

Lemma good_file_join (ls : list string) :
  Forall is_line ls → Sorted String.le ls → good_file (join ls).
Proof.
  intros Hls Hs. split; [by apply tail_of_join|]. by rewrite full_lines_join.
Qed.

Lemma bind_full_lines_is_line cs : Forall is_line (cs ≫= full_lines).
Proof.
  apply Forall_forall. intros l (c & Hl & _)%list_elem_of_bind.
  destruct (parse_spec c) as (_ & Hall & _).
  by eapply Forall_forall in Hall.
Qed.

Lemma good_file_merged_content cs : good_file (merged_content cs).
Proof.
  apply good_file_join; [|apply sort_Strings_Sorted].
  apply sort_Strings_is_line, bind_full_lines_is_line.
Qed.

Lemma full_lines_merged_content cs :
  full_lines (merged_content cs) = sort_Strings (cs ≫= full_lines).
Proof.
  apply full_lines_join, sort_Strings_is_line, bind_full_lines_is_line.
Qed.

(** A sorted file is the merge of itself alone. *)
Lemma merged_content_singleton c : good_file c → merged_content [c] = c.
Proof.
  intros [Ht Hs]. unfold merged_content. simpl. rewrite app_nil_r.
  rewrite sort_Strings_sorted by done.
  destruct (parse_spec c) as (Hc & _ & _). rewrite Ht, append_nil_r in Hc.
  done.
Qed.

(** Merging the merges of groups is merging everything. *)
Lemma merged_content_groups (css : list (list string)) :
  merged_content (merged_content <$> css) = merged_content (concat css).
Proof.
  unfold merged_content at 1 3. f_equal. apply sort_Strings_perm.
  induction css as [|cs css IH]; [done|].
  rewrite fmap_cons, bind_cons, IH. simpl. rewrite bind_app.
  by rewrite full_lines_merged_content, sort_Strings_Permutation.
Qed.

Lemma Forall2_chunks {A B} (R : A → B → Prop) n (l1 : list A) (l2 : list B) :
  1 ≤ n → Forall2 R l1 l2 →
  Forall2 (Forall2 R) (chunks n l1) (chunks n l2).
Proof.
  intros Hn. revert l2.
  apply (chunks_ind n (λ l1 gs, ∀ l2, Forall2 R l1 l2 →
                                 Forall2 (Forall2 R) gs (chunks n l2)));
    [done|..].
  - intros l2 ->%Forall2_nil_inv_l. constructor.
  - intros l Hl IH l2 Hall. rewrite (chunks_cons n l2); [|done|].
    2:{ intros ->. apply Forall2_nil_inv_r in Hall. done. }
    constructor; [by apply Forall2_take|]. by apply IH, Forall2_drop.
Qed.
End Content.

Section MergeSorted.
Variable sched : nat → nat → iteration_order.
Hypothesis sched_fair : fair_sched sched.
Variable limit : Z.
Hypothesis limit_ge : (2 ≤ limit)%Z.
Implicit Types (w : world) (names cs : list string).

Lemma merge_groups_sorted fuel groups css acc w :
  merge_ok sched limit fuel →
  Forall (λ g, g ≠ [] ∧ length g ≤ fuel) groups →
  NoDup (concat groups) →
  Forall (λ n, n ≠ EmptyString) (concat groups) →
  wf w → Forall2 (holds w) groups css → Forall (Forall good_file) css →
  ∃ w' outs,
    merge_groups (λ g, merge no_faults sched fuel g limit) groups acc w =
      (w', Done (acc ++ outs, None)) ∧
    Forall2 (λ o cs, fs w' !! o = Some (merged_content cs)) outs css ∧
    NoDup outs ∧ Forall (λ n, n ≠ EmptyString) outs ∧
    (∀ k, k ∈ concat groups → k ∉ outs → fs w' !! k = None) ∧
    (∀ k, k ∉ concat groups → k ∉ outs → fs w' !! k = fs w !! k) ∧
    Forall (λ o, o ∈ concat groups ∨
                 ∃ j, o = tempname merge_prefix j ∧ next w ≤ j < next w') outs ∧
    next w ≤ next w' ∧ wf w'.
Proof.
  intros Hmerge Hgroups. revert css acc w.
  induction Hgroups as [|g groups [Hg Hlen] _ IH];
    intros css acc w Hnodup Hnames Hwf Hholds Hgood.
  { apply Forall2_nil_inv_l in Hholds as ->. exists w, []. simpl.
    rewrite app_nil_r. split_and!; try done; constructor. }
  apply Forall2_cons_inv_l in Hholds as (cs & css' & Hcs & Hholds & ->).
  apply Forall_cons in Hgood as [Hgood_cs Hgood].
  simpl in Hnodup, Hnames.
  apply NoDup_app in Hnodup as (Hnodup_g & Hdisj & Hnodup_rest).
  apply Forall_app in Hnames as [Hnames_g Hnames_rest].
  destruct (Hmerge g cs w Hg Hnodup_g Hnames_g Hwf Hcs Hgood_cs Hlen)
    as (w1 & out1 & Hrun & Hmerged & Hwf1).
  destruct Hmerged as (Hout1 & Hdel1 & Hframe1 & Hclass1 & Hnext1).
  (* the output of this group is none of the names still to be merged *)
  assert (∀ k, k ∈ concat groups → is_Some (fs w !! k)) as Hpresent.
  { intros k (g' & Hk & Hg')%elem_of_concat.
    apply list_elem_of_lookup_1 in Hg' as [i Hi].
    destruct (Forall2_lookup_l _ _ _ _ _ Hholds Hi) as (cs' & _ & Hcs').
    by eapply holds_lookup. }
  assert (out1 ∉ concat groups) as Hout1_rest.
  { intros Hin. destruct Hclass1 as [Hin1|(j & -> & Hj)].
    - by eapply Hdisj.
    - eapply present_not_temp; [exact Hwf|by apply Hpresent| |done]. lia. }
  assert (out1 ≠ EmptyString) as Hout1_ne.
  { destruct Hclass1 as [Hin1|(j & -> & _)]; [|done].
    by eapply Forall_forall in Hnames_g. }
  assert (Forall2 (holds w1) groups css') as Hholds1.
  { eapply Forall2_impl; [|exact (λ _ _ H, H)].
    apply Forall2_same_length_lookup. split; [by eapply Forall2_length|].
    intros i g' cs' Hi Hi'.
    pose proof (Forall2_lookup_lr _ _ _ _ _ _ Hholds Hi Hi') as Hg'.
    apply Forall2_same_length_lookup. split; [by eapply Forall2_length|].
    intros i' k c Hk Hc.
    pose proof (Forall2_lookup_lr _ _ _ _ _ _ Hg' Hk Hc) as Hkc.
    assert (k ∈ concat groups) as Hin.
    { apply elem_of_concat. exists g'.
      split; by eapply list_elem_of_lookup_2. }
    rewrite Hframe1; [done| |].
    - intros Hkg. by eapply Hdisj.
    - by intros ->. }
  simpl. unfold bind. rewrite Hrun. rewrite bool_decide_true by done.
  destruct (IH css' (acc ++ [out1]) w1 Hnodup_rest Hnames_rest Hwf1 Hholds1 Hgood)
    as (w' & outs & -> & Hlookup & Hnodup_outs & Hnames_outs & Hdel & Hframe
        & Hclass & Hnext & Hwf').
  assert (out1 ∉ outs) as Hout1_outs.
  { intros Hin. eapply Forall_forall in Hclass; [|exact Hin].
    destruct Hclass as [?|(j & Heq & Hj)]; [done|].
    destruct Hclass1 as [Hin1|(j1 & -> & Hj1)].
    - eapply present_not_temp; [exact Hwf|by eapply holds_lookup| |exact Heq].
      lia.
    - apply tempname_inj in Heq. lia. }
  exists w', (out1 :: outs). rewrite <-app_assoc. split_and!; try done.
  - constructor; [|done]. by rewrite Hframe.
  - by constructor.
  - by constructor.
  - intros k [Hk|Hk]%elem_of_app Hnot.
    + apply not_elem_of_cons in Hnot as [Hne Hnot].
      rewrite Hframe; [by apply Hdel1| |done].
      intros Hin. by eapply Hdisj.
    + apply not_elem_of_cons in Hnot as [Hne Hnot]. by apply Hdel.
  - intros k Hk Hnot. apply not_elem_of_app in Hk as [Hk1 Hk2].
    apply not_elem_of_cons in Hnot as [Hne Hnot].
    rewrite Hframe by done. by apply Hframe1.
  - constructor.
    + destruct Hclass1 as [?|(j & -> & Hj)].
      * left. apply elem_of_app. by left.
      * right. exists j. split; [done|lia].
    + eapply Forall_impl; [exact Hclass|]. simpl.
      intros o [?|(j & -> & Hj)].
      * left. apply elem_of_app. by right.
      * right. exists j. split; [done|lia].
  - lia.
Qed.

(** Without faults [merge] turns sorted files into one file that holds all
    their lines in ascending order, and touches no other file. *)
Lemma merge_sorted fuel : merge_ok sched limit fuel.
Proof.
  induction fuel as [|fuel IH];
    intros names cs w Hne Hnodup Hnames Hwf Hholds Hgood Hfuel.
  { destruct names; [done|simpl in Hfuel; lia]. }
  cbn [merge].
  destruct names as [|n1 [|n2 names]]; [done|..].
  - (* one name: it is returned as it is *)
    apply Forall2_cons_inv_l in Hholds as (c & cs' & Hc & ->%Forall2_nil_inv_l & ->).
    apply Forall_cons in Hgood as [Hgood _].
    exists w, n1. split; [done|]. split; [|done].
    rewrite merged_content_singleton by done. split_and!; [done|..|lia].
    + intros k ->%list_elem_of_singleton. done.
    + done.
    + left. apply list_elem_of_here.
  - set (all := n1 :: n2 :: names) in *.
    destruct (Z.leb_spec (len all) limit) as [Hle|Hgt].
    + (* within the limit: one direct merge *)
      destruct (mergeSimpleFiles_sorted sched all cs w sched_fair Hwf Hholds Hgood)
        as (w' & Hrun & Hmerged & Hnext).
      exists w', (tempname merge_prefix (next w)).
      split_and!; [done..|]. by eapply merged_wf.
    + (* beyond the limit: merge the groups, then their results *)
      unfold bind at 1, lift. rewrite strSliceSplit_chunks by lia.
      set (n := Z.to_nat limit). unfold len in Hgt.
      assert (2 ≤ n ∧ n < length all) as [Hn Hlen] by lia.
      pose proof (concat_chunks n all ltac:(lia)) as Hconcat.
      pose proof (concat_chunks n cs ltac:(lia)) as Hconcat_cs.
      destruct (merge_groups_sorted fuel (chunks n all) (chunks n cs) [] w IH)
        as (w1 & outs & Hrun & Hlookup & Hnodup_outs & Hnames_outs & Hdel
            & Hframe & Hclass & Hnext & Hwf1).
      { eapply Forall_impl; [apply (chunks_bounds n all); lia|]. simpl.
        intros g [Hg1 Hg2]. split; [|lia]. intros ->. simpl in Hg1. lia. }
      { by rewrite Hconcat. }
      { by rewrite Hconcat. }
      { done. }
      { apply Forall2_chunks; [lia|done]. }
      { apply Forall_forall. intros g Hg. apply Forall_forall. intros c Hc.
        eapply Forall_forall in Hgood; [exact Hgood|].
        rewrite <-Hconcat_cs. apply elem_of_concat. by eauto. }
      rewrite Hconcat in Hdel, Hframe, Hclass.
      unfold bind. rewrite Hrun. rewrite app_nil_l.
      assert (length outs = length (chunks n all)) as Hlen_outs.
      { rewrite (Forall2_length _ _ _ Hlookup).
        symmetry. eapply Forall2_length, (Forall2_chunks _ n all cs); [lia|done]. }
      destruct (IH outs (merged_content <$> chunks n cs) w1)
        as (w' & out & -> & Hmerged & Hwf'); [|done|done|done| | | |].
      { intros ->.
        pose proof (chunks_nonempty n all ltac:(lia) ltac:(done)) as Hc.
        by destruct (chunks n all). }
      { unfold holds. by apply Forall2_fmap_r. }
      { apply Forall_fmap, Forall_forall. intros g _.
        apply good_file_merged_content. }
      { pose proof (length_chunks_lt n all Hn Hlen). lia. }
      exists w', out. split; [done|]. rewrite merged_content_groups, Hconcat_cs in Hmerged.
      destruct Hmerged as (Hout & Hdel' & Hframe' & Hclass' & Hnext').
      assert (merged all out (merged_content cs) w w') as Hall.
      { split_and!; [done|..|lia].
        - intros k Hk Hne_out. destruct (decide (k ∈ outs)); [by apply Hdel'|].
          rewrite Hframe' by done. by apply Hdel.
        - intros k Hk Hne_out. destruct (decide (k ∈ outs)) as [Hin|Hin].
          + rewrite Hdel' by done.
            eapply Forall_forall in Hclass; [|exact Hin].
            destruct Hclass as [?|(j & -> & Hj)]; [done|].
            symmetry. apply Hwf. lia.
          + rewrite Hframe' by done. by apply Hframe.
        - destruct Hclass' as [Hin|(j & -> & Hj)].
          + eapply Forall_forall in Hclass; [|exact Hin].
            destruct Hclass as [?|(j & -> & Hj)]; [by left|].
            right. exists j. split; [done|lia].
          + right. exists j. split; [done|lia]. }
      split; [done|]. done.
Qed.
End MergeSorted.

(** * split: the chunk files *)

Section Chunks.
Implicit Types (w : world) (groups : list (list string)).

Lemma write_chunks_spec groups w :
  wf w →
  ∃ w' names,
    write_chunks groups w = (w', names) ∧
    length names = length groups ∧
    holds w' names (join ∘ sort_Strings <$> groups) ∧
    NoDup names ∧ Forall (λ n, n ≠ EmptyString) names ∧
    Forall (λ n, ∃ j, n = tempname chunk_prefix j ∧ next w ≤ j < next w') names ∧
    (∀ k, k ∉ names → fs w' !! k = fs w !! k) ∧
    next w' = next w + length groups ∧
    nopen w' = nopen w ∧ peak w' = peak w ∧ merges w' = merges w ∧
    wf w'.
Proof.
  revert w. induction groups as [|g groups IH]; intros w Hwf; simpl.
  { exists w, []. split_and!; try done; try constructor; lia. }
  set (name := tempname chunk_prefix (next w)).
  set (w1 := add_file name (join (sort_Strings g)) w).
  assert (wf w1) as Hwf1.
  { intros k Hk. simpl in Hk. destruct (Hwf k) as [Hc Hm]; [lia|].
    unfold w1, add_file. simpl. split.
    - rewrite lookup_insert_ne; [done|]. intros Heq%tempname_inj. lia.
    - rewrite lookup_insert_ne; [done|]. apply tempname_chunk_merge. }
  destruct (IH w1 Hwf1) as (w' & names & -> & Hlen & Hholds & Hnodup & Hne
                            & Hclass & Hframe & Hnext & Hnopen & Hpeak & Hm & Hwf').
  simpl in Hnext.
  assert (name ∉ names) as Hfresh.
  { intros Hin. eapply Forall_forall in Hclass; [|exact Hin].
    destruct Hclass as (j & Heq%tempname_inj & Hj). simpl in Hj. lia. }
  exists w', (name :: names). split_and!; try done.
  - simpl. by rewrite Hlen.
  - constructor; [|done]. rewrite Hframe by done. unfold w1, add_file. simpl.
    apply lookup_insert_eq.
  - by constructor.
  - by constructor.
  - constructor.
    + exists (next w). split; [done|lia].
    + eapply Forall_impl; [exact Hclass|]. simpl. intros n (j & -> & Hj).
      exists j. split; [done|lia].
  - intros k [Hk1 Hk2]%not_elem_of_cons. rewrite Hframe by done.
    unfold w1, add_file. simpl. by rewrite lookup_insert_ne.
  - simpl. lia.
Qed.

Lemma split_groups_nonempty n (L : list string) :
  1 ≤ n → split_groups n L ≠ [].
Proof. intros Hn. destruct L; [done|]. by apply chunks_nonempty. Qed.

Lemma split_groups_concat n (L : list string) :
  1 ≤ n → concat (split_groups n L) = L.
Proof. intros Hn. destruct L; [done|]. by apply concat_chunks. Qed.

Lemma length_split_groups n (L : list string) :
  1 ≤ n → length (split_groups n L) ≤ S (length L).
Proof.
  intros Hn. destruct L; [simpl; lia|].
  etrans; [by apply length_chunks|]. lia.
Qed.

(** [split] without faults: the lines of the input are cut into groups of
    [limit] lines, and the sorted groups are stored in new chunk files. *)
Lemma split_spec (limit : Z) (data : string) w :
  (1 ≤ limit ≤ max_cap)%Z →
  split no_faults (rd data) limit w =
    let '(w', names) :=
      write_chunks (split_groups (Z.to_nat limit) (lines_of data)) w in
    (w', Done (names, None)).
Proof.
  intros Hlimit. unfold split. rewrite split_loop_spec; [done..|].
  simpl. pose proof (length_lines_of data). lia.
Qed.
End Chunks.

(** * sortLines *)

Section SortLines.
Variable sched : nat → nat → iteration_order.
Hypothesis sched_fair : fair_sched sched.
Implicit Types (w : world) (data : string).

Lemma clamp_limit (limit : Z) :
  (10 ≤ min 100 (max 10 limit) ≤ 100)%Z.
Proof. rewrite min_spec, max_spec. lia. Qed.

Lemma sorted_chunks_content (groups : list (list string)) :
  Forall (Forall is_line) groups →
  merged_content (join ∘ sort_Strings <$> groups) =
    join (sort_Strings (concat groups)).
Proof.
  intros Hlines. unfold merged_content. f_equal. apply sort_Strings_perm.
  induction Hlines as [|g groups Hg _ IH]; [done|].
  rewrite fmap_cons, bind_cons, IH. simpl. apply Permutation_app; [|done].
  rewrite full_lines_join by (by apply sort_Strings_is_line).
  apply sort_Strings_Permutation.
Qed.

(** The sort without faults: the output file holds the lines of the input
    in ascending order. *)
Lemma sortLines_spec fuel data (limit : Z) w :
  (1 ≤ limit ≤ max_cap)%Z → wf w → String.length data < fuel →
  ∃ w' name,
    sortLines no_faults sched fuel (rd data) limit w = (w', Done (name, None)) ∧
    fs w' !! name = Some (join (sort_Strings (lines_of data))) ∧
    name ≠ EmptyString ∧ wf w'.
Proof.
  intros Hlimit Hwf Hfuel. unfold sortLines, bind. rewrite split_spec by done.
  set (n := Z.to_nat limit). set (groups := split_groups n (lines_of data)).
  destruct (write_chunks_spec groups w Hwf)
    as (w1 & names & -> & Hlen & Hholds & Hnodup & Hne & _ & _ & _ & _ & _ & _
        & Hwf1).
  assert (Forall (Forall is_line) groups) as Hlines.
  { apply Forall_forall. intros g Hg. apply Forall_forall. intros l Hl.
    pose proof (lines_of_is_line data) as Hall.
    eapply Forall_forall in Hall; [exact Hall|].
    rewrite <-(split_groups_concat n (lines_of data)) by lia.
    apply elem_of_concat. by eauto. }
  assert (2 ≤ min 100 (max 10 limit))%Z as Hclamp
    by (pose proof (clamp_limit limit); lia).
  destruct (merge_sorted sched sched_fair (min 100 (max 10 limit))
              Hclamp fuel names
              (join ∘ sort_Strings <$> groups) w1)
    as (w' & out & -> & (Hout & _ & _ & Hclass & _) & Hwf'); try done.
  - intros ->. apply (split_groups_nonempty n (lines_of data)); [lia|].
    symmetry in Hlen. by apply nil_length_inv in Hlen.
  - apply Forall_fmap, Forall_forall. intros g Hg. simpl.
    apply good_file_join; [|apply sort_Strings_Sorted].
    apply sort_Strings_is_line. by eapply Forall_forall in Hlines.
  - rewrite Hlen. pose proof (length_split_groups n (lines_of data)).
    pose proof (length_lines_of data). fold groups in H. lia.
  - exists w', out. split_and!; [done| | |done].
    + rewrite Hout, sorted_chunks_content by done.
      unfold groups. by rewrite split_groups_concat by lia.
    + destruct Hclass as [Hin|(j & -> & _)]; [|done].
      by eapply Forall_forall in Hne.
Qed.

Lemma sortLinesFile_spec fuel data (limit : Z) outfile w :
  (1 ≤ limit ≤ max_cap)%Z → wf w → String.length data < fuel →
  ∃ w',
    sortLinesFile no_faults sched fuel (rd data) limit outfile w =
      (w', Done None) ∧
    fs w' !! outfile = Some (join (sort_Strings (lines_of data))).
Proof.
  intros Hlimit Hwf Hfuel. unfold sortLinesFile, bind.
  destruct (sortLines_spec fuel data limit w) as (w' & name & -> & Hout & _);
    [done..|].
  unfold call, Rename. rewrite Hout. simpl. eexists. split; [done|].
  simpl. apply lookup_insert_eq.
Qed.

Lemma WriteTo_rd {W} `{!stringWriter W} pieces (c : string) (dst : W) :
  WriteTo pieces (rd c) dst = write_lines (pieces c) dst.
Proof.
  unfold WriteTo. simpl. by destruct (write_lines (pieces c) dst) as [dst' [e|]].
Qed.

Lemma one_piece_whole : whole_stream one_piece.
Proof. intros c. apply append_nil_r. Qed.

Lemma bytewise_whole : whole_stream bytewise.
Proof.
  intros c. induction c as [|a c IH]; [done|].
  simpl. by rewrite append_cons, append_nil_l, IH.
Qed.

Lemma sortLinesWrite_spec pieces fuel data (limit : Z) w :
  whole_stream pieces →
  (1 ≤ limit ≤ max_cap)%Z → wf w → String.length data < fuel →
  ∃ w',
    sortLinesWrite no_faults sched pieces fuel (rd data) limit
      (EmptyString : Buffer) w =
      (w', Done (join (sort_Strings (lines_of data)), None)).
Proof.
  intros Hpieces Hlimit Hwf Hfuel. unfold sortLinesWrite, bind.
  destruct (sortLines_spec fuel data limit w) as (w' & name & -> & Hout & _);
    [done..|].
  unfold Open. rewrite Hout. simpl.
  rewrite file_reader_no_faults, WriteTo_rd, write_lines_Buffer, Hpieces.
  rewrite append_nil_l. eexists. reflexivity.
Qed.

Lemma lines_of_sorted_output data :
  lines_of (join (sort_Strings (lines_of data))) = sort_Strings (lines_of data).
Proof. apply lines_of_join, sort_Strings_is_line, lines_of_is_line. Qed.
End SortLines.

(** * Concrete worlds and orders *)

Lemma id_sched_fair : fair_sched id_sched.
Proof. intros m k l. reflexivity. Qed.

Lemma rev_sched_fair : fair_sched rev_sched.
Proof. intros m k l. apply reverse_Permutation. Qed.

Lemma wf_world0 : wf world0.
Proof. intros k _. split; apply lookup_empty. Qed.

(** * newSourceSet *)

Lemma newSourceSet_loop_lookup rs p ss0 ss :
  (∀ q, p ≤ q → ss0 !! q = None) →
  newSourceSet_loop rs p ss0 = (ss, None) →
  ∀ q s, ss !! q = Some s ↔
    ss0 !! q = Some s ∨
    ∃ i rd, q = p + i ∧ rs !! i = Some rd ∧
            pop (mkSource EmptyString rd) = (s, None).
Proof.
  revert p ss0. induction rs as [|rd rs IH]; intros p ss0 Hfresh; simpl.
  { intros [= ->] q s. split; [by left|]. by intros [?|(i & rd & _ & ? & _)]. }
  destruct (pop (mkSource EmptyString rd)) as [s0 [e|]] eqn:Hpop.
  - destruct (is_EOF e) eqn:He; [|done]. intros Hloop q s.
    rewrite (IH (S p) ss0 ltac:(intros; apply Hfresh; lia) Hloop q s).
    split; (intros [?|(i & rd' & -> & Hi & Hs)]; [by left|right]).
    + exists (S i), rd'. split_and!; [lia|done..].
    + destruct i as [|i]; simpl in Hi; [congruence|].
      exists i, rd'. split_and!; [lia|done..].
  - intros Hloop q s.
    rewrite (IH (S p) (<[p := s0]> ss0)
               ltac:(intros; rewrite lookup_insert_ne by lia; apply Hfresh; lia)
               Hloop q s).
    rewrite lookup_insert. case_decide as Hq.
    + subst q. rewrite (Hfresh p) by lia. split.
      * intros [[= ->]|(i & rd' & Hi & _)]; [|lia].
        right. exists 0, rd. split_and!; [lia|done..].
      * intros [?|(i & rd' & Hi & Hrd & Hs)]; [done|].
        assert (i = 0) as -> by lia. simpl in Hrd. left. congruence.
    + split; (intros [?|(i & rd' & -> & Hi & Hs)]; [by left|right]).
      * exists (S i), rd'. split_and!; [lia|done..].
      * destruct i as [|i]; [lia|]. simpl in Hi.
        exists i, rd'. split_and!; [lia|done..].
Qed.

Lemma newSourceSet_loop_error rs p ss0 ss e :
  newSourceSet_loop rs p ss0 = (ss, Some e) →
  ss = ∅ ∧ is_EOF e = false ∧
  ∃ rd s, rd ∈ rs ∧ pop (mkSource EmptyString rd) = (s, Some e).
Proof.
  revert p ss0. induction rs as [|rd rs IH]; intros p ss0; simpl; [done|].
  destruct (pop (mkSource EmptyString rd)) as [s0 [e0|]] eqn:Hpop.
  - destruct (is_EOF e0) eqn:He.
    + intros (-> & ? & rd' & s & ? & ?)%IH. split_and!; [done..|].
      exists rd', s. split; [by right|done].
    + intros [= <- <-]. split_and!; [done..|].
      exists rd, s0. split; [by left|done].
  - intros (-> & ? & rd' & s & ? & ?)%IH. split_and!; [done..|].
    exists rd', s. split; [by right|done].
Qed.

(** * Chunk counts *)



(** * Panics of split *)

Lemma split_loop_panic F fuel limit in_ cn err w w' msg :
  split_loop F fuel limit in_ cn err w = (w', Panic msg) →
  msg = "makeslice: cap out of range".
Proof.
  revert in_ cn err w. induction fuel as [|fuel IH]; intros in_ cn err w; simpl.
  { by destruct err. }
  destruct err as [e|]; [done|]. unfold bind at 1, lift at 1, readLines.
  destruct (_ || _); [by intros [= _ <-]|].
  destruct (readLines_loop _ _ _) as [[lines err1] in'].
  case_match; [done|]. case_match; [done|].
  unfold bind, call. destruct (writeChunk _ _ _) as [w1 [name err2]].
  apply IH.
Qed.

Lemma length_join_perm (l l' : list string) :
  l ≡ₚ l' → String.length (join l) = String.length (join l').
Proof.
  induction 1 as [|x l l' _ IH|x y l|l l' l'' _ IH1 _ IH2]; simpl.
  - done.
  - rewrite !length_append. lia.
  - rewrite !length_append. lia.
  - congruence.
Qed.

(** A file whose name does not start like a temporary name can be added to a
    well-formed world. *)
Lemma tempname_head prefix k :
  prefix = chunk_prefix ∨ prefix = merge_prefix →
  ∃ rest, tempname prefix k = String "f" rest.
Proof. intros [->| ->]; eexists; reflexivity. Qed.

Lemma wf_insert (name c : string) (w : world) :
  wf w → (∀ rest, name ≠ String "f" rest) →
  wf (set_fs (insert name c) w).
Proof.
  intros Hwf Hname k Hk. simpl in Hk. destruct (Hwf k Hk) as [Hc Hm]. simpl.
  split; (rewrite lookup_insert_ne; [done|]).
  - destruct (tempname_head chunk_prefix k) as [rest Hrest]; [by left|].
    rewrite Hrest. apply Hname.
  - destruct (tempname_head merge_prefix k) as [rest Hrest]; [by right|].
    rewrite Hrest. apply Hname.
Qed.

(** * The claims *)

(** C1.  For every finite input the sort returns without error, and its
    output (the file [sortLines] returns, the file [sortLinesFile] fills, the
    bytes [sortLinesWrite] writes) holds the same lines as the input, in
    non-decreasing byte order.  A line is taken with its terminator, and the
    unterminated last line of the input counts with a terminator; the lines
    other than blank ones are a special case.  The chunk limit is positive, as
    [main] ensures, and at most [max_cap], the largest capacity the [make] of
    [readLines] accepts; [fuel] bounds the depth of the recursion of [merge],
    and [pieces] is the way the copy to the destination is cut into writes. *)
Theorem C1_sort_is_sorted_permutation sched pieces (data : string) (limit : Z)
    (fuel : nat) (outfile : string) (w : world) :
  fair_sched sched → whole_stream pieces →
  (1 ≤ limit ≤ max_cap)%Z → wf w → String.length data < fuel →
  ∃ output,
    (∃ w' name,
        sortLines no_faults sched fuel (rd data) limit w
          = (w', Done (name, None)) ∧
        fs w' !! name = Some output) ∧
    (∃ w',
        sortLinesFile no_faults sched fuel (rd data) limit outfile w
          = (w', Done None) ∧
        fs w' !! outfile = Some output) ∧
    (∃ w',
        sortLinesWrite no_faults sched pieces fuel (rd data) limit
          (EmptyString : Buffer) w
          = (w', Done (output, None))) ∧
    output = join (lines_of output) ∧
    lines_of output ≡ₚ lines_of data ∧
    filter (λ l, l ≠ NL) (lines_of output) ≡ₚ filter (λ l, l ≠ NL) (lines_of data) ∧
    Sorted String.le (lines_of output).
Proof.
  intros Hfair Hpieces Hlimit Hwf Hfuel.
  exists (join (sort_Strings (lines_of data))).
  rewrite lines_of_sorted_output. split_and!.
  - destruct (sortLines_spec sched Hfair fuel data limit w)
      as (w' & name & Hrun & Hout & _); [done..|]. by eauto.
  - by apply sortLinesFile_spec.
  - by apply sortLinesWrite_spec.
  - done.
  - apply sort_Strings_Permutation.
  - by rewrite sort_Strings_Permutation.
  - apply sort_Strings_Sorted.
Qed.

Lemma C1_witness :
  ∃ output,
    (∃ w' name,
        sortLines no_faults id_sched 20
          (rd (line "pear" +:+ line "fig" +:+ "apple")) 2 world0
          = (w', Done (name, None)) ∧
        fs w' !! name = Some output) ∧
    (∃ w',
        sortLinesFile no_faults id_sched 20
          (rd (line "pear" +:+ line "fig" +:+ "apple")) 2 "sorted.txt" world0
          = (w', Done None) ∧
        fs w' !! "sorted.txt" = Some output) ∧
    (∃ w',
        sortLinesWrite no_faults id_sched bytewise 20
          (rd (line "pear" +:+ line "fig" +:+ "apple")) 2
          (EmptyString : Buffer) world0
          = (w', Done (output, None))) ∧
    output = join (lines_of output) ∧
    lines_of output ≡ₚ lines_of (line "pear" +:+ line "fig" +:+ "apple") ∧
    filter (λ l, l ≠ NL) (lines_of output)
      ≡ₚ filter (λ l, l ≠ NL)
           (lines_of (line "pear" +:+ line "fig" +:+ "apple")) ∧
    Sorted String.le (lines_of output).
Proof.
  apply (C1_sort_is_sorted_permutation id_sched bytewise
           (line "pear" +:+ line "fig" +:+ "apple") 2 20 "sorted.txt" world0).
  - apply id_sched_fair.
  - apply bytewise_whole.
  - unfold max_cap. lia.
  - apply wf_world0.
  - vm_compute. lia.
Defined.

(** C2.  The k-way merge, for every order in which the map of sources may be
    visited.  [newSourceSet] keeps exactly the sources whose first line could
    be read, leaving out those already at their end, and a read error other
    than the end of the stream ends the merge with that error.  A step of the
    merge over a non-empty set takes a source whose top line is a least one,
    gives that line, and advances that source alone: the source is replaced by
    its advanced state, is removed when the stream is at its end, and a read
    error is returned.  The loop writes the line of each step and goes on; it
    stops without error when the set is empty, and on a read error it returns
    the error at once, the line of that step unwritten.  Over sorted sources
    the lines written are all the lines, in ascending order. *)
Theorem C2_k_way_merge {W} `{!stringWriter W} (orders : nat → iteration_order) :
  fair_orders orders →
  (∀ rs ss, newSourceSet rs = (ss, None) →
     ∀ p s, ss !! p = Some s ↔
            ∃ rd, rs !! p = Some rd ∧ pop (mkSource EmptyString rd) = (s, None)) ∧
  (∀ rs ss e, newSourceSet rs = (ss, Some e) →
     is_EOF e = false ∧
     (∃ rd s, rd ∈ rs ∧ pop (mkSource EmptyString rd) = (s, Some e)) ∧
     ∀ w : W, mergeSimple orders rs w = Done (w, Some e)) ∧
  (∀ k (ss : sourceSet), ss ≠ ∅ →
     ∃ p m,
       ss !! p = Some m ∧
       (∀ q s, ss !! q = Some s → String.le (top m) (top s)) ∧
       popMin (orders k) ss =
         Done (match pop m with
               | (m', None) => (top m, None, <[p := m']> ss)
               | (m', Some e) =>
                   if is_EOF e then (top m, None, delete p ss)
                   else (top m, Some e, <[p := m']> ss)
               end)) ∧
  (∀ fuel k (w : W), mergeSimple_loop orders fuel k ∅ w None = Done (w, None)) ∧
  (∀ fuel k (ss ss' : sourceSet) (w : W) x,
     ss ≠ ∅ → popMin (orders k) ss = Done (x, None, ss') →
     mergeSimple_loop orders (S fuel) k ss w None =
       mergeSimple_loop orders fuel (S k) ss'
         (WriteString x w).1 (WriteString x w).2) ∧
  (∀ fuel k (ss ss' : sourceSet) (w : W) x e,
     ss ≠ ∅ → popMin (orders k) ss = Done (x, Some e, ss') →
     mergeSimple_loop orders (S fuel) k ss w None = Done (w, Some e)) ∧
  (∀ rs (w : W), Forall sorted_reader rs →
     mergeSimple orders rs w =
       Done (write_lines (sort_Strings (rs ≫= full_lines ∘ pending)) w)).
Proof.
  intros Hfair. split_and!.
  - intros rs ss Hss p s.
    rewrite (newSourceSet_loop_lookup rs 0 ∅ ss ltac:(done) Hss p s).
    rewrite lookup_empty. split.
    + intros [?|(i & rd & -> & ? & ?)]; [done|]. by exists rd.
    + intros (rd & ? & ?). right. by exists p, rd.
  - intros rs ss e Hss.
    destruct (newSourceSet_loop_error _ _ _ _ _ Hss) as (_ & He & Hrd).
    split_and!; [done..|]. intros w. unfold mergeSimple. by rewrite Hss.
  - intros k ss Hne. by apply popMin_step.
  - intros fuel k w. by destruct fuel.
  - intros fuel k ss ss' w x Hne%size_pos_nonempty Hpop. cbn [mergeSimple_loop].
    rewrite !bool_decide_true by done. simpl. rewrite Hpop.
    by destruct (WriteString x w).
  - intros fuel k ss ss' w x e Hne%size_pos_nonempty Hpop. cbn [mergeSimple_loop].
    rewrite !bool_decide_true by done. simpl. by rewrite Hpop.
  - intros rs w Hrs. by apply mergeSimple_sorted.
Qed.

Lemma C2_witness :
  mergeSimple (id_sched 0)
    [rd (line "apple" +:+ line "cherry"); rd EmptyString; rd (line "banana")]
    (EmptyString : Buffer)
  = Done (write_lines
            (sort_Strings
               ([rd (line "apple" +:+ line "cherry"); rd EmptyString;
                 rd (line "banana")] ≫= full_lines ∘ pending))
            (EmptyString : Buffer)).
Proof.
  apply (C2_k_way_merge (W := Buffer) (id_sched 0)).
  - intros k l. reflexivity.
  - repeat constructor.
Defined.

(** C3.  Every direct merge [merge] starts, at any depth of its recursion and
    whether or not the recursion ends within the budget, takes at most [limit]
    names, and the number of input files open at once never passes the larger
    of its earlier peak and [limit] more than were open at the call. *)
Theorem C3_merge_opens_at_most_limit F sched (fuel : nat) (names : list string)
    (limit : Z) (w : world) :
  fair_sched sched → (1 ≤ limit)%Z →
  (∃ calls,
      merges (merge F sched fuel names limit w).1 = merges w ++ calls ∧
      Forall (λ group, (len group ≤ limit)%Z) calls) ∧
  (Z.of_nat (peak (merge F sched fuel names limit w).1)
     ≤ Z.max (Z.of_nat (peak w)) (Z.of_nat (nopen w) + limit))%Z.
Proof.
  intros Hfair _.
  destruct (safe_merge F sched Hfair fuel names limit w) as [(Hcalls & _ & Hpeak) _].
  done.
Qed.

Lemma C3_witness :
  (∃ calls,
      merges (merge no_faults id_sched 5 ["a"; "b"; "c"] 2 world0).1
        = merges world0 ++ calls ∧
      Forall (λ group, (len group ≤ 2)%Z) calls) ∧
  (Z.of_nat (peak (merge no_faults id_sched 5 ["a"; "b"; "c"] 2 world0).1)
     ≤ Z.max (Z.of_nat (peak world0)) (Z.of_nat (nopen world0) + 2))%Z.
Proof.
  apply (C3_merge_opens_at_most_limit no_faults id_sched 5 ["a"; "b"; "c"] 2 world0).
  - apply id_sched_fair.
  - lia.
Defined.

(** C4.  With a fan-in of at least two, [merge] on a non-empty list returns
    once its budget is no less than the number of names, whatever fails: it
    gives one name and an error value, and without error the name is the only
    input or a merge file.  When nothing fails and the names are distinct
    sorted files, it returns without error the name of a file that is there
    and holds all the lines of the inputs in ascending order, the other inputs
    deleted.  [sortLines] calls [merge] on the chunks of [split] with the
    limit [min(100, max(10, limit))], which lies between 10 and 100 for every
    chunk limit, so it returns whenever [split] has returned. *)
Theorem C4_merge_terminates F sched (fuel : nat) (names : list string)
    (limit : Z) (w : world) :
  fair_sched sched → names ≠ [] → (2 ≤ limit)%Z → length names ≤ fuel →
  (∃ w' name err,
      merge F sched fuel names limit w = (w', Done (name, err)) ∧
      (err = None → names = [name] ∨ ∃ j, name = tempname merge_prefix j)) ∧
  (∀ cs,
      NoDup names → Forall (λ n, n ≠ EmptyString) names → wf w →
      Forall2 (λ n c, fs w !! n = Some c) names cs →
      Forall (λ c, tail_of c = EmptyString ∧ Sorted String.le (lines_of c)) cs →
      ∃ w' name content,
        merge no_faults sched fuel names limit w = (w', Done (name, None)) ∧
        name ≠ EmptyString ∧
        fs w' !! name = Some content ∧
        tail_of content = EmptyString ∧
        lines_of content ≡ₚ cs ≫= lines_of ∧
        Sorted String.le (lines_of content) ∧
        (∀ k, k ∈ names → k ≠ name → fs w' !! k = None) ∧
        (∀ k, k ∉ names → k ≠ name → fs w' !! k = fs w !! k)) ∧
  (∀ (r : Reader) (chunk_limit : Z) (w0 w1 : world) (chunk_names : list string),
      split F r chunk_limit w0 = (w1, Done (chunk_names, None)) →
      length chunk_names ≤ fuel →
      (10 ≤ Z.min 100 (Z.max 10 chunk_limit) ≤ 100)%Z ∧
      sortLines F sched fuel r chunk_limit w0
        = merge F sched fuel chunk_names (Z.min 100 (Z.max 10 chunk_limit)) w1 ∧
      ∃ w' name err,
        sortLines F sched fuel r chunk_limit w0 = (w', Done (name, err))).
Proof.
  intros Hfair Hne Hlimit Hfuel. split_and!.
  - pose proof (merge_outcome F sched Hfair fuel names limit w Hlimit Hne) as Hend.
    destruct (merge F sched fuel names limit w) as [w' [[name err]| |]];
      simpl in Hend; [by eauto|done|lia].
  - intros cs Hnodup Hnames Hwf Hholds Hgood.
    assert (Forall good_file cs) as Hgood'.
    { eapply Forall_impl; [exact Hgood|]. intros c [Ht Hs]. split; [done|].
      unfold lines_of in Hs. rewrite Ht in Hs. simpl in Hs.
      by rewrite app_nil_r in Hs. }
    destruct (merge_sorted sched Hfair limit Hlimit fuel names cs w)
      as (w' & out & Hrun & (Hout & Hdel & Hframe & Hclass & _) & _); [done..|].
    destruct (good_file_merged_content cs) as [Ht Hs].
    assert (lines_of (merged_content cs) = full_lines (merged_content cs)) as Hfull.
    { unfold lines_of. rewrite Ht. simpl. apply app_nil_r. }
    exists w', out, (merged_content cs). rewrite Hfull.
    split_and!; [done| |done|done| |done|done|done].
    + destruct Hclass as [Hin|(j & -> & _)]; [|done].
      by eapply Forall_forall in Hnames.
    + rewrite full_lines_merged_content, sort_Strings_Permutation.
      clear -Hgood. induction Hgood as [|c cs [Ht _] _ IH]; [done|].
      rewrite !bind_cons, IH. unfold lines_of. rewrite Ht. simpl.
      by rewrite app_nil_r.
  - intros r chunk_limit w0 w1 chunk_names Hsplit Hchunks.
    assert (sortLines F sched fuel r chunk_limit w0
            = merge F sched fuel chunk_names
                (Z.min 100 (Z.max 10 chunk_limit)) w1)
      as Hrun.
    { unfold sortLines, bind. by rewrite Hsplit, min_spec, max_spec. }
    split; [lia|]. split; [done|]. rewrite Hrun.
    assert (chunk_names ≠ []) as Hsome.
    { eapply split_loop_nonempty; [|exact Hsplit]. by right. }
    pose proof (merge_outcome F sched Hfair fuel chunk_names
                  (Z.min 100 (Z.max 10 chunk_limit)) w1 ltac:(lia) Hsome) as Hend.
    destruct (merge F sched fuel chunk_names _ w1) as [w' [[name err]| |]];
      simpl in Hend; [by eauto|done|lia].
Qed.

Lemma C4_witness :
  (∃ w' name err,
      merge no_faults id_sched 3 ["a"; "b"; "c"] 2
        (set_fs (insert "a" (line "x" +:+ line "z"))
           (set_fs (insert "b" (line "y"))
              (set_fs (insert "c" (line "w")) world0)))
        = (w', Done (name, err)) ∧
      (err = None →
       ["a"; "b"; "c"] = [name] ∨ ∃ j, name = tempname merge_prefix j)) ∧
  (∃ w' name content,
      merge no_faults id_sched 3 ["a"; "b"; "c"] 2
        (set_fs (insert "a" (line "x" +:+ line "z"))
           (set_fs (insert "b" (line "y"))
              (set_fs (insert "c" (line "w")) world0)))
        = (w', Done (name, None)) ∧
      name ≠ EmptyString ∧
      fs w' !! name = Some content ∧
      tail_of content = EmptyString ∧
      lines_of content ≡ₚ [line "x" +:+ line "z"; line "y"; line "w"] ≫= lines_of ∧
      Sorted String.le (lines_of content) ∧
      (∀ k, k ∈ ["a"; "b"; "c"] → k ≠ name → fs w' !! k = None) ∧
      (∀ k, k ∉ ["a"; "b"; "c"] → k ≠ name →
            fs w' !! k =
            fs (set_fs (insert "a" (line "x" +:+ line "z"))
                  (set_fs (insert "b" (line "y"))
                     (set_fs (insert "c" (line "w")) world0))) !! k)) ∧
  (∃ w' name err,
      sortLines no_faults id_sched 3 (rd (line "b" +:+ line "a")) 1 world0
        = (w', Done (name, err))).
Proof.
  destruct (C4_merge_terminates no_faults id_sched 3 ["a"; "b"; "c"] 2
              (set_fs (insert "a" (line "x" +:+ line "z"))
                 (set_fs (insert "b" (line "y"))
                    (set_fs (insert "c" (line "w")) world0))))
    as (Hreturns & Hmerges & Hsort).
  - apply id_sched_fair.
  - discriminate.
  - lia.
  - simpl. lia.
  - split_and!.
    + exact Hreturns.
    + apply (Hmerges [line "x" +:+ line "z"; line "y"; line "w"]).
      * by apply (bool_decide_unpack _); vm_compute.
      * repeat constructor; discriminate.
      * repeat (apply wf_insert; [|discriminate]). apply wf_world0.
      * repeat constructor.
      * repeat constructor; vm_compute; by intros [=].
    + edestruct (Hsort (rd (line "b" +:+ line "a")) 1%Z world0) as (_ & _ & Hres);
        [vm_compute; reflexivity|simpl; lia|exact Hres].
Defined.




(** C6.  For every input that ends in a non-empty line without a terminator:
    the input is its terminated lines followed by that line.  Wherever in the
    stream a call of [readLines] starts, after [k] of the terminated lines,
    it returns the next lines as they are, each with its one terminator; and
    the call that reaches the last line returns it with one terminator
    appended, after the terminated lines that were left.  The sorted output,
    whatever the chunk limit, holds the terminated lines of the input and that
    line with its one terminator, and nothing unterminated. *)
Theorem C6_last_line_gets_terminator sched pieces (data : string) (limit : Z)
    (fuel : nat) (w : world) :
  fair_sched sched → whole_stream pieces → wf w → String.length data < fuel →
  tail_of data ≠ EmptyString → (1 ≤ limit ≤ max_cap)%Z →
  data = join (full_lines data) +:+ tail_of data ∧
  Forall is_line (full_lines data) ∧
  is_line (tail_of data +:+ NL) ∧
  (∀ k, k ≤ length (full_lines data) →
     readLines (rd (join (drop k (full_lines data)) +:+ tail_of data)) limit
     = if decide (Z.to_nat limit ≤ length (full_lines data) - k)
       then Done (take (Z.to_nat limit) (drop k (full_lines data)), None,
                  rd (join (drop (k + Z.to_nat limit) (full_lines data))
                      +:+ tail_of data))
       else Done (drop k (full_lines data) ++ [tail_of data +:+ NL], Some EOF,
                  rd EmptyString)) ∧
  ∃ w' output,
    sortLinesWrite no_faults sched pieces fuel (rd data) limit
      (EmptyString : Buffer) w
      = (w', Done (output, None)) ∧
    lines_of output ≡ₚ full_lines data ++ [tail_of data +:+ NL] ∧
    tail_of data +:+ NL ∈ lines_of output ∧
    tail_of output = EmptyString.
Proof.
  intros Hfair Hpieces Hwf Hfuel Htail Hlimit.
  destruct (parse_spec data) as (Hdata & Hlines & Hno).
  assert (lines_of data = full_lines data ++ [tail_of data +:+ NL]) as Hall.
  { unfold lines_of. by rewrite bool_decide_false. }
  split_and!; [done|done|by apply is_line_terminate| |].
  - intros k Hk. rewrite readLines_in_range by lia. unfold rd.
    rewrite readLines_loop_spec; [|by apply Forall_drop|done].
    rewrite length_drop. simpl. rewrite bool_decide_false by done.
    case_decide; [|done]. by rewrite drop_drop.
  - destruct (sortLinesWrite_spec sched Hfair pieces fuel data limit w)
      as (w' & Hrun); [done..|].
    eexists _, _. split; [exact Hrun|].
    rewrite lines_of_sorted_output. split_and!.
    + by rewrite sort_Strings_Permutation, Hall.
    + rewrite sort_Strings_Permutation, Hall.
      apply elem_of_app. right. apply list_elem_of_here.
    + apply tail_of_join, sort_Strings_is_line, lines_of_is_line.
Qed.

Lemma C6_witness :
  line "b" +:+ line "a" +:+ "zzz"
    = join (full_lines (line "b" +:+ line "a" +:+ "zzz"))
      +:+ tail_of (line "b" +:+ line "a" +:+ "zzz") ∧
  Forall is_line (full_lines (line "b" +:+ line "a" +:+ "zzz")) ∧
  is_line (tail_of (line "b" +:+ line "a" +:+ "zzz") +:+ NL) ∧
  (∀ k, k ≤ length (full_lines (line "b" +:+ line "a" +:+ "zzz")) →
     readLines
       (rd (join (drop k (full_lines (line "b" +:+ line "a" +:+ "zzz")))
            +:+ tail_of (line "b" +:+ line "a" +:+ "zzz"))) 2
     = if decide (Z.to_nat 2
                  ≤ length (full_lines (line "b" +:+ line "a" +:+ "zzz")) - k)
       then Done (take (Z.to_nat 2)
                    (drop k (full_lines (line "b" +:+ line "a" +:+ "zzz"))),
                  None,
                  rd (join (drop (k + Z.to_nat 2)
                              (full_lines (line "b" +:+ line "a" +:+ "zzz")))
                      +:+ tail_of (line "b" +:+ line "a" +:+ "zzz")))
       else Done (drop k (full_lines (line "b" +:+ line "a" +:+ "zzz"))
                    ++ [tail_of (line "b" +:+ line "a" +:+ "zzz") +:+ NL],
                  Some EOF, rd EmptyString)) ∧
  ∃ w' output,
    sortLinesWrite no_faults id_sched bytewise 10
      (rd (line "b" +:+ line "a" +:+ "zzz")) 2 (EmptyString : Buffer) world0
      = (w', Done (output, None)) ∧
    lines_of output
      ≡ₚ full_lines (line "b" +:+ line "a" +:+ "zzz")
         ++ [tail_of (line "b" +:+ line "a" +:+ "zzz") +:+ NL] ∧
    tail_of (line "b" +:+ line "a" +:+ "zzz") +:+ NL ∈ lines_of output ∧
    tail_of output = EmptyString.
Proof.
  apply (C6_last_line_gets_terminator id_sched bytewise
           (line "b" +:+ line "a" +:+ "zzz") 2 10 world0).
  - apply id_sched_fair.
  - apply bytewise_whole.
  - apply wf_world0.
  - vm_compute. lia.
  - vm_compute. discriminate.
  - unfold max_cap. lia.
Defined.

Example C6_zzz :
  (sortLinesWrite no_faults id_sched bytewise 10
     (rd (line "b" +:+ line "a" +:+ "zzz")) 2 (EmptyString : Buffer) world0).2
  = Done (line "a" +:+ line "b" +:+ line "zzz", None).
Proof. vm_compute. reflexivity. Qed.

(** C7, as the code has it.  The claim fails for a sorted input whose last
    line has no terminator: the output has one more byte. *)
Lemma C7_counterexample :
  Sorted String.le (lines_of "zzz") ∧
  (sortLinesWrite no_faults id_sched one_piece 4 (rd "zzz") 3
     (EmptyString : Buffer) world0).2
  = Done (line "zzz", None) ∧
  line "zzz" ≠ "zzz".
Proof.
  split_and!.
  - vm_compute. repeat constructor.
  - vm_compute. reflexivity.
  - vm_compute. discriminate.
Qed.

(** C7, amended.  For every input whose lines are already in ascending order
    the output is the input, with a terminator appended when the last line of
    the input has none: the output is the input byte for byte when the input
    is empty or ends with a newline.  Sorting the output of a sort gives it
    back byte for byte.  The limit is one that [readLines] accepts. *)
Theorem C7_sorted_input_is_kept sched pieces (data : string) (limit : Z)
    (fuel : nat) (w w2 : world) :
  fair_sched sched → whole_stream pieces →
  (1 ≤ limit ≤ max_cap)%Z → wf w → wf w2 → S (String.length data) < fuel →
  (Sorted String.le (lines_of data) →
   ∃ w',
     sortLinesWrite no_faults sched pieces fuel (rd data) limit
       (EmptyString : Buffer) w
       = (w', Done (data +:+ (if bool_decide (tail_of data = EmptyString)
                              then EmptyString else NL), None))) ∧
  (Sorted String.le (lines_of data) → tail_of data = EmptyString →
   ∃ w',
     sortLinesWrite no_faults sched pieces fuel (rd data) limit
       (EmptyString : Buffer) w
       = (w', Done (data, None))) ∧
  (∃ w' output w2',
     sortLinesWrite no_faults sched pieces fuel (rd data) limit
       (EmptyString : Buffer) w
       = (w', Done (output, None)) ∧
     sortLinesWrite no_faults sched pieces fuel (rd output) limit
       (EmptyString : Buffer) w2
       = (w2', Done (output, None))).
Proof.
  intros Hfair Hpieces Hlimit Hwf Hwf2 Hfuel.
  assert (∀ d, Sorted String.le (lines_of d) →
            join (sort_Strings (lines_of d))
            = d +:+ (if bool_decide (tail_of d = EmptyString)
                     then EmptyString else NL)) as Hkeep.
  { intros d Hs. by rewrite sort_Strings_sorted, join_lines_of. }
  split_and!.
  - intros Hsorted.
    destruct (sortLinesWrite_spec sched Hfair pieces fuel data limit w)
      as (w' & Hrun); [done|done|done|lia|].
    exists w'. by rewrite Hrun, Hkeep.
  - intros Hsorted Htail.
    destruct (sortLinesWrite_spec sched Hfair pieces fuel data limit w)
      as (w' & Hrun); [done|done|done|lia|].
    exists w'. rewrite Hrun, Hkeep by done.
    by rewrite bool_decide_true, append_nil_r.
  - destruct (sortLinesWrite_spec sched Hfair pieces fuel data limit w)
      as (w' & Hrun); [done|done|done|lia|].
    set (output := join (sort_Strings (lines_of data))) in *.
    destruct (sortLinesWrite_spec sched Hfair pieces fuel output limit w2)
      as (w2' & Hrun2); [done|done|done| |].
    { unfold output. rewrite (length_join_perm _ _ (sort_Strings_Permutation _)).
      pose proof (join_lines_of data) as Hj. apply (f_equal String.length) in Hj.
      rewrite length_append in Hj. case_bool_decide; simpl in Hj; lia. }
    exists w', output, w2'. split; [done|]. rewrite Hrun2. do 2 f_equal.
    unfold output. rewrite lines_of_sorted_output.
    by rewrite sort_Strings_sorted by apply sort_Strings_Sorted.
Qed.

Lemma C7_witness :
  (Sorted String.le (lines_of (line "a" +:+ "b")) →
   ∃ w',
     sortLinesWrite no_faults id_sched one_piece 10 (rd (line "a" +:+ "b")) 1
       (EmptyString : Buffer) world0
       = (w', Done ((line "a" +:+ "b") +:+
                      (if bool_decide (tail_of (line "a" +:+ "b") = EmptyString)
                       then EmptyString else NL), None))) ∧
  (Sorted String.le (lines_of (line "a" +:+ "b")) →
   tail_of (line "a" +:+ "b") = EmptyString →
   ∃ w',
     sortLinesWrite no_faults id_sched one_piece 10 (rd (line "a" +:+ "b")) 1
       (EmptyString : Buffer) world0
       = (w', Done (line "a" +:+ "b", None))) ∧
  (∃ w' output w2',
     sortLinesWrite no_faults id_sched one_piece 10 (rd (line "a" +:+ "b")) 1
       (EmptyString : Buffer) world0
       = (w', Done (output, None)) ∧
     sortLinesWrite no_faults id_sched one_piece 10 (rd output) 1
       (EmptyString : Buffer) world0
       = (w2', Done (output, None))).
Proof.
  apply (C7_sorted_input_is_kept id_sched one_piece (line "a" +:+ "b") 1 10
           world0 world0).
  - apply id_sched_fair.
  - apply one_piece_whole.
  - unfold max_cap. lia.
  - apply wf_world0.
  - apply wf_world0.
  - vm_compute. lia.
Defined.



(** C9.  Whenever [split] returns without error it returns at least one
    chunk name, whatever the stream holds and whatever fails; for the empty
    input, on a limit that [readLines] accepts, it writes and returns one
    empty chunk file; and [sortLines] never reaches the panic of [merge] on an
    empty list of names. *)
Theorem C9_split_returns_a_chunk F sched (fuel : nat) (r : Reader) (limit : Z)
    (w : world) :
  fair_sched sched →
  (∀ w' names, split F r limit w = (w', Done (names, None)) → names ≠ []) ∧
  ((1 ≤ limit ≤ max_cap)%Z →
   ∃ w' name,
     split no_faults (rd EmptyString) limit w = (w', Done ([name], None)) ∧
     fs w' !! name = Some EmptyString) ∧
  (sortLines F sched fuel r limit w).2 ≠ Panic "Empty names".
Proof.
  intros Hfair.
  assert (∀ w' names, split F r limit w = (w', Done (names, None)) → names ≠ [])
    as Hsome.
  { intros w' names Hrun. eapply split_loop_nonempty; [|exact Hrun]. by right. }
  split_and!; [done| |].
  - intros Hlimit. rewrite split_spec by done. simpl. eexists _, _.
    split; [done|]. simpl. apply lookup_insert_eq.
  - unfold sortLines, bind.
    destruct (split F r limit w) as [w1 [[names [e|]]|msg|]] eqn:Hsplit; simpl.
    + done.
    + pose proof (merge_outcome F sched Hfair fuel names (min 100 (max 10 limit)) w1)
        as Hend.
      destruct (merge F sched fuel names _ w1) as [w2 [[name err]|msg|]];
        simpl in *; [done| |done].
      exfalso. apply Hend; [|by eapply Hsome].
      pose proof (clamp_limit limit). lia.
    + apply split_loop_panic in Hsplit as ->. done.
    + done.
Qed.

Lemma C9_witness :
  (∀ w' names,
      split no_faults (rd (line "a")) 1 world0 = (w', Done (names, None)) →
      names ≠ []) ∧
  (∃ w' name,
     split no_faults (rd EmptyString) 1 world0 = (w', Done ([name], None)) ∧
     fs w' !! name = Some EmptyString) ∧
  (sortLines no_faults id_sched 3 (rd (line "a")) 1 world0).2
    ≠ Panic "Empty names".
Proof.
  destruct (C9_split_returns_a_chunk no_faults id_sched 3 (rd (line "a")) 1
              world0 id_sched_fair) as (Hsome & Hempty & Hpanic).
  split_and!; [exact Hsome| |exact Hpanic].
  apply Hempty. unfold max_cap. lia.
Defined.

(** C10.  [mergeSimple] writes the same bytes whatever the orders in which
    [popMin] visits the map: for sorted streams that end with the end of the
    stream, two runs with any two sequences of orders return the same writer
    and the same error. *)
Theorem C10_mergeSimple_deterministic {W} `{!stringWriter W}
    (orders1 orders2 : nat → iteration_order) (rs : list Reader) (w : W) :
  fair_orders orders1 → fair_orders orders2 → Forall sorted_reader rs →
  mergeSimple orders1 rs w = mergeSimple orders2 rs w.
Proof.
  intros H1 H2 Hrs. by rewrite !mergeSimple_sorted.
Qed.

Lemma C10_witness :
  mergeSimple (id_sched 0)
    [rd (line "a" +:+ line "c"); rd (line "a" +:+ line "b")]
    (EmptyString : Buffer)
  = mergeSimple (rev_sched 0)
      [rd (line "a" +:+ line "c"); rd (line "a" +:+ line "b")]
      (EmptyString : Buffer).
Proof.
  apply (C10_mergeSimple_deterministic (W := Buffer) (id_sched 0) (rev_sched 0)).
  - intros k. apply id_sched_fair.
  - intros k. apply rev_sched_fair.
  - repeat constructor.
Defined.

(** On a tie the source that is advanced does depend on the order: with the
    two sources of the example above, the two orders advance different
    sources, and give the same line. *)
Example popMin_tie_depends_on_order :
  let ss := (newSourceSet
               [rd (line "a" +:+ line "c"); rd (line "a" +:+ line "b")]).1 in
  match popMin (id_sched 0 0) ss, popMin (rev_sched 0 0) ss with
  | Done (x1, _, ss1), Done (x2, _, ss2) =>
      x1 = x2 ∧ top <$> ss1 !! 0 ≠ top <$> ss2 !! 0
  | _, _ => False
  end.
Proof. vm_compute. split; [reflexivity|discriminate]. Qed.

(** * Further properties of the code *)

Lemma chunks_full {A} n (l : list A) :
  1 ≤ n →
  ∀ i g, chunks n l !! i = Some g → S i < length (chunks n l) → length g = n.
Proof.
  intros Hn.
  apply (chunks_ind n (λ l gs, ∀ i g, gs !! i = Some g → S i < length gs →
                                 length g = n)); [done|done|].
  clear l. intros l Hl IH i g Hi Hlen. destruct i as [|i]; simpl in *.
  - injection Hi as <-. rewrite length_take.
    destruct (decide (drop n l = [])) as [Hd|Hd].
    + rewrite Hd, chunks_nil in Hlen. simpl in Hlen. lia.
    + assert (n < length l); [|lia].
      destruct (decide (n < length l)); [done|].
      exfalso. apply Hd. apply drop_ge. lia.
  - apply (IH i g Hi). lia.
Qed.

(** X1.  [strSliceSplit] panics on a limit below one.  On a limit of at
    least one it returns groups that, put one after another, are the slice it
    was given, each group with at least one and at most [limit] names and
    every group but the last with exactly [limit]. *)
Theorem X1_strSliceSplit_partition (s : list string) (limit : Z) :
  ((limit < 1)%Z → strSliceSplit s limit = Panic "Non-positive limit") ∧
  ((1 ≤ limit)%Z →
   ∃ groups,
     strSliceSplit s limit = Done groups ∧
     concat groups = s ∧
     Forall (λ g, 1 ≤ length g ≤ Z.to_nat limit) groups ∧
     ∀ i g, groups !! i = Some g → S i < length groups →
            length g = Z.to_nat limit).
Proof.
  split.
  - intros Hlimit. unfold strSliceSplit. by destruct (Z.ltb_spec limit 1); [|lia].
  - intros Hlimit. exists (chunks (Z.to_nat limit) s). split_and!.
    + by apply strSliceSplit_chunks.
    + apply concat_chunks. lia.
    + apply chunks_bounds. lia.
    + apply chunks_full. lia.
Qed.

Lemma X1_witness :
  ∃ groups,
    strSliceSplit ["a"; "b"; "c"; "d"; "e"; "f"; "g"] 3 = Done groups ∧
    concat groups = ["a"; "b"; "c"; "d"; "e"; "f"; "g"] ∧
    Forall (λ g, 1 ≤ length g ≤ Z.to_nat 3) groups ∧
    ∀ i g, groups !! i = Some g → S i < length groups →
           length g = Z.to_nat 3.
Proof.
  apply (proj2 (X1_strSliceSplit_partition
                  ["a"; "b"; "c"; "d"; "e"; "f"; "g"] 3)).
  lia.
Defined.

(** X2.  [readLines] panics in its [make] exactly when the limit is negative
    or larger than [max_cap].  Otherwise, on a stream that ends with the end
    of the stream, it returns the first [limit] lines of the stream (all of
    them when there are fewer), never more than [limit], and leaves the stream
    at the lines after them, so that reading on gives the rest and no line is
    lost or read twice.  It reports the end of the stream exactly when it ran
    into it, that is when the stream had fewer than [limit] terminated
    lines. *)
Theorem X2_readLines_reads_the_next_lines (data : string) (limit : Z) :
  ((limit < 0 ∨ max_cap < limit)%Z →
   readLines (rd data) limit = Panic "makeslice: cap out of range") ∧
  ((0 ≤ limit ≤ max_cap)%Z →
   ∃ lines err rest,
     readLines (rd data) limit = Done (lines, err, rd rest) ∧
     lines = take (Z.to_nat limit) (lines_of data) ∧
     lines ++ lines_of rest = lines_of data ∧
     (len lines ≤ limit)%Z ∧
     (err = None ↔ (limit ≤ len (full_lines data))%Z) ∧
     (err ≠ None → err = Some EOF ∧ rest = EmptyString)).
Proof.
  split.
  - apply readLines_out_of_range.
  - intros Hlimit. rewrite readLines_in_range by done.
    rewrite readLines_rd. eexists _, _, _. split; [done|].
    rewrite lines_of_rest_after, take_drop. unfold len.
    split_and!; [done|done|..].
    + rewrite length_take. lia.
    + case_decide; split; (done || lia).
    + unfold rest_after. by case_decide.
Qed.

Lemma X2_witness :
  readLines (rd (line "c" +:+ line "a" +:+ "b")) (2 ^ 60)
    = Panic "makeslice: cap out of range" ∧
  ∃ lines err rest,
    readLines (rd (line "c" +:+ line "a" +:+ "b")) 2
      = Done (lines, err, rd rest) ∧
    lines = take (Z.to_nat 2) (lines_of (line "c" +:+ line "a" +:+ "b")) ∧
    lines ++ lines_of rest = lines_of (line "c" +:+ line "a" +:+ "b") ∧
    (len lines ≤ 2)%Z ∧
    (err = None ↔ (2 ≤ len (full_lines (line "c" +:+ line "a" +:+ "b")))%Z) ∧
    (err ≠ None → err = Some EOF ∧ rest = EmptyString).
Proof.
  split.
  - apply (proj1 (X2_readLines_reads_the_next_lines
                    (line "c" +:+ line "a" +:+ "b") (2 ^ 60))).
    right. unfold max_cap. lia.
  - apply (proj2 (X2_readLines_reads_the_next_lines
                    (line "c" +:+ line "a" +:+ "b") 2)).
    unfold max_cap. lia.
Defined.

(** X3.  When the stream fails with a read error, [readLines], on a limit
    its [make] accepts, returns the lines it read in full before the error
    together with the error, and drops the bytes of the line the error
    interrupted: they get no terminator and are not returned. *)
Theorem X3_readLines_read_error (ls : list string) (t : string) (e : error)
    (limit : Z) :
  Forall is_line ls → has_newline t = false → e ≠ EOF →
  (len ls < limit ≤ max_cap)%Z →
  readLines (mkReader (join ls +:+ t) e) limit
    = Done (ls, Some e, mkReader EmptyString e).
Proof.
  intros Hls Ht He Hlimit. unfold len in Hlimit.
  rewrite readLines_in_range by lia.
  rewrite readLines_loop_spec by done. rewrite decide_False by lia.
  by destruct e.
Qed.

Lemma X3_witness :
  readLines (mkReader (join [line "b"; line "a"] +:+ "half") ErrRead) 5
    = Done ([line "b"; line "a"], Some ErrRead, mkReader EmptyString ErrRead).
Proof.
  apply (X3_readLines_read_error [line "b"; line "a"] "half" ErrRead 5).
  - repeat constructor; by eexists.
  - reflexivity.
  - discriminate.
  - unfold max_cap, len. simpl. lia.
Defined.

(** X4.  [mergeSimple] always returns: whatever the streams hold and
    however they fail, and in whatever order the map is visited, the loop ends
    and [popMin] is never called on an empty set, so its dereference of [nil]
    is never reached. *)
Theorem X4_mergeSimple_returns {W} `{!stringWriter W}
    (orders : nat → iteration_order) (rs : list Reader) (w : W) :
  fair_orders orders →
  ∃ w' err, mergeSimple orders rs w = Done (w', err).
Proof. apply mergeSimple_total. Qed.

Lemma X4_witness :
  ∃ w' err,
    mergeSimple (rev_sched 0)
      [mkReader (line "b" +:+ "x") ErrRead; rd (line "a" +:+ line "c")]
      (EmptyString : Buffer)
    = Done (w', err).
Proof.
  apply (X4_mergeSimple_returns (W := Buffer) (rev_sched 0)).
  intros k. apply rev_sched_fair.
Defined.

(** X5.  [mergeSimple] never writes the bytes a source holds after its last
    newline: a source is dropped when its read reaches the end of the stream,
    with whatever that read returned.  Over sources made of sorted lines [ls]
    followed by unterminated bytes [t], the bytes written are the lines of all
    the sources in ascending order, and no [t]. *)
Theorem X5_mergeSimple_drops_unterminated_tails
    (orders : nat → iteration_order) (srcs : list (list string * string))
    (b : Buffer) :
  fair_orders orders →
  Forall (λ src, Forall is_line src.1 ∧ Sorted String.le src.1 ∧
                 has_newline src.2 = false) srcs →
  mergeSimple orders ((λ src, rd (join src.1 +:+ src.2)) <$> srcs) b
    = Done (b +:+ join (sort_Strings (srcs ≫= fst)), None).
Proof.
  intros Hfair Hsrcs.
  assert (∀ src, src ∈ srcs → full_lines (join src.1 +:+ src.2) = src.1) as Hfull.
  { intros src Hin. eapply Forall_forall in Hsrcs as (Hl & _ & Ht); [|exact Hin].
    unfold full_lines. by rewrite parse_join. }
  assert (((λ src, rd (join src.1 +:+ src.2)) <$> srcs) ≫= full_lines ∘ pending
          = srcs ≫= fst) as Hbind.
  { clear Hsrcs. induction srcs as [|src srcs IH]; [done|].
    rewrite fmap_cons, !bind_cons. f_equal.
    + apply Hfull, list_elem_of_here.
    + apply IH. intros src' Hin. apply Hfull. by apply list_elem_of_further. }
  rewrite mergeSimple_sorted; [|done|].
  - by rewrite write_lines_Buffer, Hbind.
  - apply Forall_fmap, Forall_forall. intros src Hin. split; [done|]. simpl.
    rewrite Hfull by done.
    by eapply Forall_forall in Hsrcs as (_ & ? & _); [|exact Hin].
Qed.

Lemma X5_witness :
  mergeSimple (id_sched 0)
    ((λ src, rd (join src.1 +:+ src.2))
       <$> [([line "a"; line "c"], "lost"); ([line "b"], EmptyString)])
    (EmptyString : Buffer)
  = Done (EmptyString +:+
            join (sort_Strings
                    ([([line "a"; line "c"], "lost"); ([line "b"], EmptyString)]
                       ≫= fst)),
          None).
Proof.
  apply (X5_mergeSimple_drops_unterminated_tails (id_sched 0)
           [([line "a"; line "c"], "lost"); ([line "b"], EmptyString)]).
  - intros k. apply id_sched_fair.
  - repeat constructor; by eexists.
Defined.

(** * Chunk files and merged files *)

Lemma write_lines_Writer_ok (lines : list string) (buf buf' : Writer) :
  werr buf = None → write_lines lines buf = (buf', None) →
  wbuf buf' = wbuf buf +:+ join lines ∧ wfile buf' = wfile buf ∧ werr buf' = None.
Proof.
  revert buf. induction lines as [|l lines IH]; intros buf Hbuf; simpl.
  - intros [= <-]. by rewrite append_nil_r.
  - unfold WriteString at 1, Writer_stringWriter. rewrite Hbuf.
    destruct (over_cap _ _); [done|]. intros Hrest.
    apply IH in Hrest as (-> & -> & ->); [|done]. simpl.
    by rewrite append_assoc.
Qed.

Lemma writeChunk_spec F (lines : list string) (w : world) :
  ∃ w' name err,
    writeChunk F lines w = (w', (name, err)) ∧
    next w' = S (next w) ∧ nopen w' = nopen w ∧
    if create_fails F (next w)
    then name = EmptyString ∧ err = Some ErrCreate ∧ fs w' = fs w
    else name = tempname chunk_prefix (next w) ∧
         (∀ k, k ≠ name → fs w' !! k = fs w !! k) ∧
         fs w' !! name = Some (if err is None then join lines else EmptyString).
Proof.
  unfold writeChunk, TempFile. destruct (create_fails F (next w)).
  { eexists _, _, _. by split_and!. }
  set (name := tempname chunk_prefix (next w)).
  destruct (write_lines lines (NewWriter F name)) as [buf [e|]] eqn:Hw.
  - eexists _, _, _. split; [done|]. simpl. split_and!; [done..| |].
    + intros k Hk. by rewrite lookup_insert_ne.
    + apply lookup_insert_eq.
  - apply write_lines_Writer_ok in Hw as (Hbuf & Hfile & Herr); [|done].
    simpl in Hbuf, Hfile. unfold Flush. rewrite Herr, Hfile.
    destruct (flush_fails F name).
    + eexists _, _, _. split; [done|]. simpl. split_and!; [done..| |].
      * intros k Hk. by rewrite lookup_insert_ne.
      * apply lookup_insert_eq.
    + eexists _, _, _. split; [done|]. simpl. split_and!; [done..| |].
      * intros k Hk. by rewrite !lookup_insert_ne.
      * by rewrite lookup_insert_eq, Hbuf.
Qed.

Lemma lines_of_full (c : string) :
  tail_of c = EmptyString → lines_of c = full_lines c.
Proof. intros Ht. unfold lines_of. rewrite Ht. simpl. apply app_nil_r. Qed.

Lemma good_file_lines (c : string) :
  good_file c ↔ tail_of c = EmptyString ∧ Sorted String.le (lines_of c).
Proof.
  unfold good_file. split; intros [Ht Hs]; (split; [done|]).
  - by rewrite lines_of_full.
  - by rewrite <-lines_of_full.
Qed.

Lemma bind_lines_of (cs : list string) :
  Forall good_file cs → cs ≫= lines_of = cs ≫= full_lines.
Proof.
  induction 1 as [|c cs [Ht _] _ IH]; [done|].
  by rewrite !bind_cons, IH, lines_of_full.
Qed.

Lemma merged_content_lines (cs : list string) :
  Forall good_file cs →
  tail_of (merged_content cs) = EmptyString ∧
  lines_of (merged_content cs) ≡ₚ cs ≫= lines_of ∧
  Sorted String.le (lines_of (merged_content cs)).
Proof.
  intros Hgood. destruct (good_file_merged_content cs) as [Ht Hs].
  rewrite lines_of_full by done. split_and!; [done| |done].
  by rewrite full_lines_merged_content, sort_Strings_Permutation, bind_lines_of.
Qed.

(** X6.  [writeChunk] returns the empty name exactly when the temporary file
    could not be created, and then no file has changed.  Otherwise it returns
    the name of the file it created, also when a write or the flush failed, so
    that the caller can delete the file; no other file has changed, and
    without error the file holds the lines one after another. *)
Theorem X6_writeChunk_names_what_it_created F (lines : list string) (w : world) :
  ∃ w' name err,
    writeChunk F lines w = (w', (name, err)) ∧
    (name = EmptyString ↔ create_fails F (next w) = true) ∧
    (name = EmptyString → err = Some ErrCreate ∧ fs w' = fs w) ∧
    (name ≠ EmptyString →
       name = tempname chunk_prefix (next w) ∧ is_Some (fs w' !! name) ∧
       ∀ k, k ≠ name → fs w' !! k = fs w !! k) ∧
    (err = None → fs w' !! name = Some (join lines)).
Proof.
  destruct (writeChunk_spec F lines w) as (w' & name & err & Hrun & _ & _ & Hspec).
  exists w', name, err. split; [done|].
  destruct (create_fails F (next w)).
  - destruct Hspec as (-> & -> & Hfs). by split_and!.
  - destruct Hspec as (-> & Hframe & Hname). split_and!.
    + split; [|done]. by intros ?%tempname_chunk_nonempty.
    + by intros ?%tempname_chunk_nonempty.
    + intros _. split_and!; [done| |done]. by eexists.
    + by intros ->.
Qed.

(** X7.  [split] without faults, on a positive limit that [readLines]
    accepts: the lines of the input are cut into groups of at most [limit]
    consecutive lines, and each chunk file holds the lines of one group in
    ascending order, every line terminated; the chunk files are distinct and
    no other file has changed. *)
Theorem X7_split_chunks_are_sorted_groups (data : string) (limit : Z) (w : world) :
  (1 ≤ limit ≤ max_cap)%Z → wf w →
  ∃ w' names groups,
    split no_faults (rd data) limit w = (w', Done (names, None)) ∧
    concat groups = lines_of data ∧
    Forall (λ g, length g ≤ Z.to_nat limit) groups ∧
    Forall2 (λ name g,
               ∃ c, fs w' !! name = Some c ∧ tail_of c = EmptyString ∧
                    lines_of c ≡ₚ g ∧ Sorted String.le (lines_of c)) names groups ∧
    NoDup names ∧
    (∀ k, k ∉ names → fs w' !! k = fs w !! k).
Proof.
  intros Hlimit Hwf. rewrite split_spec by done. set (n := Z.to_nat limit).
  destruct (write_chunks_spec (split_groups n (lines_of data)) w Hwf)
    as (w' & names & -> & _ & Hholds & Hnodup & _ & _ & Hframe & _).
  exists w', names, (split_groups n (lines_of data)).
  assert (Forall (Forall is_line) (split_groups n (lines_of data))) as Hlines.
  { apply Forall_forall. intros g Hg. apply Forall_forall. intros l Hl.
    pose proof (lines_of_is_line data) as Hall.
    eapply Forall_forall in Hall; [exact Hall|].
    rewrite <-(split_groups_concat n (lines_of data)) by lia.
    apply elem_of_concat. by eauto. }
  split_and!; [done| | | |done|done].
  - apply split_groups_concat. lia.
  - unfold split_groups. destruct (lines_of data) as [|l L].
    + repeat constructor. simpl. lia.
    + eapply Forall_impl; [apply (chunks_bounds n (l :: L)); lia|].
      simpl. intros g Hg. lia.
  - unfold holds in Hholds. apply Forall2_fmap_r in Hholds.
    apply Forall2_same_length_lookup. split; [by eapply Forall2_length|].
    intros i name g Hname Hg.
    pose proof (Forall2_lookup_lr _ _ _ _ _ _ Hholds Hname Hg) as Hc.
    simpl in Hc. eexists. split; [exact Hc|].
    assert (Forall is_line (sort_Strings g)) as Hsorted.
    { apply sort_Strings_is_line. eapply Forall_forall in Hlines; [exact Hlines|].
      by eapply list_elem_of_lookup_2. }
    rewrite lines_of_join, tail_of_join by done.
    split_and!; [done|apply sort_Strings_Permutation|apply sort_Strings_Sorted].
Qed.

Lemma X7_witness :
  ∃ w' names groups,
    split no_faults (rd (line "c" +:+ line "a" +:+ "b")) 2 world0
      = (w', Done (names, None)) ∧
    concat groups = lines_of (line "c" +:+ line "a" +:+ "b") ∧
    Forall (λ g, length g ≤ Z.to_nat 2) groups ∧
    Forall2 (λ name g,
               ∃ c, fs w' !! name = Some c ∧ tail_of c = EmptyString ∧
                    lines_of c ≡ₚ g ∧ Sorted String.le (lines_of c)) names groups ∧
    NoDup names ∧
    (∀ k, k ∉ names → fs w' !! k = fs world0 !! k).
Proof.
  apply (X7_split_chunks_are_sorted_groups (line "c" +:+ line "a" +:+ "b") 2 world0).
  - unfold max_cap. lia.
  - apply wf_world0.
Defined.

(** X8.  [mergeSimpleFiles] without faults, over sorted files that exist:
    it returns without error the name of a new merge file that holds all the
    lines of the inputs in ascending order; the inputs are deleted and no
    other file has changed. *)
Theorem X8_mergeSimpleFiles_merges_sorted_files sched (names cs : list string)
    (w : world) :
  fair_sched sched → wf w →
  Forall2 (λ n c, fs w !! n = Some c) names cs →
  Forall (λ c, tail_of c = EmptyString ∧ Sorted String.le (lines_of c)) cs →
  ∃ w' content,
    mergeSimpleFiles no_faults sched names w
      = (w', Done (tempname merge_prefix (next w), None)) ∧
    fs w' !! tempname merge_prefix (next w) = Some content ∧
    tail_of content = EmptyString ∧
    lines_of content ≡ₚ cs ≫= lines_of ∧
    Sorted String.le (lines_of content) ∧
    (∀ n, n ∈ names → fs w' !! n = None) ∧
    (∀ k, k ∉ names → k ≠ tempname merge_prefix (next w) →
          fs w' !! k = fs w !! k).
Proof.
  intros Hfair Hwf Hholds Hgood.
  assert (Forall good_file cs) as Hgood'.
  { eapply Forall_impl; [exact Hgood|]. intros c. apply good_file_lines. }
  destruct (mergeSimpleFiles_sorted sched names cs w Hfair Hwf Hholds Hgood')
    as (w' & Hrun & (Hout & Hdel & Hframe & _) & _).
  destruct (merged_content_lines cs Hgood') as (Ht & Hp & Hs).
  exists w', (merged_content cs). split_and!; [done..| |done].
  intros n Hn. apply Hdel; [done|]. intros ->. by eapply holds_fresh.
Qed.

Lemma X8_witness :
  ∃ w' content,
    mergeSimpleFiles no_faults rev_sched ["a"; "b"]
      (set_fs (insert "a" (line "x" +:+ line "z"))
         (set_fs (insert "b" (line "y")) world0))
      = (w', Done (tempname merge_prefix 0, None)) ∧
    fs w' !! tempname merge_prefix 0 = Some content ∧
    tail_of content = EmptyString ∧
    lines_of content ≡ₚ [line "x" +:+ line "z"; line "y"] ≫= lines_of ∧
    Sorted String.le (lines_of content) ∧
    (∀ n, n ∈ ["a"; "b"] → fs w' !! n = None) ∧
    (∀ k, k ∉ ["a"; "b"] → k ≠ tempname merge_prefix 0 →
          fs w' !! k =
          fs (set_fs (insert "a" (line "x" +:+ line "z"))
                (set_fs (insert "b" (line "y")) world0)) !! k).
Proof.
  apply (X8_mergeSimpleFiles_merges_sorted_files rev_sched ["a"; "b"]
           [line "x" +:+ line "z"; line "y"]).
  - apply rev_sched_fair.
  - apply wf_insert; [apply wf_insert; [apply wf_world0|]|]; discriminate.
  - repeat constructor.
  - repeat constructor; vm_compute; by intros [=].
Defined.

(** X9.  [merge] without faults and with a fan-in of at least two, over
    distinct sorted files: with a budget of at least the number of names it
    returns without error one file that holds all the lines of the inputs in
    ascending order; the other inputs are deleted, no other file has changed,
    and every file it opened is closed. *)
Theorem X9_merge_merges_sorted_files sched (limit : Z) (fuel : nat)
    (names cs : list string) (w : world) :
  fair_sched sched → (2 ≤ limit)%Z →
  names ≠ [] → NoDup names → Forall (λ n, n ≠ EmptyString) names →
  wf w →
  Forall2 (λ n c, fs w !! n = Some c) names cs →
  Forall (λ c, tail_of c = EmptyString ∧ Sorted String.le (lines_of c)) cs →
  length names ≤ fuel →
  ∃ w' out content,
    merge no_faults sched fuel names limit w = (w', Done (out, None)) ∧
    fs w' !! out = Some content ∧
    tail_of content = EmptyString ∧
    lines_of content ≡ₚ cs ≫= lines_of ∧
    Sorted String.le (lines_of content) ∧
    (∀ k, k ∈ names → k ≠ out → fs w' !! k = None) ∧
    (∀ k, k ∉ names → k ≠ out → fs w' !! k = fs w !! k) ∧
    nopen w' = nopen w.
Proof.
  intros Hfair Hlimit Hne Hnodup Hnames Hwf Hholds Hgood Hfuel.
  assert (Forall good_file cs) as Hgood'.
  { eapply Forall_impl; [exact Hgood|]. intros c. apply good_file_lines. }
  destruct (merge_sorted sched Hfair limit Hlimit fuel names cs w)
    as (w' & out & Hrun & (Hout & Hdel & Hframe & _) & _); [done..|].
  destruct (merged_content_lines cs Hgood') as (Ht & Hp & Hs).
  exists w', out, (merged_content cs). split_and!; [done..|].
  destruct (safe_merge no_faults sched Hfair fuel names limit w) as [_ Hopen].
  rewrite Hrun in Hopen. by eapply Hopen.
Qed.

Lemma X9_witness :
  ∃ w' out content,
    merge no_faults id_sched 3 ["a"; "b"; "c"] 2
      (set_fs (insert "a" (line "x" +:+ line "z"))
         (set_fs (insert "b" (line "y"))
            (set_fs (insert "c" (line "w")) world0)))
      = (w', Done (out, None)) ∧
    fs w' !! out = Some content ∧
    tail_of content = EmptyString ∧
    lines_of content ≡ₚ [line "x" +:+ line "z"; line "y"; line "w"] ≫= lines_of ∧
    Sorted String.le (lines_of content) ∧
    (∀ k, k ∈ ["a"; "b"; "c"] → k ≠ out → fs w' !! k = None) ∧
    (∀ k, k ∉ ["a"; "b"; "c"] → k ≠ out →
          fs w' !! k =
          fs (set_fs (insert "a" (line "x" +:+ line "z"))
                (set_fs (insert "b" (line "y"))
                   (set_fs (insert "c" (line "w")) world0))) !! k) ∧
    nopen w' =
      nopen (set_fs (insert "a" (line "x" +:+ line "z"))
               (set_fs (insert "b" (line "y"))
                  (set_fs (insert "c" (line "w")) world0))).
Proof.
  apply (X9_merge_merges_sorted_files id_sched 2 3 ["a"; "b"; "c"]
           [line "x" +:+ line "z"; line "y"; line "w"]).
  - apply id_sched_fair.
  - lia.
  - discriminate.
  - by apply (bool_decide_unpack _); vm_compute.
  - repeat constructor; discriminate.
  - repeat (apply wf_insert; [|discriminate]). apply wf_world0.
  - repeat constructor.
  - repeat constructor; vm_compute; by intros [=].
  - simpl. lia.
Defined.

(** * Limits below two, and what the sort leaves behind *)

Lemma chunks_one {A} (l : list A) : chunks 1 l = (λ x, [x]) <$> l.
Proof.
  induction l as [|a l IH]; [apply chunks_nil|].
  rewrite chunks_cons by done. simpl. rewrite drop_0. by rewrite IH.
Qed.

Lemma merge_groups_singletons F sched fuel (limit : Z) (names acc : list string)
    (w : world) :
  Forall (λ n, n ≠ EmptyString) names →
  merge_groups (λ g, merge F sched (S fuel) g limit)
    ((λ x, [x]) <$> names) acc w
  = (w, Done (acc ++ names, None)).
Proof.
  intros Hnames. revert acc.
  induction Hnames as [|a names Ha _ IH]; intros acc; simpl.
  - by rewrite app_nil_r.
  - unfold bind at 1, ret at 1. rewrite bool_decide_true by done.
    rewrite IH. by rewrite <-app_assoc.
Qed.

(** X10.  [merge] needs a fan-in of at least two: on two or more names with
    a limit of one it regroups the names one by one, gets the same names back
    and calls itself on them again, so it never returns, whatever the budget,
    and touches no file; with a limit below one it panics in
    [strSliceSplit]. *)
Theorem X10_merge_needs_fan_in_of_two F sched (names : list string) (w : world) :
  2 ≤ length names → Forall (λ n, n ≠ EmptyString) names →
  (∀ fuel, merge F sched fuel names 1 w = (w, OutOfFuel)) ∧
  (∀ fuel limit, (limit < 1)%Z →
     merge F sched (S fuel) names limit w = (w, Panic "Non-positive limit")).
Proof.
  intros Hlen Hnames.
  destruct names as [|a [|b rest]]; [simpl in Hlen; lia..|].
  split.
  - intros fuel. induction fuel as [|fuel IH]; [done|].
    cbn [merge].
    assert ((len (a :: b :: rest) <=? 1)%Z = false) as ->.
    { apply Z.leb_gt. unfold len. simpl. lia. }
    unfold bind at 1, lift at 1. rewrite strSliceSplit_chunks by lia.
    change (Z.to_nat 1) with 1. rewrite chunks_one.
    destruct fuel as [|fuel]; [done|].
    unfold bind at 1. rewrite merge_groups_singletons by done.
    exact IH.
  - intros fuel limit Hlimit. cbn [merge].
    assert ((len (a :: b :: rest) <=? limit)%Z = false) as ->.
    { apply Z.leb_gt. unfold len. simpl. lia. }
    unfold bind at 1, lift at 1, strSliceSplit.
    by destruct (Z.ltb_spec limit 1); [|lia].
Qed.

Lemma X10_witness :
  (∀ fuel, merge no_faults id_sched fuel ["a"; "b"; "c"] 1 world0
           = (world0, OutOfFuel)) ∧
  (∀ fuel limit, (limit < 1)%Z →
     merge no_faults id_sched (S fuel) ["a"; "b"; "c"] limit world0
     = (world0, Panic "Non-positive limit")).
Proof.
  apply (X10_merge_needs_fan_in_of_two no_faults id_sched ["a"; "b"; "c"] world0).
  - simpl. lia.
  - repeat constructor; discriminate.
Defined.

(** X11.  The functions below [main] do not guard the chunk limit.  With a
    limit of zero [sortLines] reads nothing: whatever the stream holds, it
    returns without error a file that is empty.  With a negative limit it
    panics in the [make] of [readLines], whatever else would fail, before any
    file is made. *)
Theorem X11_sortLines_unguarded_limit F sched (fuel : nat) (r : Reader)
    (w : world) :
  (∃ w' name,
     sortLines no_faults sched (S fuel) r 0 w = (w', Done (name, None)) ∧
     fs w' !! name = Some EmptyString ∧
     ∀ k, k ≠ name → fs w' !! k = fs w !! k) ∧
  (∀ limit, (limit < 0)%Z →
     sortLines F sched fuel r limit w = (w, Panic "makeslice: cap out of range")).
Proof.
  split.
  - eexists _, (tempname chunk_prefix (next w)). split_and!.
    + unfold sortLines, split. rewrite Nat.add_comm. cbn [Nat.add split_loop].
      unfold bind at 1. unfold bind at 1, lift at 1.
      rewrite readLines_in_range by (unfold max_cap; lia). simpl.
      reflexivity.
    + simpl. apply lookup_insert_eq.
    + intros k Hk. simpl. by rewrite !lookup_insert_ne.
  - intros limit Hlimit. unfold sortLines, split. rewrite Nat.add_comm.
    cbn [Nat.add split_loop]. unfold bind at 1. unfold bind at 1, lift at 1.
    by rewrite readLines_out_of_range by lia.
Qed.

Section Clean.
Variable sched : nat → nat → iteration_order.
Hypothesis sched_fair : fair_sched sched.

Lemma sortLines_clean fuel (data : string) (limit : Z) (w : world) :
  (1 ≤ limit ≤ max_cap)%Z → wf w → String.length data < fuel →
  ∃ w' name,
    sortLines no_faults sched fuel (rd data) limit w = (w', Done (name, None)) ∧
    fs w' = <[name := join (sort_Strings (lines_of data))]> (fs w) ∧
    fs w !! name = None ∧ nopen w' = nopen w.
Proof.
  intros Hlimit Hwf Hfuel. unfold sortLines, bind. rewrite split_spec by done.
  set (n := Z.to_nat limit). set (groups := split_groups n (lines_of data)).
  destruct (write_chunks_spec groups w Hwf)
    as (w1 & names & -> & Hlen & Hholds & Hnodup & Hne & Htemp & Hframe1
        & Hnext1 & Hopen1 & _ & _ & Hwf1).
  assert (Forall (Forall is_line) groups) as Hlines.
  { apply Forall_forall. intros g Hg. apply Forall_forall. intros l Hl.
    pose proof (lines_of_is_line data) as Hall.
    eapply Forall_forall in Hall; [exact Hall|].
    rewrite <-(split_groups_concat n (lines_of data)) by lia.
    apply elem_of_concat. by eauto. }
  assert (2 ≤ min 100 (max 10 limit))%Z as Hclamp
    by (pose proof (clamp_limit limit); lia).
  destruct (merge_sorted sched sched_fair (min 100 (max 10 limit))
              Hclamp fuel names
              (join ∘ sort_Strings <$> groups) w1)
    as (w' & out & Hrun & (Hout & Hdel & Hframe & Hclass & _) & Hwf'); try done.
  - intros ->. apply (split_groups_nonempty n (lines_of data)); [lia|].
    symmetry in Hlen. by apply nil_length_inv in Hlen.
  - apply Forall_fmap, Forall_forall. intros g Hg. simpl.
    apply good_file_join; [|apply sort_Strings_Sorted].
    apply sort_Strings_is_line. by eapply Forall_forall in Hlines.
  - rewrite Hlen. pose proof (length_split_groups n (lines_of data)) as Hg.
    pose proof (length_lines_of data). fold groups in Hg. lia.
  - assert (∀ k, k ∈ names → fs w !! k = None) as Hfresh.
    { intros k Hk. eapply Forall_forall in Htemp as (j & -> & Hj); [|exact Hk].
      destruct (Hwf j) as [Hc _]; [lia|]. exact Hc. }
    assert (fs w !! out = None) as Hnew.
    { destruct Hclass as [Hin|(j & -> & Hj)]; [by apply Hfresh|].
      destruct (Hwf j) as [_ Hm]; [lia|]. exact Hm. }
    rewrite Hrun. exists w', out. split_and!; [done| |done|].
    + apply map_eq. intros k. destruct (decide (k = out)) as [->|Hk].
      * rewrite lookup_insert_eq, Hout, sorted_chunks_content by done.
        unfold groups. by rewrite split_groups_concat by lia.
      * rewrite lookup_insert_ne by done.
        destruct (decide (k ∈ names)) as [Hin|Hin].
        -- rewrite Hdel by done. symmetry. by apply Hfresh.
        -- rewrite Hframe by done. by apply Hframe1.
    + rewrite <-Hopen1.
      destruct (safe_merge no_faults sched sched_fair fuel names
                  (min 100 (max 10 limit)) w1) as [_ Hopen].
      rewrite Hrun in Hopen. by eapply Hopen.
Qed.
End Clean.

(** X12.  The sort leaves no temporary file behind, in the run without
    faults on a positive limit that [readLines] accepts.  After
    [sortLinesWrite] the files are exactly as before the call, also when the
    destination refuses some write: the destination was handed the sorted
    lines piece by piece, in order, up to the first write it refused.  After
    [sortLinesFile] the only change is that the output file holds the sorted
    lines.  Every file opened meanwhile is closed. *)
Theorem X12_sort_leaves_no_temporary_file {W} `{!stringWriter W} sched pieces
    (data : string) (limit : Z) (fuel : nat) (outfile : string) (dst : W)
    (w : world) :
  fair_sched sched → (1 ≤ limit ≤ max_cap)%Z → wf w →
  String.length data < fuel →
  (∃ w',
     sortLinesWrite no_faults sched pieces fuel (rd data) limit dst w
       = (w', Done (write_lines
                      (pieces (join (sort_Strings (lines_of data)))) dst)) ∧
     fs w' = fs w ∧ nopen w' = nopen w) ∧
  (∃ w',
     sortLinesFile no_faults sched fuel (rd data) limit outfile w
       = (w', Done None) ∧
     fs w' = <[outfile := join (sort_Strings (lines_of data))]> (fs w) ∧
     nopen w' = nopen w).
Proof.
  intros Hfair Hlimit Hwf Hfuel.
  destruct (sortLines_clean sched Hfair fuel data limit w)
    as (w1 & name & Hrun & Hfs & Hnew & Hopen); [done..|].
  assert (fs w1 !! name = Some (join (sort_Strings (lines_of data)))) as Hname.
  { rewrite Hfs. apply lookup_insert_eq. }
  split.
  - unfold sortLinesWrite, bind. rewrite Hrun. unfold Open. rewrite Hname. simpl.
    rewrite file_reader_no_faults, WriteTo_rd. eexists. split; [done|]. simpl.
    split; [|done]. rewrite Hfs. by apply delete_insert_id.
  - unfold sortLinesFile, bind. rewrite Hrun. unfold call, Rename.
    rewrite Hname. simpl. eexists. split; [done|]. simpl. split; [|done].
    rewrite Hfs. by rewrite delete_insert_id.
Qed.

Lemma X12_witness :
  (∃ w',
     sortLinesWrite no_faults rev_sched bytewise 20
       (rd (line "c" +:+ line "a" +:+ "b")) 1
       (mkWriter "out" EmptyString (Some 3) None) world0
       = (w', Done (write_lines
                      (bytewise
                         (join (sort_Strings
                                  (lines_of (line "c" +:+ line "a" +:+ "b")))))
                      (mkWriter "out" EmptyString (Some 3) None))) ∧
     fs w' = fs world0 ∧ nopen w' = nopen world0) ∧
  (∃ w',
     sortLinesFile no_faults rev_sched 20 (rd (line "c" +:+ line "a" +:+ "b")) 1
       "sorted.txt" world0
       = (w', Done None) ∧
     fs w' = <["sorted.txt" :=
                 join (sort_Strings (lines_of (line "c" +:+ line "a" +:+ "b")))]>
               (fs world0) ∧
     nopen w' = nopen world0).
Proof.
  apply (X12_sort_leaves_no_temporary_file rev_sched bytewise
           (line "c" +:+ line "a" +:+ "b") 1 20 "sorted.txt"
           (mkWriter "out" EmptyString (Some 3) None) world0).
  - apply rev_sched_fair.
  - unfold max_cap. lia.
  - apply wf_world0.
  - vm_compute. lia.
Defined.

Lemma split_loop_frame F fuel (limit : Z) (in_ : Reader) (cn : list string)
    (err : option error) (w0 w w' : world) (names : list string)
    (err' : option error) :
  next w0 ≤ next w →
  (∀ k, k ∉ cn → fs w !! k = fs w0 !! k) →
  Forall (λ n, ∃ j, n = tempname chunk_prefix j ∧ next w0 ≤ j) cn →
  split_loop F fuel limit in_ cn err w = (w', Done (names, err')) →
  (∀ k, k ∉ names → fs w' !! k = fs w0 !! k) ∧
  Forall (λ n, ∃ j, n = tempname chunk_prefix j ∧ next w0 ≤ j) names ∧
  nopen w' = nopen w.
Proof.
  revert in_ cn err w.
  induction fuel as [|fuel IH]; intros in_ cn err w Hnext Hframe Hcn.
  { simpl. destruct err; [|done]. by intros [= <- <- <-]. }
  cbn [split_loop]. destruct err as [e|]; [by intros [= <- <- <-]|].
  unfold bind at 1, lift at 1.
  destruct (readLines in_ limit) as [[[lines err1] in']| |]; [|done..].
  destruct (_ && _); [by intros [= <- <- <-]|].
  destruct (_ && _); [by intros [= <- <- <-]|].
  unfold bind at 1, call at 1.
  destruct (writeChunk_spec F (sort_Strings lines) w)
    as (w2 & name & err2 & -> & Hnext2 & Hopen2 & Hspec).
  intros Hloop. rewrite <-Hopen2. revert Hloop. apply IH; [lia| |].
  - destruct (create_fails F (next w)).
    + destruct Hspec as (-> & _ & ->). by rewrite bool_decide_false by (intros Hn; by apply Hn).
    + destruct Hspec as (-> & Hfs & _).
      rewrite bool_decide_true by apply tempname_chunk_nonempty.
      intros k Hk. rewrite not_elem_of_app, list_elem_of_singleton in Hk.
      destruct Hk as [Hk1 Hk2]. rewrite Hfs by done. by apply Hframe.
  - destruct (create_fails F (next w)).
    + destruct Hspec as (-> & _ & _). by rewrite bool_decide_false by (intros Hn; by apply Hn).
    + destruct Hspec as (-> & _ & _).
      rewrite bool_decide_true by apply tempname_chunk_nonempty.
      apply Forall_app. split; [done|]. repeat constructor. by eexists.
Qed.

Lemma sortLines_failed_split F sched (fuel : nat) (r : Reader) (limit : Z)
    (w w1 : world) (names : list string) (e : error) :
  wf w → split F r limit w = (w1, Done (names, Some e)) →
  ∃ w',
    sortLines F sched fuel r limit w = (w', Done (EmptyString, Some e)) ∧
    fs w' = fs w ∧ nopen w' = nopen w.
Proof.
  intros Hwf Hsplit. unfold sortLines, bind. rewrite Hsplit.
  eexists. split; [done|].
  apply split_loop_frame with (w0 := w) in Hsplit
    as (Hframe & Hnames & Hopen); [|done|done|done].
  split.
  - apply map_eq. intros k. rewrite deleteFiles_fs. case_decide as Hk.
    + eapply Forall_forall in Hnames as (j & -> & Hj); [|exact Hk].
      destruct (Hwf j) as [Hc _]; [lia|]. by rewrite Hc.
    + by apply Hframe.
  - by destruct (deleteFiles_ghost names w1) as (_ & -> & _).
Qed.

(** X13.  When [split] fails (the stream cannot be read, or a chunk file
    cannot be created, written or flushed), [sortLines] returns that error
    with the empty name and deletes every chunk file [split] had made: the
    files are exactly as before the call. *)
Theorem X13_failed_split_leaves_no_chunk F sched (fuel : nat) (r : Reader)
    (limit : Z) (w w1 : world) (names : list string) (e : error) :
  wf w → split F r limit w = (w1, Done (names, Some e)) →
  ∃ w',
    sortLines F sched fuel r limit w = (w', Done (EmptyString, Some e)) ∧
    fs w' = fs w ∧ nopen w' = nopen w.
Proof. apply sortLines_failed_split. Qed.

Lemma X13_witness :
  ∃ w',
    sortLines (mkFaults (λ n, Nat.eqb n 1) (λ _, false) (λ _, None) (λ _, None)
                 (λ _, false) (λ _, false))
      id_sched 5 (rd (line "b" +:+ line "a")) 1 world0
    = (w', Done (EmptyString, Some ErrCreate)) ∧
    fs w' = fs world0 ∧ nopen w' = nopen world0.
Proof.
  eapply (X13_failed_split_leaves_no_chunk _ id_sched 5 _ 1 world0).
  - apply wf_world0.
  - vm_compute. reflexivity.
Defined.

(** X14.  [deleteFiles] removes exactly the files it names, whether or not
    they exist and however often a name is listed, and changes nothing else:
    no other file, no counter of temporary names, no open file. *)
Theorem X14_deleteFiles_removes_the_named_files (names : list string)
    (w : world) :
  (∀ k, fs (deleteFiles names w) !! k
        = if decide (k ∈ names) then None else fs w !! k) ∧
  next (deleteFiles names w) = next w ∧
  nopen (deleteFiles names w) = nopen w.
Proof.
  split; [intros k; apply deleteFiles_fs|].
  by destruct (deleteFiles_ghost names w) as (-> & -> & _).
Qed.

(** X15.  [source.pop] loses no byte: the new top line followed by what is
    left of the stream is what the stream held before.  It returns no error
    exactly when the new top is a terminated line; otherwise the stream had no
    newline left, the top is what was left of it (possibly nothing), the
    stream is exhausted and the error is the one the stream ends with. *)
Theorem X15_pop_takes_the_next_line (s : source) :
  ∃ s' err,
    pop s = (s', err) ∧
    top s' +:+ pending (r s') = pending (r s) ∧
    at_end (r s') = at_end (r s) ∧
    (err = None ↔ is_line (top s')) ∧
    (err ≠ None →
       err = Some (at_end (r s)) ∧ pending (r s') = EmptyString ∧
       has_newline (pending (r s)) = false).
Proof.
  destruct (cut_line (pending (r s))) as [[l rest]|] eqn:Hcut.
  - rewrite (pop_Some s l rest Hcut).
    apply cut_line_Some in Hcut as (Hs & Hl & _).
    eexists _, _. split; [done|]. simpl. by split_and!.
  - rewrite (pop_None s Hcut).
    apply cut_line_None in Hcut as (Hnl & _).
    eexists _, _. split; [done|]. simpl. split_and!; [apply append_nil_r|done| |done].
    split; [done|]. intros (body & Hbody & _). exfalso.
    rewrite Hbody, has_newline_append in Hnl.
    apply orb_false_elim in Hnl as [_ Hnl]. done.
Qed.

(** * Read errors, and what the output depends on *)

Lemma split_loop_read_error fuel (limit : Z) (ls : list string) (t : string)
    (e : error) (cn : list string) (w : world) :
  (1 ≤ limit ≤ max_cap)%Z → Forall is_line ls → has_newline t = false → e ≠ EOF →
  length ls < fuel →
  ∃ w' names,
    split_loop no_faults fuel limit (mkReader (join ls +:+ t) e) cn None w
      = (w', Done (names, Some e)).
Proof.
  intros Hlimit. revert ls cn w.
  induction fuel as [|fuel IH]; intros ls cn w Hls Ht He Hfuel; [lia|].
  cbn [split_loop]. unfold bind at 1, lift at 1.
  rewrite readLines_in_range by lia.
  rewrite readLines_loop_spec by done. set (n := Z.to_nat limit).
  assert (1 ≤ n) as Hn1 by lia.
  destruct (decide (n ≤ length ls)) as [Hn|Hn].
  - (* a full group of lines is read before the error *)
    cbn [app].
    assert (take n ls ≠ []) as Htake.
    { destruct ls; [simpl in Hn; lia|]. destruct n; [lia|done]. }
    rewrite andb_false_intro1
      by (by apply bool_decide_eq_false; intros Hx; apply Hx).
    rewrite andb_false_intro1.
    2:{ apply bool_decide_eq_false. unfold len.
        destruct (take n ls); [done|]. simpl. lia. }
    unfold bind at 1, call at 1. rewrite writeChunk_no_faults.
    apply IH; [by apply Forall_drop|done|done|].
    rewrite length_drop. lia.
  - (* the read fails *)
    assert (is_EOF e = false) as -> by (by destruct e).
    cbn [app].
    rewrite bool_decide_true by done.
    rewrite bool_decide_true by congruence.
    cbn [andb]. unfold ret, split_return. eexists _, _.
    by destruct e.
Qed.

(** X16.  A read error ends the sort: when the input stream fails after some
    lines [ls] and some bytes [t] of a further line, [sortLinesWrite], on a
    positive limit that [readLines] accepts, returns the error of the stream,
    writes nothing to its destination, and leaves the files exactly as they
    were, the chunks of the lines read so far deleted. *)
Theorem X16_read_error_ends_the_sort {W} `{!stringWriter W} sched pieces
    (fuel : nat) (ls : list string) (t : string) (e : error) (limit : Z)
    (dst : W) (w : world) :
  (1 ≤ limit ≤ max_cap)%Z → wf w →
  Forall is_line ls → has_newline t = false → e ≠ EOF →
  ∃ w',
    sortLinesWrite no_faults sched pieces fuel (mkReader (join ls +:+ t) e)
      limit dst w
      = (w', Done (dst, Some e)) ∧
    fs w' = fs w ∧ nopen w' = nopen w.
Proof.
  intros Hlimit Hwf Hls Ht He.
  destruct (split_loop_read_error
              (String.length (join ls +:+ t) + 2) limit ls t e [] w)
    as (w1 & names & Hsplit); [done..| |].
  { pose proof (length_full_lines (join ls +:+ t)) as Hlen.
    unfold full_lines in Hlen. rewrite parse_join in Hlen by done.
    simpl in Hlen. lia. }
  destruct (sortLines_failed_split no_faults sched fuel
              (mkReader (join ls +:+ t) e) limit w w1 names e Hwf Hsplit)
    as (w' & Hrun & Hfs & Hopen).
  exists w'. unfold sortLinesWrite, bind. by rewrite Hrun.
Qed.

Lemma X16_witness :
  ∃ w',
    sortLinesWrite no_faults id_sched one_piece 5
      (mkReader (join [line "b"; line "a"] +:+ "half") ErrRead) 1
      (EmptyString : Buffer) world0
      = (w', Done (EmptyString, Some ErrRead)) ∧
    fs w' = fs world0 ∧ nopen w' = nopen world0.
Proof.
  apply (X16_read_error_ends_the_sort (W := Buffer) id_sched one_piece 5
           [line "b"; line "a"] "half" ErrRead 1 EmptyString world0).
  - unfold max_cap. lia.
  - apply wf_world0.
  - repeat constructor; by eexists.
  - reflexivity.
  - discriminate.
Defined.

(** X17.  The bytes the sort writes depend on the lines of the input alone,
    as a multiset: two inputs with the same lines in any order, sorted with
    any two positive chunk limits that [readLines] accepts, under any two
    orders of visiting the map of sources and any two ways of cutting the
    copy into writes, give the same output. *)
Theorem X17_output_depends_on_the_lines_alone sched1 sched2 pieces1 pieces2
    (data1 data2 : string) (limit1 limit2 : Z) (fuel1 fuel2 : nat)
    (w1 w2 : world) :
  fair_sched sched1 → fair_sched sched2 →
  whole_stream pieces1 → whole_stream pieces2 →
  (1 ≤ limit1 ≤ max_cap)%Z → (1 ≤ limit2 ≤ max_cap)%Z → wf w1 → wf w2 →
  String.length data1 < fuel1 → String.length data2 < fuel2 →
  lines_of data1 ≡ₚ lines_of data2 →
  ∃ output w1' w2',
    sortLinesWrite no_faults sched1 pieces1 fuel1 (rd data1) limit1
      (EmptyString : Buffer) w1 = (w1', Done (output, None)) ∧
    sortLinesWrite no_faults sched2 pieces2 fuel2 (rd data2) limit2
      (EmptyString : Buffer) w2 = (w2', Done (output, None)).
Proof.
  intros Hfair1 Hfair2 Hpieces1 Hpieces2 Hlimit1 Hlimit2 Hwf1 Hwf2 Hfuel1 Hfuel2
    Hperm.
  destruct (sortLinesWrite_spec sched1 Hfair1 pieces1 fuel1 data1 limit1 w1)
    as (w1' & Hrun1); [done..|].
  destruct (sortLinesWrite_spec sched2 Hfair2 pieces2 fuel2 data2 limit2 w2)
    as (w2' & Hrun2); [done..|].
  exists (join (sort_Strings (lines_of data1))), w1', w2'.
  split; [done|]. by rewrite (sort_Strings_perm _ _ Hperm).
Qed.

Lemma X17_witness :
  ∃ output w1' w2',
    sortLinesWrite no_faults id_sched one_piece 20
      (rd (line "c" +:+ line "a" +:+ "b")) 1
      (EmptyString : Buffer) world0 = (w1', Done (output, None)) ∧
    sortLinesWrite no_faults rev_sched bytewise 20
      (rd (line "b" +:+ line "c" +:+ line "a")) 5
      (EmptyString : Buffer) world0 = (w2', Done (output, None)).
Proof.
  apply (X17_output_depends_on_the_lines_alone id_sched rev_sched
           one_piece bytewise
           (line "c" +:+ line "a" +:+ "b") (line "b" +:+ line "c" +:+ line "a")
           1 5 20 20 world0 world0).
  - apply id_sched_fair.
  - apply rev_sched_fair.
  - apply one_piece_whole.
  - apply bytewise_whole.
  - unfold max_cap. lia.
  - unfold max_cap. lia.
  - apply wf_world0.
  - apply wf_world0.
  - vm_compute. lia.
  - vm_compute. lia.
  - vm_compute. symmetry. apply (Permutation_cons_append [_; _]).
Defined.

(** X18.  The guard of [main] lets through limits that the sort cannot take:
    with a limit above [max_cap] the first [readLines] panics in its [make],
    so [sortLines], [sortLinesFile] and [sortLinesWrite] panic whatever the
    input holds and whatever else would fail, before any file is made and
    with nothing written to the destination. *)
Theorem X18_limit_above_max_cap_panics {W} `{!stringWriter W} F sched pieces
    (fuel : nat) (r : Reader) (limit : Z) (outfile : string) (dst : W)
    (w : world) :
  (max_cap < limit)%Z →
  split F r limit w = (w, Panic "makeslice: cap out of range") ∧
  sortLines F sched fuel r limit w = (w, Panic "makeslice: cap out of range") ∧
  sortLinesFile F sched fuel r limit outfile w
    = (w, Panic "makeslice: cap out of range") ∧
  sortLinesWrite F sched pieces fuel r limit dst w
    = (w, Panic "makeslice: cap out of range").
Proof.
  intros Hlimit.
  assert (split F r limit w = (w, Panic "makeslice: cap out of range")) as Hsplit.
  { unfold split. rewrite Nat.add_comm. cbn [Nat.add split_loop].
    unfold bind at 1, lift at 1. by rewrite readLines_out_of_range by lia. }
  assert (sortLines F sched fuel r limit w
          = (w, Panic "makeslice: cap out of range")) as Hsort.
  { unfold sortLines, bind. by rewrite Hsplit. }
  split_and!; [done|done| |].
  - unfold sortLinesFile, bind. by rewrite Hsort.
  - unfold sortLinesWrite, bind. by rewrite Hsort.
Qed.

Lemma X18_witness :
  split no_faults (rd (line "b" +:+ line "a")) (2 ^ 60) world0
    = (world0, Panic "makeslice: cap out of range") ∧
  sortLines no_faults id_sched 5 (rd (line "b" +:+ line "a")) (2 ^ 60) world0
    = (world0, Panic "makeslice: cap out of range") ∧
  sortLinesFile no_faults id_sched 5 (rd (line "b" +:+ line "a")) (2 ^ 60)
    "sorted.txt" world0
    = (world0, Panic "makeslice: cap out of range") ∧
  sortLinesWrite no_faults id_sched one_piece 5 (rd (line "b" +:+ line "a"))
    (2 ^ 60) (EmptyString : Buffer) world0
    = (world0, Panic "makeslice: cap out of range").
Proof.
  apply (X18_limit_above_max_cap_panics (W := Buffer) no_faults id_sched
           one_piece 5 (rd (line "b" +:+ line "a")) (2 ^ 60) "sorted.txt"
           EmptyString world0).
  unfold max_cap. lia.
Defined.
